(** * Fledge SQLite readings plugin and south ingest

    A shallow embedding of the retry executor, the global-id bookkeeping of
    the readings catalogue, the two INSERT paths, the purge by age and the
    resend/statistics part of the ingest worker, as found in
    [C/plugins/storage/sqlite/common/readings.cpp].

    Conventions.
    - C [int] values are kept in [Z]; where the source can leave the range
      of the type the wrap-around is written with [i32], [u32], [u64].
    - The SQLite engine is the environment.  Every call into it first
      consumes one entry of a script of forced return codes ([faults]);
      entry [SQLITE_OK], or an exhausted script, lets the call run
      normally.  A forced code leaves the database untouched.
    - Sleeps, SQL commands and steps are recorded in logs carried by the
      state, so that theorems can speak about what reached the engine. *)

From Stdlib Require Import ZArith List Lia Bool String Ascii DecimalString DecimalPos QArith.
From stdpp Require Import gmap strings list sorting.

Open Scope Z_scope.

(** ** Machine integers *)

Module Int.

Definition i32 (z : Z) : Z := (z + 2 ^ 31) mod 2 ^ 32 - 2 ^ 31.
Definition u32 (z : Z) : Z := z mod 2 ^ 32.
Definition u64 (z : Z) : Z := z mod 2 ^ 64.
Definition i64 (z : Z) : Z := (z + 2 ^ 63) mod 2 ^ 64 - 2 ^ 63.

(** [std::to_string] on an integer. *)
Definition to_string (z : Z) : string := NilZero.string_of_int (Z.to_int z).

End Int.

(** ** Single-precision arithmetic

    A finite [float] is kept as the rational it denotes.  [round] is
    rounding to 24 significant bits, ties to even; the exponent range is
    not modelled (the operands below stay far inside it). *)

Module Float32.

Definition round_pos (n d : Z) : Q :=
  let k := Z.log2 n - Z.log2 d in
  let ge := if 0 <=? k then d * 2 ^ k <=? n else d <=? n * 2 ^ (- k) in
  let e := (if ge then k else k - 1) - 23 in
  let N := if e <? 0 then n * 2 ^ (- e) else n in
  let D := if e <? 0 then d else d * 2 ^ e in
  let m := N / D in
  let r := N mod D in
  let m' := if (D <? 2 * r) || ((D =? 2 * r) && Z.odd m) then m + 1 else m in
  if e <? 0 then Qmake m' (Z.to_pos (2 ^ (- e))) else inject_Z (m' * 2 ^ e).

Definition round (q : Q) : Q :=
  match Qnum q with
  | 0 => 0%Q
  | Zpos n => round_pos (Zpos n) (Zpos (Qden q))
  | Zneg n => Qopp (round_pos (Zpos n) (Zpos (Qden q)))
  end.

(** [(float) z] *)
Definition of_int (z : Z) : Q := round (inject_Z z).
Definition div (a b : Q) : Q := round (a / b).
Definition mul (a b : Q) : Q := round (a * b).
(** [(int) q], truncation toward zero *)
Definition to_int (q : Q) : Z := Z.quot (Qnum q) (Zpos (Qden q)).
Definition ltb (a b : Q) : bool := negb (Qle_bool b a).

End Float32.

(** ** SQLite result codes and the fault script *)

Module Sqlite.

Definition SQLITE_OK : Z := 0.
Definition SQLITE_ERROR : Z := 1.
Definition SQLITE_BUSY : Z := 5.
Definition SQLITE_LOCKED : Z := 6.
Definition SQLITE_ROW : Z := 100.
Definition SQLITE_DONE : Z := 101.

(** The test [rc == SQLITE_LOCKED || rc == SQLITE_BUSY]. *)
Definition locked_or_busy (rc : Z) : bool :=
  (rc =? SQLITE_LOCKED) || (rc =? SQLITE_BUSY).

(** Next forced return code of the engine. *)
Definition next_fault (fs : list Z) : Z * list Z :=
  match fs with
  | [] => (SQLITE_OK, [])
  | f :: fs' => (f, fs')
  end.

(** An integer literal as the SQL parser reads it.  Two leading minus
    signs open a comment, which leaves the statement incomplete. *)
Definition sql_integer (text : string) : option Z :=
  Z.of_int <$> NilZero.int_of_string text.

(** SQL [max()] and [min()] over a column: NULL on no rows. *)
Definition sql_max (col : list Z) : option Z :=
  match col with
  | [] => None
  | x :: xs => Some (foldr Z.max x xs)
  end.

Definition sql_min (col : list Z) : option Z :=
  match col with
  | [] => None
  | x :: xs => Some (foldr Z.min x xs)
  end.

End Sqlite.

(** ** The retry loop of [SQLexec] and [SQLStep]

    The source has the same [do { ... } while] twice, once around
    [sqlite3_exec] and once around [sqlite3_step].  The loop is written
    once here, over the call it wraps. *)

Module Retry.
Import Sqlite.

Definition MAX_RETRIES : Z := 40.
Definition RETRY_BACKOFF : Z := 100.

Section Loop.
Context {St : Type}.
Variable attempt : St -> Z * St.
Variable usleep : Z -> St -> St.

(** One pass through the body and the loop test; [retries] is the
    value of the counter on entry. *)
Fixpoint retry_loop (fuel : nat) (retries : Z) (s : St) : option (Z * St) :=
  match fuel with
  | O => None
  | S fuel' =>
      let '(rc, s1) := attempt s in
      let retries' := retries + 1 in
      let s2 :=
        if locked_or_busy rc
        then usleep (retries' * RETRY_BACKOFF) s1
        else s1 in
      if (retries' <? MAX_RETRIES) && locked_or_busy rc
      then retry_loop fuel' retries' s2
      else Some (rc, s2)
  end.

(** The loop entered with [retries = 0].  [MAX_RETRIES] passes always
    suffice ([retry_loop_total]); the [None] branch is never taken. *)
Definition retry (s : St) : Z * St :=
  match retry_loop (Z.to_nat MAX_RETRIES) 0 s with
  | Some r => r
  | None => (SQLITE_ERROR, s)
  end.

End Loop.

End Retry.

(** ** The readings catalogue: global id at start-up and shutdown *)

Module Catalogue.
Import Sqlite Int.

(** What the catalogue sees of the database [readings_1]:
    the [global_id] column of [configuration_readings], row by row, and
    the [id] column of every table [readings_<k>]. *)
Record Db := mkDb {
  configuration_readings : list Z;
  readings : gmap Z (list Z)
}.

(** A connection: the database, the script of forced return codes, the
    number of calls made into the engine, the [usleep] intervals in
    microseconds (oldest first) and column 0 of the row a stepped
    statement stands on ([None] for NULL). *)
Record Conn := mkConn {
  db : Db;
  faults : list Z;
  calls : Z;
  slept : list Z;
  cursor : option Z
}.

(** Statements that are prepared and stepped. *)
Inductive Query :=
| SelectGlobalId
    (* SELECT global_id FROM readings_1.configuration_readings *)
| SelectMaxId (tables : list Z).
    (* SELECT max(id) id FROM ( SELECT max(id) id FROM readings_1.readings_<k>
       UNION ... ) AS tb *)

(** Statements run through [sqlite3_exec]; [value] is the text the source
    splices into the statement. *)
Inductive Command :=
| InsertGlobalId (value : string)
    (* INSERT INTO readings_1.configuration_readings VALUES (<value>) *)
| UpdateGlobalId (value : string).
    (* UPDATE readings_1.configuration_readings SET global_id=<value> *)

Definition set_db (d : Db) (c : Conn) : Conn :=
  mkConn d (faults c) (calls c) (slept c) (cursor c).
Definition set_cursor (v : option Z) (c : Conn) : Conn :=
  mkConn (db c) (faults c) (calls c) (slept c) v.

(** Entering the engine: one more call, one entry of the script used. *)
Definition enter (c : Conn) : Z * Conn :=
  let '(f, fs) := next_fault (faults c) in
  (f, mkConn (db c) fs (calls c + 1) (slept c) (cursor c)).

Definition usleep (interval : Z) (c : Conn) : Conn :=
  mkConn (db c) (faults c) (calls c) (slept c ++ [interval]) (cursor c).

Definition run_command (cmd : Command) (d : Db) : option Db :=
  match cmd with
  | InsertGlobalId value =>
      v ← sql_integer value;
      Some (mkDb (configuration_readings d ++ [v]) (readings d))
  | UpdateGlobalId value =>
      v ← sql_integer value;
      Some (mkDb ((fun _ => v) <$> configuration_readings d) (readings d))
  end.

Definition sqlite3_exec (cmd : Command) (c : Conn) : Z * Conn :=
  let '(f, c1) := enter c in
  if f =? SQLITE_OK then
    match run_command cmd (db c1) with
    | Some d => (SQLITE_OK, set_db d c1)
    | None => (SQLITE_ERROR, c1)
    end
  else (f, c1).

(** A statement compiles when every table it names exists. *)
Definition compiles (q : Query) (d : Db) : bool :=
  match q with
  | SelectGlobalId => true
  | SelectMaxId tables =>
      forallb (fun k => bool_decide (is_Some (readings d !! k))) tables
  end.

Definition sqlite3_prepare_v2 (q : Query) (c : Conn) : Z * Conn :=
  let '(f, c1) := enter c in
  if f =? SQLITE_OK then
    if compiles q (db c1) then (SQLITE_OK, c1) else (SQLITE_ERROR, c1)
  else (f, c1).

(** The inner SELECTs give one row per table, NULL for an empty table;
    the outer [max] skips the NULLs. *)
Definition union_max (tables : list Z) (d : Db) : option Z :=
  sql_max (omap (fun k => sql_max (default [] (readings d !! k))) tables).

Definition sqlite3_step (q : Query) (c : Conn) : Z * Conn :=
  let '(f, c1) := enter c in
  if f =? SQLITE_OK then
    match q with
    | SelectGlobalId =>
        match configuration_readings (db c1) with
        | [] => (SQLITE_DONE, c1)
        | v :: _ => (SQLITE_ROW, set_cursor (Some v) c1)
        end
    | SelectMaxId tables =>
        (SQLITE_ROW, set_cursor (union_max tables (db c1)) c1)
    end
  else (f, c1).

(** [sqlite3_column_int(stmt, 0)]: 0 for NULL, the low 32 bits otherwise. *)
Definition sqlite3_column_int (c : Conn) : Z :=
  i32 (default 0 (cursor c)).

Definition SQLexec (cmd : Command) : Conn -> Z * Conn :=
  Retry.retry (sqlite3_exec cmd) usleep.

Definition SQLStep (q : Query) : Conn -> Z * Conn :=
  Retry.retry (sqlite3_step q) usleep.

(** The members of [ReadingsCatalogue] used here.  [m_globalId] is an
    [int]; the map goes from asset code to (table id, database id). *)
Record ReadingsCatalogue := mkCatalogue {
  m_globalId : Z;
  m_AssetReadingCatalogue : gmap string (Z * Z)
}.

Definition set_globalId (g : Z) (rc : ReadingsCatalogue) : ReadingsCatalogue :=
  mkCatalogue g (m_AssetReadingCatalogue rc).

(** The tables named by the query of [calculateGlobalId]. *)
Definition catalogue_tables (rc : ReadingsCatalogue) : list Z :=
  if bool_decide (m_AssetReadingCatalogue rc = ∅)
  then [1]
  else (fun item => item.2.1) <$> map_to_list (m_AssetReadingCatalogue rc).

(** [return false] in an [int] function yields 0. *)
Definition calculateGlobalId (rc : ReadingsCatalogue) (c : Conn) : Z * Conn :=
  let q := SelectMaxId (catalogue_tables rc) in
  let '(r, c1) := sqlite3_prepare_v2 q c in
  if negb (r =? SQLITE_OK) then (0, c1)
  else
    let '(r, c2) := SQLStep q c1 in
    if negb (r =? SQLITE_ROW) then (1, c2)
    else (i32 (sqlite3_column_int c2 + 1), c2).

Definition evaluateGlobalId (rc : ReadingsCatalogue) (c : Conn)
  : bool * ReadingsCatalogue * Conn :=
  let '(r, c1) := sqlite3_prepare_v2 SelectGlobalId c in
  if negb (r =? SQLITE_OK) then (false, rc, c1)
  else
    let '(r, c2) := SQLStep SelectGlobalId c1 in
    let '(ok, rc1, c3) :=
      if negb (r =? SQLITE_ROW) then
        let rc1 := set_globalId 1 rc in
        let '(r, c3) := SQLexec (InsertGlobalId (to_string (m_globalId rc1))) c2 in
        (r =? SQLITE_OK, rc1, c3)
      else (true, set_globalId (sqlite3_column_int c2) rc, c2) in
    if negb ok then (false, rc1, c3)
    else
      let '(rc2, c4) :=
        if m_globalId rc1 =? -1 then
          let '(g, c4) := calculateGlobalId rc1 c3 in
          (set_globalId g rc1, c4)
        else (rc1, c3) in
      let '(r, c5) := SQLexec (UpdateGlobalId "-1") c4 in
      if negb (r =? SQLITE_OK) then (false, rc2, c5)
      else (true, rc2, c5).

Definition storeGlobalId (rc : ReadingsCatalogue) (c : Conn) : bool * Conn :=
  let '(r, c1) :=
    SQLexec (UpdateGlobalId ("-" +:+ to_string (m_globalId rc))) c in
  if negb (r =? SQLITE_OK) then (false, c1) else (true, c1).

(** Start of a new process on the database left by the previous one: the
    catalogue object is built anew and its map reloaded. *)
Definition restart (assets : gmap string (Z * Z)) (c : Conn) :=
  evaluateGlobalId (mkCatalogue 0 assets) c.


(** *** The retry contract *)

(** The sleeps of [k] consecutive retries, the counter standing at
    [retries] before the first: [(retries + 1) * RETRY_BACKOFF], ... *)
Definition backoff_schedule (retries : Z) (k : nat) : list Z :=
  (fun i => (retries + Z.of_nat i) * Retry.RETRY_BACKOFF) <$> seq 1 k.

(** What the loop needs to know of the call it wraps: a forced code is
    handed back as it is and costs one call, a call that runs is never
    answered BUSY or LOCKED, and no call sleeps. *)
Record engine_call (prim : Conn -> Z * Conn) : Prop := {
  call_forced : forall c f fs,
    faults c = f :: fs -> f <> SQLITE_OK ->
    prim c = (f, mkConn (db c) fs (calls c + 1) (slept c) (cursor c));
  call_runs : forall c,
    (faults c = [] \/ exists fs, faults c = SQLITE_OK :: fs) ->
    locked_or_busy (prim c).1 = false;
  call_counts : forall c, calls (prim c).2 = calls c + 1;
  call_no_sleep : forall c, slept (prim c).2 = slept c
}.

(** The contract of the executor, for either wrapped call. *)
Definition retry_contract (run : Conn -> Z * Conn) : Prop :=
  forall c : Conn,
    let rc := (run c).1 in
    let c' := (run c).2 in
    let n := calls c' - calls c in
    (* between one and MAX_RETRIES calls are made *)
    1 <= n <= Retry.MAX_RETRIES
    (* every call but the last was answered BUSY or LOCKED *)
    /\ (forall i : nat, Z.of_nat i < n - 1 ->
          exists f, faults c !! i = Some f /\ locked_or_busy f = true)
    (* after the k-th such answer the executor sleeps k * RETRY_BACKOFF *)
    /\ slept c' =
         slept c ++ backoff_schedule 0 (Z.to_nat (if locked_or_busy rc then n else n - 1))
    (* a BUSY or LOCKED status comes back only after MAX_RETRIES calls *)
    /\ (locked_or_busy rc = true -> n = Retry.MAX_RETRIES)
    (* the status handed back is the one of the last call *)
    /\ (forall f, faults c !! Z.to_nat (n - 1) = Some f -> f <> SQLITE_OK -> rc = f)
    (* any other error comes back at once: one call, no sleep *)
    /\ (forall f fs, faults c = f :: fs -> f <> SQLITE_OK -> locked_or_busy f = false ->
          rc = f /\ n = 1 /\ slept c' = slept c).

(** *** Quiet engines and the example database *)

(** The engine forces no return code. *)
Definition quiet (c : Conn) : Prop := Forall (fun f => f = SQLITE_OK) (faults c).

(** The connection after one call that met no fault. *)
Definition tick (c : Conn) : Conn :=
  mkConn (db c) (tail (faults c)) (calls c + 1) (slept c) (cursor c).

(** The database of the examples: ids 1 to 42 have been issued to the one
    asset of the catalogue, and the service is running, so the stored id
    is -1. *)
Definition example_assets : gmap string (Z * Z) := {[ "pump"%string := (1, 1) ]}.

Definition example_db (stored : Z) : Db :=
  mkDb [stored] {[ 1 := seqZ 1 42 ]}.

Definition example_conn (stored : Z) : Conn :=
  mkConn (example_db stored) [] 0 [] None.

End Catalogue.

(** ** Purge by age *)

Module Purge.
Import Sqlite Int.

Definition PURGE_DELETE_BLOCK_SIZE : Z := 20.
Definition TARGET_PURGE_BLOCK_DEL_TIME : Z := 70 * 1000.
Definition PURGE_BLOCK_SZ_GRANULARITY : Z := 5.
Definition MIN_PURGE_DELETE_BLOCK_SIZE : Z := 20.
Definition MAX_PURGE_DELETE_BLOCK_SIZE : Z := 1500.
Definition RECALC_PURGE_BLOCK_SIZE_NUM_BLOCKS : Z := 30.

(** A row of [readings_1]: its rowid (the [id] column is the INTEGER
    PRIMARY KEY, hence the rowid) and [user_ts] in seconds. *)
Record Row := mkRow { rowid : Z; user_ts : Z }.

(** What reaches the outside: a DELETE that ran, with its bound, and the
    two kinds of sleep. *)
Inductive Event :=
| Delete (bound : Z)
| SleepMs (ms : Z)
| Usleep (us : Z).

(** [result] is what the engine hands to the callback of the last
    statement: [None] when no row came back, [Some None] for a NULL
    column.  [changes] is [sqlite3_changes].  [timings] are the
    microseconds the coming DELETE blocks will be measured at, [now]
    the engine's clock in seconds.  [purgeBlockSize] is the file-level
    static of the source.  [writing] is the file-level atomic
    [m_writeAccessOngoing] as the purge sees it: the values its coming
    reads give, writers raising and lowering it in between; the last
    value of the list is read for good, and an empty list reads 0. *)
Record World := mkWorld {
  readings_1 : list Row;
  faults : list Z;
  timings : list Z;
  now : Z;
  purgeBlockSize : Z;
  events : list Event;
  result : option (option Z);
  changes : Z;
  writing : list Z
}.

(** [static int purgeBlockSize = PURGE_DELETE_BLOCK_SIZE;] *)
Definition initial_purgeBlockSize : Z := PURGE_DELETE_BLOCK_SIZE.

Inductive Statement :=
| SelectMaxRowid                  (* select max(rowid) from readings_1 *)
| SelectMinRowid                  (* select min(rowid) from readings_1 *)
| SelectOldestAge (limit : Z)
    (* SELECT (strftime('%s','now','utc') - strftime('%s', MIN(user_ts)))/360
       FROM readings_1 where rowid <= <limit> *)
| SelectOlder (m age : Z)
    (* select id from readings_1 where rowid = <m>
       AND user_ts < datetime('now', '-<age> hours') *)
| SelectId (r : Z)                (* select id from readings_1 where rowid = <r> *)
| DeleteUpTo (bound : Z).         (* DELETE FROM readings_1 WHERE rowid <= <bound> *)

Definition log (e : Event) (w : World) : World :=
  mkWorld (readings_1 w) (faults w) (timings w) (now w) (purgeBlockSize w)
          (events w ++ [e]) (result w) (changes w) (writing w).
Definition set_faults (fs : list Z) (w : World) : World :=
  mkWorld (readings_1 w) fs (timings w) (now w) (purgeBlockSize w)
          (events w) (result w) (changes w) (writing w).
Definition set_timings (ts : list Z) (w : World) : World :=
  mkWorld (readings_1 w) (faults w) ts (now w) (purgeBlockSize w)
          (events w) (result w) (changes w) (writing w).
Definition set_result (r : option (option Z)) (w : World) : World :=
  mkWorld (readings_1 w) (faults w) (timings w) (now w) (purgeBlockSize w)
          (events w) r (changes w) (writing w).
Definition set_purgeBlockSize (n : Z) (w : World) : World :=
  mkWorld (readings_1 w) (faults w) (timings w) (now w) n
          (events w) (result w) (changes w) (writing w).
Definition set_rows (rows : list Row) (n : Z) (w : World) : World :=
  mkWorld rows (faults w) (timings w) (now w) (purgeBlockSize w)
          (events w) (result w) n (writing w).
Definition set_writing (ws : list Z) (w : World) : World :=
  mkWorld (readings_1 w) (faults w) (timings w) (now w) (purgeBlockSize w)
          (events w) (result w) (changes w) ws.

Definition older (age : Z) (w : World) (x : Row) : bool :=
  user_ts x <? now w - age * 3600.

(** The effect of a statement that runs. *)
Definition run (s : Statement) (w : World) : World :=
  match s with
  | SelectMaxRowid =>
      set_result (Some (sql_max (rowid <$> readings_1 w))) w
  | SelectMinRowid =>
      set_result (Some (sql_min (rowid <$> readings_1 w))) w
  | SelectOldestAge limit =>
      let ts := user_ts <$> filter (fun x => rowid x <= limit) (readings_1 w) in
      set_result (Some ((fun t => Z.quot (now w - t) 360) <$> sql_min ts)) w
  | SelectOlder m age =>
      match filter (fun x => rowid x = m ∧ older age w x = true) (readings_1 w) with
      | [] => set_result None w
      | x :: _ => set_result (Some (Some (rowid x))) w
      end
  | SelectId r =>
      match filter (fun x => rowid x = r) (readings_1 w) with
      | [] => set_result None w
      | x :: _ => set_result (Some (Some (rowid x))) w
      end
  | DeleteUpTo bound =>
      let kept := filter (fun x => bound < rowid x) (readings_1 w) in
      log (Delete bound)
          (set_rows kept (Z.of_nat (length (readings_1 w) - length kept)) w)
  end.

Definition sqlite3_exec (s : Statement) (w : World) : Z * World :=
  let '(f, fs) := next_fault (faults w) in
  let w1 := set_faults fs w in
  if f =? SQLITE_OK then (SQLITE_OK, run s w1) else (f, w1).

(** Modelled from the spec: [Connection::SQLexec], the five-argument
    executor with a callback, is not part of this file.  It is taken to be
    the retry executor of section 4.A: retry on BUSY or LOCKED after a
    sleep of [retries * RETRY_BACKOFF], at most [MAX_RETRIES] times, any
    other status returned at once. *)
Definition SQLexec (s : Statement) : World -> Z * World :=
  Retry.retry (sqlite3_exec s) (fun us => log (Usleep us)).

(** Modelled from the spec: [rowidCallback] and [selectCallback] are not
    part of this file.  They are taken to store column 0 of the row into
    the variable they are given, 0 for NULL; when no row comes back the
    variable keeps its value [init]. *)
Definition rowidCallback (init : Z) (w : World) : Z :=
  match result w with
  | None => init
  | Some None => 0
  | Some (Some v) => u64 v
  end.

Definition selectCallback (init : Z) (w : World) : Z :=
  match result w with
  | None => init
  | Some None => 0
  | Some (Some v) => i32 v
  end.

(** The JSON object handed back through [result]. *)
Record PurgeResult := mkResult {
  removed : Z;
  unsentPurged : Z;
  unsentRetained : Z;
  readings : Z
}.

Definition nothing_purged : PurgeResult := mkResult 0 0 0 0.

(** Control: a step either goes on with a value, leaves the function with
    [return 0], or the model has run out of fuel; the world is the one
    reached so far. *)
Inductive Res (A : Type) :=
| Go (a : A) (w : World)
| Return0 (w : World)
| OutOfFuel (w : World).
Arguments Go {A} a w.
Arguments Return0 {A} w.
Arguments OutOfFuel {A} w.

Definition world_of {A} (r : Res A) : World :=
  match r with
  | Go _ w | Return0 w | OutOfFuel w => w
  end.

Definition bind {A B} (m : World -> Res A) (k : A -> World -> Res B)
  : World -> Res B :=
  fun w =>
    match m w with
    | Go a w1 => k a w1
    | Return0 w1 => Return0 w1
    | OutOfFuel w1 => OutOfFuel w1
    end.

Notation "'let*' x ':=' m 'in' k" := (bind m (fun x => k))
  (at level 10, x name, m at level 100, k at level 200).

(** [rc = SQLexec(...); if (rc != SQLITE_OK) return 0;] *)
Definition exec_or_return (s : Statement) : World -> Res unit :=
  fun w =>
    let '(rc, w1) := SQLexec s w in
    if rc =? SQLITE_OK then Go tt w1 else Return0 w1.

Definition get {A} (f : World -> A) : World -> Res A :=
  fun w => Go (f w) w.

(** The ratio of the resizing, clamped.  A zero [avg] divides to
    infinity, which the first clamp turns into 2.0. *)
Definition clamped_ratio (avg : Z) : Q :=
  if avg =? 0 then 2%Q
  else
    let ratio :=
      Float32.div (Float32.of_int TARGET_PURGE_BLOCK_DEL_TIME) (Float32.of_int avg) in
    let ratio := if Float32.ltb 2 ratio then 2%Q else ratio in
    if Float32.ltb ratio (1 # 2) then (1 # 2)%Q else ratio.

(** Lines 1648 to 1656: the new block size from the old one. *)
Definition resize (size avg : Z) : Z :=
  let size1 := Float32.to_int (Float32.mul (Float32.of_int size) (clamped_ratio avg)) in
  let size2 := Z.quot size1 PURGE_BLOCK_SZ_GRANULARITY * PURGE_BLOCK_SZ_GRANULARITY in
  let size3 :=
    if size2 <? MIN_PURGE_DELETE_BLOCK_SIZE then MIN_PURGE_DELETE_BLOCK_SIZE else size2 in
  if MAX_PURGE_DELETE_BLOCK_SIZE <? size3 then MAX_PURGE_DELETE_BLOCK_SIZE else size3.

(** The locals of the block loop. *)
Record Loop := mkLoop {
  rowidMin : Z;         (* unsigned long *)
  blocks : Z;           (* int *)
  totTime : Z;          (* unsigned int *)
  prevBlocks : Z;       (* unsigned int *)
  prevTotTime : Z;      (* unsigned int *)
  deletedRows : Z       (* unsigned int *)
}.

(** The body of [if (blocks % RECALC_PURGE_BLOCK_SIZE_NUM_BLOCKS == 0)]. *)
Definition recalculate (st : Loop) (w : World) : Loop * World :=
  let prevAvg :=
    i32 (Z.quot (prevTotTime st) (if prevBlocks st =? 0 then 1 else prevBlocks st)) in
  let currAvg :=
    i32 (Z.quot (u32 (totTime st - prevTotTime st)) (u32 (blocks st - prevBlocks st))) in
  let avg :=
    Z.quot (i32 (i32 ((if prevAvg =? 0 then currAvg else prevAvg) * 5) + i32 (currAvg * 5)))
           10 in
  let st1 :=
    mkLoop (rowidMin st) (blocks st) (totTime st) (u32 (blocks st)) (totTime st)
           (deletedRows st) in
  let deviation := Z.abs (avg - TARGET_PURGE_BLOCK_DEL_TIME) in
  let w1 :=
    if Z.quot TARGET_PURGE_BLOCK_DEL_TIME 10 <? deviation
    then set_purgeBlockSize (resize (purgeBlockSize w) avg) w
    else w in
  (st1, log (SleepMs 100) w1).

(** The time the coming block is going to be measured at. *)
Definition measure (w : World) : Z * World :=
  match timings w with
  | [] => (0, w)
  | t :: ts => (t, set_timings ts w)
  end.

(** [while (rowidMin < rowidLimit) { ... }] *)
Fixpoint delete_blocks (fuel : nat) (rowidLimit : Z) (st : Loop) (w : World)
  : Res Loop :=
  match fuel with
  | O => OutOfFuel w
  | S fuel' =>
      if negb (rowidMin st <? rowidLimit) then Go st w
      else
        let blocks1 := i32 (blocks st + 1) in
        let rowidMin1 := u64 (rowidMin st + purgeBlockSize w) in
        let rowidMin2 := if rowidLimit <? rowidMin1 then rowidLimit else rowidMin1 in
        let '(usecs, w1) := measure w in
        let '(rc, w2) := SQLexec (DeleteUpTo rowidMin2) w1 in
        let totTime1 := u32 (totTime st + usecs) in
        let w3 :=
          if 150000 <? usecs then log (SleepMs (100 + Z.quot usecs 10000)) w2 else w2 in
        if negb (rc =? SQLITE_OK) then Return0 w3
        else
          let st1 :=
            mkLoop rowidMin2 blocks1 totTime1 (prevBlocks st) (prevTotTime st)
                   (u32 (deletedRows st + changes w3)) in
          let '(st2, w4) :=
            if Z.rem blocks1 RECALC_PURGE_BLOCK_SIZE_NUM_BLOCKS =? 0
            then recalculate st1 w3
            else (st1, w3) in
          delete_blocks fuel' rowidLimit st2 w4
  end.

(** [while (l <= r) { ... }], the search for the last row older than
    [age] hours; yields the final [m]. *)
Fixpoint refine (fuel : nat) (age l r m : Z) (w : World) : Res Z :=
  match fuel with
  | O => OutOfFuel w
  | S fuel' =>
      if negb (l <=? r) then Go m w
      else
        let prev_m := m in
        let m1 := u64 (l + Z.quot (u64 (r - l)) 2) in
        if prev_m =? m1 then Go m1 w
        else
          let '(rc, w1) := SQLexec (SelectOlder m1 age) w in
          if negb (rc =? SQLITE_OK) then Return0 w1
          else
            let midRowId := rowidCallback 0 w1 in
            if midRowId =? 0
            then let r1 := u64 (m1 - 1) in refine fuel' age l r1 r1 w1
            else refine fuel' age (u64 (m1 + 1)) r m1 w1
  end.

(** The ceiling the search starts from (line 1472 and 1473). *)
Definition search_ceiling (flags sent rowidLimit l : Z) : Z :=
  let r :=
    if negb (Z.land flags 1 =? 0) && negb (sent =? 0)
    then Z.min sent rowidLimit
    else rowidLimit in
  Z.max r l.

(** One read of [m_writeAccessOngoing]. *)
Definition read_writeAccessOngoing (w : World) : Z * World :=
  match writing w with
  | [] => (0, w)
  | [n] => (n, w)
  | n :: rest => (n, set_writing rest w)
  end.

(** [while (m_writeAccessOngoing) { sleep_for(milliseconds(100)); }] *)
Fixpoint wait_while_writing (fuel : nat) (w : World) : Res unit :=
  match fuel with
  | O => OutOfFuel w
  | S fuel' =>
      let '(n, w1) := read_writeAccessOngoing w in
      if n =? 0 then Go tt w1
      else wait_while_writing fuel' (log (SleepMs 100) w1)
  end.

(** [if (m_writeAccessOngoing) { while (m_writeAccessOngoing) ... }] *)
Definition wait_for_writers (fuel : nat) (w : World) : Res unit :=
  let '(n, w1) := read_writeAccessOngoing w in
  if n =? 0 then Go tt w1 else wait_while_writing fuel w1.

Definition purgeReadings (fuel : nat) (age flags sent : Z)
  : World -> Res (Z * PurgeResult) :=
  let* _ := exec_or_return SelectMaxRowid in
  let* rowidLimit := get (rowidCallback 0) in
  let maxrowidLimit := rowidLimit in
  let* _ := exec_or_return SelectMinRowid in
  let* minrowidLimit := get (rowidCallback 0) in
  let* age1 := (if age =? 0
          then let* _ := exec_or_return (SelectOldestAge rowidLimit) in
               let* purge_readings := get (selectCallback 0) in
               get (fun _ => u64 purge_readings)
          else get (fun _ => age)) in
  let l := minrowidLimit in
  let r := search_ceiling flags sent rowidLimit l in
  if l =? r then Return0
  else
    let* m := refine fuel age1 l r l in
    let rowidLimit := m in
    if minrowidLimit =? rowidLimit then Return0
    else
      let rowidMin := minrowidLimit in
      let* unsentPurged0 :=
        (if Z.land flags 1 =? 0
         then let* _ := exec_or_return (SelectId rowidLimit) in
              let* lastPurgedId := get (fun w => i32 (rowidCallback 0 w)) in
              get (fun _ =>
                     if negb (sent =? 0) && (sent <? u64 lastPurgedId)
                     then i32 (u64 (rowidLimit - sent))
                     else 0)
         else get (fun _ => 0)) in
      let* _ := wait_for_writers fuel in
      let* st := delete_blocks fuel rowidLimit (mkLoop rowidMin 0 0 0 0 0) in
      let unsentRetained := i64 (u64 (maxrowidLimit - rowidLimit)) in
      let numReadings :=
        i64 (u64 (maxrowidLimit + 1 - minrowidLimit - deletedRows st)) in
      let unsentPurged1 := if sent =? 0 then deletedRows st else unsentPurged0 in
      get (fun _ =>
             (deletedRows st,
              mkResult (deletedRows st) unsentPurged1 unsentRetained numReadings)).

(** *** Invariants of a purge *)

Definition in_range (n : Z) : Prop :=
  MIN_PURGE_DELETE_BLOCK_SIZE <= n <= MAX_PURGE_DELETE_BLOCK_SIZE.

(** [triple P m Q E]: from a world in [P], [m] goes on in [Q], or leaves
    (by [return 0] or for lack of fuel) in [E]. *)
Definition triple {A} (P : World -> Prop) (m : World -> Res A)
           (Q : A -> World -> Prop) (E : World -> Prop) : Prop :=
  forall w, P w ->
    match m w with
    | Go a w' => Q a w'
    | Return0 w' | OutOfFuel w' => E w'
    end.

Record stable (I : World -> Prop) : Prop := {
  stable_faults : forall fs w, I w -> I (set_faults fs w);
  stable_timings : forall ts w, I w -> I (set_timings ts w);
  stable_result : forall r w, I w -> I (set_result r w);
  stable_usleep : forall us w, I w -> I (log (Usleep us) w);
  stable_sleep : forall ms w, I w -> I (log (SleepMs ms) w);
  stable_writing : forall ws w, I w -> I (set_writing ws w)
}.

Definition is_select (s : Statement) : Prop :=
  match s with DeleteUpTo _ => False | _ => True end.

(** The table of the examples: rowids 1 to [n], the row of rowid [i]
    stamped at hour [i].  The clock stands at hour 2000, no engine call
    is forced to fail, the first 100 blocks take [us] microseconds
    each and no writer is active. *)
Definition example_rows (n : Z) : list Row :=
  (fun i => mkRow i (i * 3600)) <$> seqZ 1 n.

Definition example_world (n : Z) (us : Z) : World :=
  mkWorld (example_rows n) [] (replicate 100 us) (2000 * 3600)
          initial_purgeBlockSize [] None 0 [].

(** A table whose lowest rowid is 0: rows 0 to 6 are stamped now, rows 7
    to 10 at hour 0. *)
Definition example_world_rowid_0 : World :=
  mkWorld ((fun i => mkRow i (if i <? 7 then 2000 * 3600 else 0)) <$> seqZ 0 11)
          [] [] (2000 * 3600) initial_purgeBlockSize [] None 0 [].

(** The highest and lowest rowid of the table as the purge found it;
    0 stands for an empty table, as in [rowidCallback]. *)
Definition snapshot_max (w0 : World) : Z := default 0 (sql_max (rowid <$> readings_1 w0)).
Definition snapshot_min (w0 : World) : Z := default 0 (sql_min (rowid <$> readings_1 w0)).

(** Nothing has been deleted since [w0]. *)
Definition untouched (w0 w : World) : Prop :=
  readings_1 w = readings_1 w0
  /\ exists evs, events w = events w0 ++ evs /\ forall b, Delete b ∉ evs.

(** Every DELETE since [w0] had a bound of at most [B], and the rows
    above [B] are those of [w0]. *)
Definition spared (w0 : World) (B : Z) (w : World) : Prop :=
  filter (fun x => B < rowid x) (readings_1 w)
  = filter (fun x => B < rowid x) (readings_1 w0)
  /\ exists evs, events w = events w0 ++ evs /\ forall b, Delete b ∈ evs -> b <= B.

(** The ceiling of the search when unsent rows are kept. *)
Definition ceiling (w0 : World) (sent : Z) : Z := Z.min sent (snapshot_max w0).

End Purge.

(** ** The two INSERT paths: [appendReadings] and [readingStream] *)

Module Insert.
Import Sqlite Int.

Definition PREP_CMD_MAX_RETRIES : Z := 20.
Definition PREP_CMD_RETRY_BASE : Z := 5000.
Definition PREP_CMD_RETRY_BACKOFF : Z := 5000.

(** An element of the [readings] array that is an object; its three
    members are present and of the expected JSON type. *)
Record Reading := mkReading {
  asset_code : string;
  user_ts : string;
  reading : string
}.

Inductive Element :=
| NotAnObject
| Object (r : Reading).

(** What [doc.Parse] and the three checks after it can meet. *)
Inductive Document :=
| ParseError
| NoReadingsMember
| ReadingsNotArray
| ReadingsArray (elements : list Element).

(** A bound prepared INSERT: the target table [readings_<table>], the id
    bound by [appendReadings] (none in [readingStream], where the table
    assigns it), and the values. *)
Record Insertion := mkInsertion {
  table : Z;
  id : option Z;
  asset : string;
  ts : string;
  payload : string
}.

Inductive Command :=
| Begin       (* BEGIN TRANSACTION *)
| End_        (* END TRANSACTION *)
| Rollback    (* ROLLBACK TRANSACTION *)
| InsertCatalogueRow (table_id db_id : Z) (asset : string).
    (* INSERT INTO readings_1.asset_reading_catalogue
       (table_id, db_id, asset_code) VALUES (...) *)

(** Every call into the engine with the code it gave back, and every
    sleep. *)
Inductive Event :=
| Exec (cmd : Command) (rc : Z)
| Prepare (table : Z) (rc : Z)
| Step (ins : Insertion) (rc : Z)
| SleepMs (ms : Z)
| Usleep (us : Z).

(** The catalogue singleton as far as the INSERT path touches it. *)
Record Catalogue := mkCatalogue {
  m_globalId : Z;
  m_AssetReadingCatalogue : gmap string (Z * Z);
  m_dbId : Z;
  m_nReadingsAvailable : Z;
  m_nReadingsUsed : Z;
  nReadingsAllocate : Z
}.

(** A connection: the script of forced return codes, the values the
    coming calls of [random()] give, the log, the catalogue and the
    string [getNow] produces. *)
Record Conn := mkConn {
  faults : list Z;
  randoms : list Z;
  events : list Event;
  cat : Catalogue;
  now : string
}.

Definition log (e : Event) (c : Conn) : Conn :=
  mkConn (faults c) (randoms c) (events c ++ [e]) (cat c) (now c).
Definition set_cat (k : Catalogue) (c : Conn) : Conn :=
  mkConn (faults c) (randoms c) (events c) k (now c).

Definition enter (c : Conn) : Z * Conn :=
  let '(f, fs) := next_fault (faults c) in
  (f, mkConn fs (randoms c) (events c) (cat c) (now c)).

Definition sqlite3_exec (cmd : Command) (c : Conn) : Z * Conn :=
  let '(f, c1) := enter c in (f, log (Exec cmd f) c1).

Definition sqlite3_prepare_v2 (t : Z) (c : Conn) : Z * Conn :=
  let '(f, c1) := enter c in (f, log (Prepare t f) c1).

(** A step of an INSERT that meets no fault is done. *)
Definition sqlite3_step (ins : Insertion) (c : Conn) : Z * Conn :=
  let '(f, c1) := enter c in
  let rc := if f =? SQLITE_OK then SQLITE_DONE else f in
  (rc, log (Step ins rc) c1).

(** [random()]: a value in [0, 2^31). *)
Definition random (c : Conn) : Z * Conn :=
  match randoms c with
  | [] => (0, c)
  | x :: xs => (x mod 2 ^ 31, mkConn (faults c) xs (events c) (cat c) (now c))
  end.

(** [ReadingsCatalogue::SQLexec] on this connection. *)
Definition SQLexec (cmd : Command) : Conn -> Z * Conn :=
  Retry.retry (sqlite3_exec cmd) (fun us => log (Usleep us)).

(** Modelled from the spec: [getGlobalId] is declared in a header that is
    not part of this file.  "Next ID.  Return and atomically increment
    the in-memory global ID on every insert." *)
Definition getGlobalId (c : Conn) : Z * Conn :=
  let k := cat c in
  (m_globalId k,
   set_cat (mkCatalogue (i32 (m_globalId k + 1)) (m_AssetReadingCatalogue k) (m_dbId k)
                        (m_nReadingsAvailable k) (m_nReadingsUsed k)
                        (nReadingsAllocate k)) c).

Definition getMaxReadingsId (k : Catalogue) : Z :=
  foldr (fun item maxId => if maxId <? item.2.1 then item.2.1 else maxId) 0
        (map_to_list (m_AssetReadingCatalogue k)).

Definition isReadingAvailable (k : Catalogue) : bool :=
  negb (m_nReadingsAvailable k <=? 0).

(** Of [createReadingsTablesNewDB] only the bookkeeping is kept: the next
    database id and a fresh stock of tables.  The file, its attachment
    and the CREATE TABLE statements go through other connections. *)
Definition createReadingsTablesNewDB (k : Catalogue) : Catalogue :=
  mkCatalogue (m_globalId k) (m_AssetReadingCatalogue k) (i32 (m_dbId k + 1))
              (nReadingsAllocate k) (m_nReadingsUsed k) (nReadingsAllocate k).

Definition allocateReadingAvailable (k : Catalogue) : Catalogue :=
  mkCatalogue (m_globalId k) (m_AssetReadingCatalogue k) (m_dbId k)
              (i32 (m_nReadingsAvailable k - 1)) (i32 (m_nReadingsUsed k + 1))
              (nReadingsAllocate k).

Definition getReadingReference (asset_code : string) (c : Conn) : Z * Conn :=
  match m_AssetReadingCatalogue (cat c) !! asset_code with
  | Some item => (item.1, c)
  | None =>
      let k := cat c in
      let k1 := if isReadingAvailable k then k else createReadingsTablesNewDB k in
      let readingsId := i32 (getMaxReadingsId k1 + 1) in
      let k2 :=
        mkCatalogue (m_globalId k1)
                    (<[asset_code := (readingsId, m_dbId k1)]> (m_AssetReadingCatalogue k1))
                    (m_dbId k1) (m_nReadingsAvailable k1) (m_nReadingsUsed k1)
                    (nReadingsAllocate k1) in
      let '(_, c1) :=
        SQLexec (InsertCatalogueRow readingsId (m_dbId k1) asset_code) (set_cat k2 c) in
      (readingsId, set_cat (allocateReadingAvailable (cat c1)) c1)
  end.

(** [sleep_time_ms = PREP_CMD_RETRY_BASE + (random() % PREP_CMD_RETRY_BACKOFF);
    retries++; sleep_for(milliseconds(sleep_time_ms));] *)
Definition back_off (retries : Z) (c : Conn) : Z * Conn :=
  let '(x, c1) := random c in
  let sleep_time_ms := PREP_CMD_RETRY_BASE + Z.rem x PREP_CMD_RETRY_BACKOFF in
  (retries + 1, log (SleepMs sleep_time_ms) c1).

(** [if (sqlite3_resut == <status>) { ... back off ... }] *)
Definition back_off_if (rc status : Z) (rs : Z * Conn) : Z * Conn :=
  if rc =? status then back_off rs.1 rs.2 else rs.

(** The [do { ... } while] around [sqlite3_step] of a prepared INSERT:
    the step, the test for LOCKED, the test for BUSY, the loop test. *)
Fixpoint step_loop (fuel : nat) (ins : Insertion) (retries : Z) (c : Conn)
  : option (Z * Conn) :=
  match fuel with
  | O => None
  | S fuel' =>
      let '(rc, c1) := sqlite3_step ins c in
      let '(retries', c2) :=
        back_off_if rc SQLITE_BUSY (back_off_if rc SQLITE_LOCKED (retries, c1)) in
      if (retries' <? PREP_CMD_MAX_RETRIES) && locked_or_busy rc
      then step_loop fuel' ins retries' c2
      else Some (rc, c2)
  end.

(** The loop entered with [retries = 0]; [PREP_CMD_MAX_RETRIES] passes
    always suffice, the [None] branch is never taken. *)
Definition step_with_retry (ins : Insertion) (c : Conn) : Z * Conn :=
  match step_loop (Z.to_nat PREP_CMD_MAX_RETRIES) ins 0 c with
  | Some r => r
  | None => (SQLITE_ERROR, c)
  end.

Section WithFormatDate.

(** [formatDate] lives in another file of the plugin; it yields the
    normalised date, or fails. *)
Variable formatDate : string -> option string.

(** The handling of [user_ts]: the date to bind, or [add_row = false]. *)
Definition date_to_bind (user_ts : string) (c : Conn) : option string :=
  if String.eqb user_ts "now()" then Some (now c) else formatDate user_ts.

(** The locals of [appendReadings] that live across iterations.  [row]
    goes up by one per array element at most and is kept unbounded: a
    document would need 2^31 readings for the [int] to wrap.
    [readingsStmt], a vector of statement pointers indexed by table id
    and grown on demand, is kept as the set of indices whose entry is not
    null.  [stmt] is read before it is ever assigned when the first asset
    code is the empty string; it is taken to be null then. *)
Record Locals := mkLocals {
  row : Z;
  lastAsset : string;
  stmt : option Z;
  readingsStmt : gset Z
}.

(** [if (lastAsset.compare(asset_code) != 0) { ... }] *)
Definition select_statement (asset_code : string) (loc : Locals) (c : Conn)
  : Locals * Conn :=
  if String.eqb (lastAsset loc) asset_code then (loc, c)
  else
    let '(readingsId, c1) := getReadingReference asset_code c in
    let '(prepared, c2) :=
      if bool_decide (readingsId ∈ readingsStmt loc) then (readingsStmt loc, c1)
      else
        let '(rc, c2) := sqlite3_prepare_v2 readingsId c1 in
        (if rc =? SQLITE_OK then {[readingsId]} ∪ readingsStmt loc
         else readingsStmt loc, c2) in
    (mkLocals (row loc) asset_code
              (if bool_decide (readingsId ∈ prepared) then Some readingsId else None)
              prepared,
     c2).

(** The [for] loop over the array; [None] stands for [return -1]. *)
Fixpoint append_loop (elements : list Element) (loc : Locals) (c : Conn)
  : option Locals * Conn :=
  match elements with
  | [] => (Some loc, c)
  | NotAnObject :: _ =>
      let '(_, c1) := sqlite3_exec Rollback c in (None, c1)
  | Object r :: rest =>
      match date_to_bind (user_ts r) c with
      | None => append_loop rest loc c
      | Some date =>
          let '(loc1, c1) := select_statement (asset_code r) loc c in
          match stmt loc1 with
          | None => append_loop rest loc1 c1
          | Some t =>
              let '(g, c2) := getGlobalId c1 in
              let ins := mkInsertion t (Some g) (asset_code r) date (reading r) in
              let '(rc, c3) := step_with_retry ins c2 in
              if rc =? SQLITE_DONE
              then append_loop rest
                     (mkLocals (row loc1 + 1) (lastAsset loc1) (stmt loc1)
                               (readingsStmt loc1)) c3
              else let '(_, c4) := sqlite3_exec Rollback c3 in (None, c4)
          end
      end
  end.

Definition appendReadings (doc : Document) (c : Conn) : Z * Conn :=
  match doc with
  | ParseError | NoReadingsMember | ReadingsNotArray => (-1, c)
  | ReadingsArray elements =>
      let '(_, c1) := sqlite3_exec Begin c in
      match append_loop elements (mkLocals 0 "" None ∅) c1 with
      | (None, c2) => (-1, c2)
      | (Some loc, c2) =>
          let '(rc, c3) := sqlite3_exec End_ c2 in
          (if negb (rc =? SQLITE_OK) then -1 else row loc, c3)
      end
  end.

(** An entry of the stream.  [userTs] is the text that [gmtime_r],
    [strftime] and [snprintf] make of the entry's [timeval]. *)
Record ReadingStream := mkStream {
  userTs : string;
  assetCode : string;
  streamPayload : string
}.

(** [for (i = 0; readings[i]; i++) { ... }]; yields the final
    [rowNumber] and [i], or [None] for [return -1]. *)
Fixpoint stream_loop (readings : list ReadingStream) (i rowNumber : Z) (c : Conn)
  : option (Z * Z) * Conn :=
  match readings with
  | [] => (Some (i, rowNumber), c)
  | e :: rest =>
      match date_to_bind (userTs e) c with
      | None => stream_loop rest (i + 1) rowNumber c
      | Some date =>
          let ins := mkInsertion 1 None (assetCode e) date (streamPayload e) in
          let '(rc, c1) := step_with_retry ins c in
          if rc =? SQLITE_DONE
          then stream_loop rest (i + 1) (rowNumber + 1) c1
          else let '(_, c2) := sqlite3_exec Rollback c1 in (None, c2)
      end
  end.

(** The [commit] argument is overridden with [true] on entry. *)
Definition readingStream (readings : list ReadingStream) (c : Conn) : Z * Conn :=
  let '(rc, c1) := sqlite3_prepare_v2 1 c in
  if negb (rc =? SQLITE_OK) then (-1, c1)
  else
    let '(rc, c2) := sqlite3_exec Begin c1 in
    if negb (rc =? SQLITE_OK) then (-1, c2)
    else
      match stream_loop readings 0 (-1) c2 with
      | (None, c3) => (-1, c3)
      | (Some (i, _), c3) =>
          let rowNumber := i in
          let '(rc, c4) := sqlite3_exec End_ c3 in
          (if negb (rc =? SQLITE_OK) then -1 else rowNumber, c4)
      end.

End WithFormatDate.

(** Rows the engine reported as inserted. *)
Definition is_done (e : Event) : bool :=
  match e with
  | Step _ rc => rc =? SQLITE_DONE
  | _ => false
  end.

Definition inserted (evs : list Event) : Z :=
  Z.of_nat (length (List.filter is_done evs)).

(** The commands that open or close a transaction. *)
Definition is_txn (e : Event) : bool :=
  match e with
  | Exec Begin _ | Exec End_ _ | Exec Rollback _ => true
  | _ => false
  end.

(** *** Traces of an insertion *)

(** The sleep of the prepared-INSERT retry, in milliseconds. *)
Definition prep_sleep (ms : Z) : Prop :=
  PREP_CMD_RETRY_BASE <= ms < PREP_CMD_RETRY_BASE + PREP_CMD_RETRY_BACKOFF.

(** Events of the catalogue lookup and of [sqlite3_prepare_v2]. *)
Definition lookup_event (e : Event) : Prop :=
  match e with
  | Exec (InsertCatalogueRow _ _ _) _ | Prepare _ _ | Usleep _ => True
  | _ => False
  end.

(** Events of one prepared INSERT that ends with status [rc]. *)
Definition retry_event (ins : Insertion) (rc : Z) (e : Event) : Prop :=
  match e with
  | Step i r => i = ins /\ (locked_or_busy r = true \/ r = rc)
  | SleepMs ms => prep_sleep ms
  | _ => False
  end.

(** Events between the opening and the closing of the transaction. *)
Definition body_event (e : Event) : Prop :=
  match e with
  | Exec (InsertCatalogueRow _ _ _) _ | Prepare _ _ | Usleep _ | Step _ _ => True
  | SleepMs ms => prep_sleep ms
  | Exec _ _ => False
  end.

(** The same, when every INSERT went through. *)
Definition good_event (e : Event) : Prop :=
  match e with
  | Exec (InsertCatalogueRow _ _ _) _ | Prepare _ _ | Usleep _ => True
  | Step _ rc => locked_or_busy rc = true \/ rc = SQLITE_DONE
  | SleepMs ms => prep_sleep ms
  | Exec _ _ => False
  end.

(** *** The shape of a batch *)

(** A step answered BUSY or LOCKED, and the sleep that follows it. *)
Definition retried (ins : Insertion) (p : Z * Z) : list Event :=
  [Step ins p.1; SleepMs p.2].

(** The events of one prepared INSERT that ends with status [rc]: the
    steps answered BUSY or LOCKED, each with its sleep, and then the step
    that ends the loop on another status, after fewer than
    [PREP_CMD_MAX_RETRIES] retries; or, with no further step,
    [PREP_CMD_MAX_RETRIES] retried steps, [rc] being what the last of
    them was answered. *)
Definition insert_attempt (ins : Insertion) (rc : Z) (evs : list Event) : Prop :=
  exists (busy : list (Z * Z)) (final : list Event),
    evs = flat_map (retried ins) busy ++ final
    /\ Forall (fun p => locked_or_busy p.1 = true /\ prep_sleep p.2) busy
    /\ ((final = [Step ins rc] /\ locked_or_busy rc = false
         /\ Z.of_nat (length busy) < PREP_CMD_MAX_RETRIES)
        \/ (final = [] /\ Z.of_nat (length busy) = PREP_CMD_MAX_RETRIES
            /\ exists ms, last busy = Some (rc, ms))).

(** The body of a batch: events of the catalogue lookup, and prepared
    INSERTs; [rcs] lists the status each INSERT ended on, in order. *)
Inductive inserts : list Event -> list Z -> Prop :=
| inserts_nil : inserts [] []
| inserts_lookup e evs rcs :
    lookup_event e -> inserts evs rcs -> inserts (e :: evs) rcs
| inserts_attempt ins rc att evs rcs :
    insert_attempt ins rc att -> inserts evs rcs -> inserts (att ++ evs) (rc :: rcs).

Definition all_done (rcs : list Z) : Prop := Forall (fun rc => rc = SQLITE_DONE) rcs.

(** A body that an INSERT cut short: lookups and INSERTs that were all
    done, then one INSERT that ended on another status, and nothing
    after it. *)
Definition failed_insert (body : list Event) : Prop :=
  exists pre done ins rc att,
    body = pre ++ att
    /\ inserts pre done /\ all_done done
    /\ insert_attempt ins rc att /\ rc <> SQLITE_DONE.

(** Every step answered BUSY or LOCKED is directly followed by a sleep
    of [PREP_CMD_RETRY_BASE] plus a jitter below
    [PREP_CMD_RETRY_BACKOFF]. *)
Fixpoint sleeps_follow (evs : list Event) : Prop :=
  match evs with
  | [] => True
  | Step _ rc :: rest =>
      (locked_or_busy rc = true ->
       match rest with
       | SleepMs ms :: _ => prep_sleep ms
       | _ => False
       end)
      /\ sleeps_follow rest
  | _ :: rest => sleeps_follow rest
  end.

(** [c'] comes after [c]: same clock string, and the events added all
    satisfy [P]. *)
Definition grows (P : Event -> Prop) (c c' : Conn) : Prop :=
  now c' = now c /\ exists evs, events c' = events c ++ evs /\ Forall P evs.

Definition is_step (e : Event) : bool :=
  match e with Step _ _ => true | _ => false end.

Definition is_sleep (e : Event) : bool :=
  match e with SleepMs _ => true | _ => false end.

Definition steps (evs : list Event) : Z := Z.of_nat (length (List.filter is_step evs)).

Definition sleeps (evs : list Event) : Z := Z.of_nat (length (List.filter is_sleep evs)).

(** Every step of the log is a step of one of the INSERTs of a body:
    nothing before or after the body is a step. *)
Definition steps_in_inserts (evs : list Event) : Prop :=
  exists pre body post rcs,
    evs = pre ++ body ++ post /\ steps pre = 0 /\ steps post = 0 /\ inserts body rcs.


(** A validator for the examples: a date has a four-digit year and at
    least 19 characters. *)
Definition example_formatDate (s : string) : option string :=
  match String.get 4 s with
  | Some "-"%char => if (String.length s <? 19)%nat then None else Some s
  | _ => None
  end.

Definition example_connection (faults : list Z) : Conn :=
  mkConn faults [2345; 14999] [] (mkCatalogue 1 ∅ 1 5 0 5) "2024-01-01 00:00:00.000000".

Definition example_reading (asset ts : string) : Element :=
  Object (mkReading asset ts "{}").

End Insert.

(** ** The ingest worker: resend queue and statistics *)

Module Ingest.
Import Int.

Record Reading := mkReading {
  assetName : string;
  datapoints : string
}.

(** The members of [Ingest] used by the resend loop and by
    [updateStats].  [storage] scripts the coming answers of
    [m_storage.readingAppend] ([true] once exhausted);
    [assetTrackingCache] stands for the cache of the asset tracker, keyed
    by asset name (service, plugin and event are fixed). *)
Record Ingest := mkIngest {
  m_resendQueues : list (list Reading);
  m_failCnt : Z;
  m_storageFailed : bool;
  m_storesFailed : Z;
  m_discardedReadings : Z;
  statsPendingEntries : gmap string Z;
  statsDbEntriesCache : gset string;
  assetTrackingCache : gset string;
  storage : list bool
}.

Definition readingAppend (s : Ingest) : bool * Ingest :=
  match storage s with
  | [] => (true, s)
  | ok :: rest =>
      (ok, mkIngest (m_resendQueues s) (m_failCnt s) (m_storageFailed s)
                    (m_storesFailed s) (m_discardedReadings s) (statsPendingEntries s)
                    (statsDbEntriesCache s) (assetTrackingCache s) rest)
  end.

(** Modelled from the spec: [logDiscardedStat] is declared in a header
    that is not part of this file.  A dropped reading is "counted as
    DISCARDED": the counter [m_discardedReadings], which [updateStats]
    adds to the DISCARDED row, goes up by one. *)
Definition logDiscardedStat (discarded : Z) : Z := discarded + 1.

(** [for (int cnt = 5; cnt > 0 && q->size() > 0; cnt--)]: erase the front
    reading and count it. *)
Fixpoint remove_front (cnt : nat) (q : list Reading) (discarded : Z)
  : list Reading * Z :=
  match cnt, q with
  | S cnt', _ :: q' => remove_front cnt' q' (logDiscardedStat discarded)
  | _, _ => (q, discarded)
  end.

(** The per-asset counts of one queue, as the loop with [lastAsset] and
    [lastStat] builds them. *)
Fixpoint count_assets (q : list Reading) (lastAsset : string)
         (lastStat : option string) (stats : gmap string Z) (tracked : gset string)
  : gmap string Z * gset string :=
  match q with
  | [] => (stats, tracked)
  | r :: q' =>
      if negb (String.eqb lastAsset (assetName r)) then
        count_assets q' (assetName r) (Some (assetName r))
          (<[assetName r := i32 (default 0 (stats !! assetName r) + 1)]> stats)
          ({[assetName r]} ∪ tracked)
      else
        match lastStat with
        | Some a =>
            count_assets q' lastAsset lastStat
              (<[a := i32 (default 0 (stats !! a) + 1)]> stats) tracked
        | None => count_assets q' lastAsset lastStat stats tracked
        end
  end.

(** [for (auto &it : statsEntriesCurrQueue)
       statsPendingEntries[it.first] += it.second;] *)
Definition add_pending (stats pending : gmap string Z) : gmap string Z :=
  foldr (fun it acc => <[it.1 := i32 (default 0 (acc !! it.1) + it.2)]> acc)
        pending (map_to_list stats).

(** The branch taken when a queue has been stored. *)
Definition stored (q : list Reading) (queues : list (list Reading)) (s : Ingest)
  : Ingest :=
  let '(stats, tracked) := count_assets q "" None ∅ (assetTrackingCache s) in
  mkIngest queues 0 false
           (if m_storageFailed s then 0 else m_storesFailed s)
           (m_discardedReadings s)
           (add_pending stats (statsPendingEntries s))
           (statsDbEntriesCache s) tracked (storage s).

(** One pass of the body of [while (m_resendQueues.size() > 0)]. *)
Definition resend_once (s : Ingest) : Ingest :=
  match m_resendQueues s with
  | [] => s
  | q :: rest =>
      let '(ok, s1) := readingAppend s in
      if negb ok then
        let failCnt := i32 (m_failCnt s1 + 1) in
        let storesFailed := i32 (m_storesFailed s1 + 1) in
        if 5 <? failCnt then
          let '(q', discarded) := remove_front 5 q (m_discardedReadings s1) in
          mkIngest (if bool_decide (q' = []) then rest else q' :: rest)
                   0 true storesFailed discarded (statsPendingEntries s1)
                   (statsDbEntriesCache s1) (assetTrackingCache s1) (storage s1)
        else
          mkIngest (q :: rest) failCnt true storesFailed (m_discardedReadings s1)
                   (statsPendingEntries s1) (statsDbEntriesCache s1)
                   (assetTrackingCache s1) (storage s1)
      else stored q rest s1
  end.

(** [while (m_resendQueues.size() > 0) { ... }] *)
Fixpoint resend (fuel : nat) (s : Ingest) : option Ingest :=
  match m_resendQueues s with
  | [] => Some s
  | _ :: _ =>
      match fuel with
      | O => None
      | S fuel' => resend fuel' (resend_once s)
      end
  end.

(** Lines 3172 to 3226: the queue [m_data], as it comes out of the filter
    pipeline, is handed to the storage layer. *)
Definition send (m_data : list Reading) (s : Ingest) : Ingest :=
  match m_data with
  | [] => s
  | _ :: _ =>
      let '(ok, s1) := readingAppend s in
      if negb ok then
        mkIngest (m_resendQueues s1 ++ [m_data]) 1 true (i32 (m_storesFailed s1 + 1))
                 (m_discardedReadings s1) (statsPendingEntries s1)
                 (statsDbEntriesCache s1) (assetTrackingCache s1) (storage s1)
      else stored m_data (m_resendQueues s1) s1
  end.

(** One turn of the [do { ... } while] of [processQueue] for the queue
    [m_data] picked up in that turn; the filter pipeline and the latency
    check are left out. *)
Definition processQueue (fuel : nat) (m_data : list Reading) (s : Ingest)
  : option Ingest :=
  send m_data <$> resend fuel s.

Definition toupper (c : ascii) : ascii :=
  let n := nat_of_ascii c in
  if (97 <=? n)%nat && (n <=? 122)%nat then ascii_of_nat (n - 32) else c.

Fixpoint upper (key : string) : string :=
  match key with
  | EmptyString => EmptyString
  | String c rest => String (toupper c) (upper rest)
  end.

(** The [for] loop over [statsPendingEntries]: the rows to update, the
    running total and the cache of keys known to exist.  A update is a
    key with the amount added to its [value]. *)
Fixpoint asset_updates (entries : list (string * Z)) (cache : gset string)
         (statsUpdates : list (string * Z)) (readings : Z)
  : list (string * Z) * Z * gset string :=
  match entries with
  | [] => (statsUpdates, readings, cache)
  | it :: rest =>
      let cache1 := {[it.1]} ∪ cache in
      if negb (it.2 =? 0)
      then asset_updates rest cache1 (statsUpdates ++ [(upper it.1, it.2)])
                         (i32 (readings + it.2))
      else asset_updates rest cache1 statsUpdates readings
  end.

(** [updateStats] once the condition variable has been signalled.  [rv] is
    what [m_storage.updateTable] answers, [None] when it throws.  The
    first component is the batch handed to [updateTable], [None] when the
    function returns before it.  The per-asset rows come in the order in
    which the map is enumerated. *)
Definition updateStats (rv : option Z) (s : Ingest)
  : option (list (string * Z)) * Ingest :=
  if bool_decide (statsPendingEntries s = ∅) then (None, s)
  else
    let '(statsUpdates, readings, cache) :=
      asset_updates (map_to_list (statsPendingEntries s)) (statsDbEntriesCache s) [] 0 in
    let statsUpdates1 :=
      if negb (readings =? 0) then statsUpdates ++ [("READINGS"%string, readings)]
      else statsUpdates in
    let statsUpdates2 :=
      if negb (m_discardedReadings s =? 0)
      then statsUpdates1 ++ [("DISCARDED"%string, m_discardedReadings s)]
      else statsUpdates1 in
    let succeeded := match rv with Some v => negb (v <? 0) | None => false end in
    (Some statsUpdates2,
     mkIngest (m_resendQueues s) (m_failCnt s) (m_storageFailed s) (m_storesFailed s)
              (if succeeded then 0 else m_discardedReadings s)
              (if succeeded then ∅ else statsPendingEntries s)
              cache (assetTrackingCache s) (storage s)).

(** *** Statistics rows and the example worker *)

Definition example_reading (a : string) : Reading := mkReading a "{}".

(** Seven readings wait on the resend list; they have failed five times. *)
Definition example_ingest : Ingest :=
  mkIngest [example_reading <$> ["a"; "a"; "b"; "a"; "b"; "c"; "c"]%string]
           5 true 5 0 ∅ ∅ ∅ [false].

(** The rows of the assets: one per pending entry with a non-zero count. *)
Definition asset_rows (entries : list (string * Z)) : list (string * Z) :=
  (fun it => (upper it.1, it.2)) <$> List.filter (fun it => negb (it.2 =? 0)) entries.

(** The total as the loop accumulates it in an [int]. *)
Definition total (start : Z) (entries : list (string * Z)) : Z :=
  foldl (fun acc it => i32 (acc + it.2)) start
        (List.filter (fun it => negb (it.2 =? 0)) entries).

End Ingest.

(** ** What a purge leaves behind *)

Module PurgeLog.
Import Sqlite Int Purge.

(** The table once the DELETE statements of a log have run on it, in the
    order of the log. *)
Definition replay (evs : list Event) (rows : list Row) : list Row :=
  foldl (fun rows e =>
           match e with
           | Delete b => filter (fun x => b < rowid x) rows
           | _ => rows
           end) rows evs.

(** Since [w0] the log has grown by [evs], and the table is the one of
    [w0] with the DELETEs of [evs] applied. *)
Definition explained (w0 w : World) : Prop :=
  exists evs, events w = events w0 ++ evs
              /\ readings_1 w = replay evs (readings_1 w0).

(** [wp] is [w] after calls that the engine refused: part of the fault
    script is used up and the retry executor has slept; nothing else has
    changed. *)
Definition idle (w wp : World) : Prop :=
  exists fs us,
    wp = mkWorld (readings_1 w) fs (timings w) (now w) (purgeBlockSize w)
                 (events w ++ (Usleep <$> us)) (result w) (changes w) (writing w).

(** The bounds of the DELETE statements of a log, in order. *)
Definition deletes (evs : list Event) : list Z :=
  omap (fun e => match e with Delete b => Some b | _ => None end) evs.

(** Starting above [a], every bound lies above the one before it, by at
    most [width]. *)
Fixpoint windowed (width a : Z) (bs : list Z) : Prop :=
  match bs with
  | [] => True
  | b :: bs' => a < b <= a + width /\ windowed width b bs'
  end.

(** Since [w] no DELETE has run: table, block size and clock are those
    of [w]. *)
Definition undisturbed (w w' : World) : Prop :=
  readings_1 w' = readings_1 w
  /\ purgeBlockSize w' = purgeBlockSize w
  /\ now w' = now w
  /\ exists evs, events w' = events w ++ evs /\ deletes evs = [].

(** Since [w] no DELETE has run and [m_writeAccessOngoing] has not been
    read. *)
Definition quiet_since (w w' : World) : Prop :=
  undisturbed w w' /\ writing w' = writing w.

(** What holds of the log and of the table wherever a purge of [w]
    stops: the DELETE bounds climb from the lowest rowid of [w] in steps
    of at most [MAX_PURGE_DELETE_BLOCK_SIZE] and stay at or below its
    highest rowid, the table is the one of [w] with these DELETEs applied,
    and the block size is in range. *)
Definition purged_in_blocks (w w' : World) (evs : list Event) : Prop :=
  events w' = events w ++ evs
  /\ windowed MAX_PURGE_DELETE_BLOCK_SIZE (snapshot_min w) (deletes evs)
  /\ Forall (fun b => b <= snapshot_max w) (deletes evs)
  /\ readings_1 w' = replay evs (readings_1 w)
  /\ in_range (purgeBlockSize w').

(** The value that the [k]-th coming read of [m_writeAccessOngoing]
    gives, counting from 0. *)
Definition read_at (ws : list Z) (k : nat) : Z :=
  default (default 0 (last ws)) (ws !! k).

(** The counter reads 0 at one of the [n] coming reads: the writers
    have left by then. *)
Definition writers_leave (n : nat) (ws : list Z) : Prop :=
  exists k, (k < n)%nat /\ read_at ws k = 0.

(** A table of three old rows whose lowest rowid is 0. *)
Definition example_world_rowids_0_7_11 : World :=
  mkWorld ((fun i => mkRow i 0) <$> [0; 7; 11])
          [] [] (2000 * 3600) initial_purgeBlockSize [] None 0 [].

(** The three ways a step can end, each with its condition. *)
Definition outcome {A} (m : World -> Res A) (w : World)
           (Q : A -> World -> Prop) (E F : World -> Prop) : Prop :=
  match m w with
  | Go a w' => Q a w'
  | Return0 w' => E w'
  | OutOfFuel w' => F w'
  end.

End PurgeLog.


(** ** More of the catalogue *)

Module CatalogueExamples.
Import Sqlite Int Catalogue.

(** A catalogue that names table 5 for its asset, over a database that
    only has [readings_1]; the service was stopped by a crash, so the
    stored id is -1. *)
Definition stray_assets : gmap string (Z * Z) := {[ "pump"%string := (5, 1) ]}.

Definition stray_conn : Conn :=
  mkConn (mkDb [-1] {[ 1 := seqZ 1 42 ]}) [] 0 [] None.

End CatalogueExamples.


(** ** More of the asset catalogue *)

Module CatalogueTables.
Import Sqlite Int Insert.

(** No two assets of the catalogue share a readings table. *)
Definition tables_distinct (k : Catalogue) : Prop :=
  forall a b ta tb,
    m_AssetReadingCatalogue k !! a = Some ta ->
    m_AssetReadingCatalogue k !! b = Some tb ->
    ta.1 = tb.1 -> a = b.

(** A catalogue with two assets, one table left in the current block. *)
Definition example_catalogue : Catalogue :=
  mkCatalogue 43 {[ "pump"%string := (1, 1); "fan"%string := (2, 1) ]} 1 1 2 3.

Definition example_conn (faults : list Z) : Conn :=
  mkConn faults [] [] example_catalogue "2024-01-01 00:00:00.000000".

End CatalogueTables.


(** ** More of the ingest worker *)

Module IngestCount.
Import Int Ingest.

(** The readings of a queue that the statistics loop counts: all but the
    readings with an empty asset name that open the queue, for which
    [lastAsset.compare(assetName)] is 0 while [lastStat] is still null. *)
Fixpoint counted (q : list Reading) : list Reading :=
  match q with
  | [] => []
  | r :: q' => if String.eqb (assetName r) "" then counted q' else q
  end.

(** How many readings of a queue carry the asset name [a]. *)
Definition readings_of (a : string) (q : list Reading) : Z :=
  Z.of_nat (length (List.filter (fun r => String.eqb (assetName r) a) q)).

(** The count a statistics map holds for an asset, 0 when it has no
    entry. *)
Definition count_of (a : string) (stats : gmap string Z) : Z :=
  default 0 (stats !! a).

(** The readings waiting on the resend list. *)
Definition waiting (queues : list (list Reading)) : Z :=
  Z.of_nat (length (concat queues)).

End IngestCount.


(** ** The ingest queues *)

Module IngestQueue.
Import Int Ingest.

(** [struct timeval]: seconds and microseconds. *)
Record Timeval := mkTimeval { tv_sec : Z; tv_usec : Z }.

(** The members of [Ingest] through which readings reach the worker:
    the queue being filled, the full queues (oldest first), the resend
    list, the threshold and the timeout in milliseconds (an
    [unsigned int] and a [long], as the constructor takes them) and the
    running flag.  [m_cv_notified] counts the calls of
    [m_cv.notify_all()]. *)
Record Queues := mkQueues {
  m_queue : list Reading;
  m_fullQueues : list (list Reading);
  m_resendQueues : list (list Reading);
  m_queueSizeThreshold : Z;
  m_timeout : Z;
  m_running : bool;
  m_cv_notified : Z
}.

(** The test [m_queue->size() >= m_queueSizeThreshold || m_running == false]
    and the swap of the queue that follows it. *)
Definition move_if_full (queue : list Reading) (s : Queues)
  : list Reading * list (list Reading) :=
  if (m_queueSizeThreshold s <=? Z.of_nat (length queue)) || negb (m_running s)
  then ([], m_fullQueues s ++ [queue])
  else (queue, m_fullQueues s).

(** [Ingest::ingest] on one reading. *)
Definition ingest (reading : Reading) (s : Queues) : Queues :=
  let '(queue, fullQueues) := move_if_full (m_queue s ++ [reading]) s in
  mkQueues queue fullQueues (m_resendQueues s) (m_queueSizeThreshold s) (m_timeout s)
           (m_running s)
           (if negb (Z.of_nat (length fullQueues) =? 0)
            then m_cv_notified s + 1 else m_cv_notified s).

(** [Ingest::ingest] on a vector of readings; the product
    [m_queueSizeThreshold * 3] is taken in [unsigned int]. *)
Definition ingest_set (vec : list Reading) (s : Queues) : Queues :=
  let '(queue, fullQueues) := move_if_full (m_queue s ++ vec) s in
  let qSize := Z.of_nat (length queue) in
  let nFullQueues := u32 (Z.of_nat (length fullQueues)) in
  mkQueues queue fullQueues (m_resendQueues s) (m_queueSizeThreshold s) (m_timeout s)
           (m_running s)
           (if negb (nFullQueues =? 0)
               || (Z.quot (u32 (m_queueSizeThreshold s * 3)) 4 <? qSize)
            then m_cv_notified s + 1 else m_cv_notified s).

(** [Ingest::queueLength], in [size_t]. *)
Definition queueLength (s : Queues) : Z :=
  let len := Z.of_nat (length (m_queue s)) in
  let len := u64 (len + u64 (Z.of_nat (length (m_fullQueues s)) * m_queueSizeThreshold s)) in
  u64 (len + u64 (Z.of_nat (length (m_resendQueues s)) * m_queueSizeThreshold s)).

(** The block of [processQueue] that picks the next queue to send: the
    oldest full queue, or the queue being filled when there is none. *)
Definition next_data (s : Queues) : list Reading * Queues :=
  match m_fullQueues s with
  | [] =>
      (m_queue s,
       mkQueues [] [] (m_resendQueues s) (m_queueSizeThreshold s) (m_timeout s)
                (m_running s) (m_cv_notified s))
  | q :: rest =>
      (q,
       mkQueues (m_queue s) rest (m_resendQueues s) (m_queueSizeThreshold s) (m_timeout s)
                (m_running s) (m_cv_notified s))
  end.

Section WithTimestamps.

(** [Reading::getUserTimestamp] belongs to a class kept in another
    file. *)
Variable getUserTimestamp : Reading -> Timeval.

(** [Ingest::calculateWaitTime], [now] being what [gettimeofday] gives;
    the arithmetic is done in [long]. *)
Definition calculateWaitTime (now : Timeval) (s : Queues) : Z :=
  match m_queue s with
  | [] => m_timeout s
  | reading :: _ =>
      let tm := getUserTimestamp reading in
      let ageMS :=
        i64 (i64 (i64 (tv_sec now - tv_sec tm) * 1000)
             + Z.quot (i64 (tv_usec now - tv_usec tm)) 1000) in
      i64 (m_timeout s - ageMS)
  end.

(** [Ingest::waitForQueue]: the time handed to [m_cv.wait_for], in
    milliseconds, [None] when the function does not wait. *)
Definition waitForQueue (now : Timeval) (s : Queues) : option Z :=
  if negb (Z.of_nat (length (m_fullQueues s)) =? 0)
     || negb (Z.of_nat (length (m_resendQueues s)) =? 0)
  then None
  else if m_running s && (Z.of_nat (length (m_queue s)) <? m_queueSizeThreshold s)
  then
    let timeout := calculateWaitTime now s in
    if 0 <? timeout then Some (Z.quot (i64 (3 * timeout)) 4) else None
  else None.

End WithTimestamps.

(** The readings held by the queue being filled and by the full queues,
    oldest first. *)
Definition held (s : Queues) : list Reading :=
  concat (m_fullQueues s) ++ m_queue s.

(** [ingest] for each reading of a list in turn. *)
Definition ingest_each (rs : list Reading) (s : Queues) : Queues :=
  foldl (fun s r => ingest r s) s rs.

(** A worker that has just started: nothing queued, a threshold of 3. *)
Definition example_queues : Queues := mkQueues [] [] [] 3 5000 true 0.

End IngestQueue.


(** ** Tables and databases of the catalogue *)

Module TableNames.
Import Int Insert.

(** The order in which a range-for visits [m_AssetReadingCatalogue],
    taken as a [std::map] keyed by asset code (the member is declared in
    a header): ascending keys, strings compared byte by byte. *)
Definition key_le (x y : string * (Z * Z)) : Prop := Is_true (String.leb x.1 y.1).

Definition visit (k : Catalogue) : list (string * (Z * Z)) :=
  merge_sort key_le (map_to_list (m_AssetReadingCatalogue k)).

Definition set_catalogue (m : gmap string (Z * Z)) (k : Catalogue) : Catalogue :=
  mkCatalogue (m_globalId k) m (m_dbId k) (m_nReadingsAvailable k) (m_nReadingsUsed k)
              (nReadingsAllocate k).

(** [ReadingsCatalogue::getUsedTablesDbId].  The condition of its [if] is
    the assignment [item.second.second = dbId], made through a reference
    to the entry: it stores [dbId] and is true when [dbId] is not 0. *)
Definition getUsedTablesDbId (dbId : Z) (k : Catalogue) : Z * Catalogue :=
  let '(count, m) :=
    foldl (fun '(count, m) item =>
             (if negb (dbId =? 0) then i32 (count + 1) else count,
              <[item.1 := (item.2.1, dbId)]> m))
          (0, m_AssetReadingCatalogue k) (visit k) in
  (count, set_catalogue m k).

Section Names.

(** The macros [READINGS_DB_NAME_BASE] and [READINGS_TABLE_NAME_BASE]
    come from a header. *)
Variable READINGS_DB_NAME_BASE : string.
Variable READINGS_TABLE_NAME_BASE : string.

Definition getDbName (dbId : Z) : string :=
  READINGS_DB_NAME_BASE +:+ "_" +:+ to_string dbId.

Definition getReadingsName (tableId : Z) : string :=
  READINGS_TABLE_NAME_BASE +:+ "_" +:+ to_string tableId.

(** The loop of [getDbNameFromTableId]: the first entry with the table. *)
Fixpoint find_table (tableId : Z) (items : list (string * (Z * Z))) : string :=
  match items with
  | [] => ""
  | item :: rest =>
      if item.2.1 =? tableId
      then READINGS_DB_NAME_BASE +:+ "_" +:+ to_string item.2.2
      else find_table tableId rest
  end.

Definition getDbNameFromTableId (tableId : Z) (k : Catalogue) : string :=
  let dbName := find_table tableId (visit k) in
  if String.eqb dbName "" then READINGS_DB_NAME_BASE +:+ "_1" else dbName.

End Names.

(** A catalogue whose two assets live in different databases. *)
Definition example_two_databases : Catalogue :=
  mkCatalogue 43 {[ "pump"%string := (1, 1); "fan"%string := (2, 2) ]} 2 1 2 3.

End TableNames.

(** * Properties *)

(** ** The retry executor *)

(** Whatever every call and every sleep preserves, the loop preserves. *)
Section RetryInvariant.
Context {St : Type}.
Variable attempt : St -> Z * St.
Variable usleep : Z -> St -> St.
Variable R : St -> St -> Prop.
Hypothesis R_refl : forall s, R s s.
Hypothesis R_trans : forall a b c, R a b -> R b c -> R a c.
Hypothesis R_attempt : forall s, R s (attempt s).2.
Hypothesis R_sleep : forall n s, R s (usleep n s).

Lemma retry_loop_preserves fuel retries s r :
  Retry.retry_loop attempt usleep fuel retries s = Some r -> R s r.2.
Proof.
  revert retries s. induction fuel as [| fuel IH]; intros retries s; simpl; [discriminate |].
  pose proof (R_attempt s) as Ha. destruct (attempt s) as [rc s1]. simpl in Ha.
  set (s2 := if Sqlite.locked_or_busy rc
             then usleep ((retries + 1) * Retry.RETRY_BACKOFF) s1 else s1).
  assert (H2 : R s s2).
  { subst s2. destruct (Sqlite.locked_or_busy rc); [| exact Ha].
    eapply R_trans; [exact Ha | apply R_sleep]. }
  destruct ((retries + 1 <? Retry.MAX_RETRIES) && Sqlite.locked_or_busy rc).
  - intros Hr. eapply R_trans; [exact H2 |]. eapply IH. exact Hr.
  - intros [= <-]. exact H2.
Qed.

Lemma retry_preserves s : R s (Retry.retry attempt usleep s).2.
Proof.
  unfold Retry.retry.
  destruct (Retry.retry_loop attempt usleep (Z.to_nat Retry.MAX_RETRIES) 0 s) as [r |] eqn:Hr.
  - eapply retry_loop_preserves. exact Hr.
  - apply R_refl.
Qed.

End RetryInvariant.

Section RetryProperties.
Import Sqlite Retry Catalogue.

Lemma backoff_schedule_S retries k :
  backoff_schedule retries (S k) =
  (retries + 1) * RETRY_BACKOFF :: backoff_schedule (retries + 1) k.
Proof.
  unfold backoff_schedule. simpl. f_equal.
  rewrite <- (fmap_S_seq 1 k), <- list_fmap_compose.
  apply list_fmap_ext. intros _ i _. simpl. f_equal. lia.
Qed.

Lemma sqlite3_exec_call cmd : engine_call (sqlite3_exec cmd).
Proof.
  split.
  - intros c f fs Hf Hne. unfold sqlite3_exec, enter. rewrite Hf. simpl.
    destruct (Z.eqb_spec f SQLITE_OK); [contradiction | reflexivity].
  - intros c [Hf | [fs Hf]]; unfold sqlite3_exec, enter; rewrite Hf; simpl;
      destruct (run_command _ _); reflexivity.
  - intros c. unfold sqlite3_exec, enter.
    destruct (next_fault (faults c)) as [f fs]. simpl.
    destruct (f =? SQLITE_OK); [destruct (run_command _ _) |]; reflexivity.
  - intros c. unfold sqlite3_exec, enter.
    destruct (next_fault (faults c)) as [f fs]. simpl.
    destruct (f =? SQLITE_OK); [destruct (run_command _ _) |]; reflexivity.
Qed.

Lemma sqlite3_step_call q : engine_call (sqlite3_step q).
Proof.
  split.
  - intros c f fs Hf Hne. unfold sqlite3_step, enter. rewrite Hf. simpl.
    destruct (Z.eqb_spec f SQLITE_OK); [contradiction | reflexivity].
  - intros c [Hf | [fs Hf]]; unfold sqlite3_step, enter; rewrite Hf; simpl;
      destruct q; try destruct (configuration_readings _); reflexivity.
  - intros c. unfold sqlite3_step, enter.
    destruct (next_fault (faults c)) as [f fs]. simpl.
    destruct (f =? SQLITE_OK); [destruct q; try destruct (configuration_readings _) |];
      reflexivity.
  - intros c. unfold sqlite3_step, enter.
    destruct (next_fault (faults c)) as [f fs]. simpl.
    destruct (f =? SQLITE_OK); [destruct q; try destruct (configuration_readings _) |];
      reflexivity.
Qed.

(** A call answered BUSY or LOCKED was forced by the script. *)
Lemma busy_is_forced prim c :
  engine_call prim ->
  locked_or_busy (prim c).1 = true ->
  exists fs, faults c = (prim c).1 :: fs
             /\ (prim c).2 = mkConn (db c) fs (calls c + 1) (slept c) (cursor c).
Proof.
  intros E Hb.
  destruct (faults c) as [| f fs] eqn:Hf.
  - rewrite (call_runs prim E c) in Hb by (left; exact Hf). discriminate.
  - destruct (Z.eq_dec f SQLITE_OK) as [-> | Hne].
    + rewrite (call_runs prim E c) in Hb by (right; eauto). discriminate.
    + rewrite (call_forced prim E c f fs Hf Hne). simpl. eauto.
Qed.

(** The loop, described by the number [n] of calls it makes. *)
Lemma retry_loop_shape prim :
  engine_call prim ->
  forall (fuel : nat) (retries : Z) (c : Conn),
    0 <= retries ->
    (1 <= fuel)%nat ->
    MAX_RETRIES - retries <= Z.of_nat fuel ->
    exists (n : nat) rc c',
      retry_loop prim usleep fuel retries c = Some (rc, c')
      /\ (1 <= n)%nat
      /\ Z.of_nat n <= Z.max 1 (MAX_RETRIES - retries)
      /\ calls c' = calls c + Z.of_nat n
      /\ (forall i, (i < n - 1)%nat ->
            exists f, faults c !! i = Some f /\ locked_or_busy f = true)
      /\ slept c' =
           slept c ++ backoff_schedule retries (if locked_or_busy rc then n else n - 1)
      /\ (locked_or_busy rc = true -> MAX_RETRIES <= retries + Z.of_nat n)
      /\ (forall f, faults c !! (n - 1)%nat = Some f -> f <> SQLITE_OK -> rc = f).
Proof.
  intros E fuel. induction fuel as [| fuel IH]; intros retries c Hr Hfuel Hmax; [lia |].
  simpl. destruct (prim c) as [rc c1] eqn:Hp.
  destruct (locked_or_busy rc) eqn:Hb.
  - (* the call was answered BUSY or LOCKED *)
    assert (Hb' : locked_or_busy (prim c).1 = true) by (rewrite Hp; exact Hb).
    destruct (busy_is_forced prim c E Hb') as (fs & Hfs & Hc1).
    rewrite Hp in Hfs, Hc1. simpl in Hfs, Hc1.
    destruct (Z.ltb_spec (retries + 1) MAX_RETRIES) as [Hlt | Hge]; simpl.
    + destruct (IH (retries + 1) (usleep ((retries + 1) * RETRY_BACKOFF) c1))
        as (n & rc' & c' & Hrun & Hn1 & Hn & Hcalls & Hpre & Hsl & Hex & Hlast);
        [lia | lia | lia |].
      exists (S n), rc', c'. rewrite Hrun. subst c1.
      unfold usleep in Hsl, Hcalls, Hpre, Hlast.
      cbn [slept calls faults] in Hsl, Hcalls, Hpre, Hlast.
      repeat split.
      * lia.
      * lia.
      * rewrite Hcalls. lia.
      * intros i Hi. rewrite Hfs. destruct i as [| i].
        -- exists rc. split; [reflexivity | exact Hb].
        -- cbn [lookup list_lookup]. apply Hpre. lia.
      * rewrite Hsl. rewrite <- app_assoc. f_equal.
        destruct (locked_or_busy rc').
        -- rewrite backoff_schedule_S. reflexivity.
        -- replace (S n - 1)%nat with (S (n - 1)) by lia.
           rewrite backoff_schedule_S. reflexivity.
      * intros Hb2. specialize (Hex Hb2). lia.
      * intros f Hf Hne. apply Hlast; [| exact Hne].
        rewrite Hfs in Hf. replace (S n - 1)%nat with (S (n - 1)) in Hf by lia.
        exact Hf.
    + exists 1%nat, rc, (usleep ((retries + 1) * RETRY_BACKOFF) c1).
      subst c1. simpl. repeat split.
      * lia.
      * lia.
      * intros i Hi. lia.
      * rewrite Hb. unfold backoff_schedule. simpl. reflexivity.
      * intros _. lia.
      * intros f Hf _. rewrite Hfs in Hf. simpl in Hf. congruence.
  - (* any other answer ends the loop *)
    rewrite andb_false_r.
    exists 1%nat, rc, c1. repeat split.
    + lia.
    + lia.
    + pose proof (call_counts prim E c) as Hc. rewrite Hp in Hc. exact Hc.
    + intros i Hi. lia.
    + rewrite Hb. unfold backoff_schedule. simpl. rewrite app_nil_r.
      pose proof (call_no_sleep prim E c) as Hs. rewrite Hp in Hs. exact Hs.
    + intros Hb2. congruence.
    + intros f Hf Hne. simpl in Hf.
      destruct (faults c) as [| f0 fs] eqn:Hfc; [discriminate |].
      simpl in Hf. injection Hf as ->.
      pose proof (call_forced prim E c f fs Hfc Hne) as Hforced.
      rewrite Hp in Hforced. congruence.
Qed.

(** [MAX_RETRIES] passes are enough: the wrapper never falls back. *)
Lemma retry_loop_total prim c :
  engine_call prim ->
  exists r, retry_loop prim usleep (Z.to_nat MAX_RETRIES) 0 c = Some r
            /\ retry prim usleep c = r.
Proof.
  intros E.
  destruct (retry_loop_shape prim E (Z.to_nat MAX_RETRIES) 0 c)
    as (n & rc & c' & Hrun & _); [lia | unfold MAX_RETRIES; lia | unfold MAX_RETRIES; lia |].
  exists (rc, c'). split; [exact Hrun |]. unfold retry. rewrite Hrun. reflexivity.
Qed.

Lemma retry_meets_contract prim :
  engine_call prim -> retry_contract (retry prim usleep).
Proof.
  intros E c. cbv zeta.
  destruct (retry_loop_total prim c E) as (r & Hloop & Hr).
  destruct (retry_loop_shape prim E (Z.to_nat MAX_RETRIES) 0 c)
    as (n & rc & c' & Hrun & Hn1 & Hn & Hcalls & Hpre & Hsl & Hex & Hlast);
    [lia | unfold MAX_RETRIES; lia | unfold MAX_RETRIES; lia |].
  rewrite Hr. rewrite Hrun in Hloop. injection Hloop as <-. simpl.
  replace (calls c' - calls c) with (Z.of_nat n) by lia.
  assert (Hmax : Z.max 1 (MAX_RETRIES - 0) = MAX_RETRIES) by (unfold MAX_RETRIES; lia).
  rewrite Hmax in Hn.
  assert (Hfirst : forall f fs, faults c = f :: fs -> locked_or_busy f = false -> n = 1%nat).
  { intros f fs Hf Hnb.
    destruct (Nat.eq_dec n 1%nat) as [| Hne1]; [assumption |].
    destruct (Hpre 0%nat) as (f0 & Hf0 & Hb0); [lia |].
    rewrite Hf in Hf0. simpl in Hf0. congruence. }
  split; [lia |]. split.
  { intros i Hi. apply Hpre. lia. }
  split.
  { rewrite Hsl. f_equal. f_equal.
    destruct (locked_or_busy rc); [rewrite Nat2Z.id; reflexivity |].
    replace (Z.of_nat n - 1) with (Z.of_nat (n - 1)) by lia. rewrite Nat2Z.id. reflexivity. }
  split.
  { intros Hb. specialize (Hex Hb). lia. }
  split.
  { intros f Hf Hne. apply Hlast; [| exact Hne].
    replace (Z.of_nat n - 1) with (Z.of_nat (n - 1)) in Hf by lia.
    rewrite Nat2Z.id in Hf. exact Hf. }
  intros f fs Hf Hne Hnb.
  pose proof (Hfirst f fs Hf Hnb) as ->.
  assert (Hrc : rc = f) by (apply Hlast; [rewrite Hf; reflexivity | assumption]).
  subst rc. split; [reflexivity |]. split; [reflexivity |].
  rewrite Hsl, Hnb. simpl. apply app_nil_r.
Qed.

(** C6.  [SQLexec] and [SQLStep] call the engine again only after a BUSY
    or LOCKED answer, sleep [retries * RETRY_BACKOFF] microseconds
    ([RETRY_BACKOFF = 100]) after each such answer, make at most
    [MAX_RETRIES = 40] calls, hand back any other status at once, and
    after 40 BUSY or LOCKED answers hand back the last of them. *)
Theorem SQLexec_SQLStep_retry_contract :
  MAX_RETRIES = 40 /\ RETRY_BACKOFF = 100
  /\ (forall cmd, retry_contract (SQLexec cmd))
  /\ (forall q, retry_contract (SQLStep q)).
Proof.
  split; [reflexivity |]. split; [reflexivity |]. split.
  - intros cmd. apply retry_meets_contract, sqlite3_exec_call.
  - intros q. apply retry_meets_contract, sqlite3_step_call.
Qed.

End RetryProperties.

(** ** The global id across shutdown and start-up *)

Section CatalogueProperties.
Import Sqlite Int Retry Catalogue.

Lemma enter_quiet c : quiet c -> enter c = (SQLITE_OK, tick c).
Proof.
  unfold quiet, enter, tick. destruct (faults c) as [| f fs]; intros H; simpl.
  - reflexivity.
  - inversion H; subst. reflexivity.
Qed.

Lemma tick_quiet c : quiet c -> quiet (tick c).
Proof.
  unfold quiet, tick. simpl. destruct (faults c); intros H; simpl; [constructor |].
  inversion H; assumption.
Qed.

Lemma quiet_runs c : quiet c -> faults c = [] \/ exists fs, faults c = SQLITE_OK :: fs.
Proof.
  unfold quiet. destruct (faults c) as [| f fs]; intros H; [left; reflexivity |].
  inversion H; subst. right. eauto.
Qed.

(** Without a fault the executor makes exactly one call. *)
Lemma retry_quiet prim c : engine_call prim -> quiet c -> retry prim usleep c = prim c.
Proof.
  intros E Hq. unfold retry. change (Z.to_nat MAX_RETRIES) with 40%nat.
  cbn [retry_loop].
  pose proof (call_runs prim E c (quiet_runs c Hq)) as Hb.
  destruct (prim c) as [rc c1]. simpl in Hb. rewrite Hb, andb_false_r. reflexivity.
Qed.

Lemma SQLexec_quiet cmd c :
  quiet c ->
  SQLexec cmd c =
  match run_command cmd (db c) with
  | Some d => (SQLITE_OK, set_db d (tick c))
  | None => (SQLITE_ERROR, tick c)
  end.
Proof.
  intros Hq. unfold SQLexec. rewrite retry_quiet by (auto using sqlite3_exec_call).
  unfold sqlite3_exec. rewrite enter_quiet by assumption. reflexivity.
Qed.

Lemma SQLStep_quiet q c :
  quiet c ->
  SQLStep q c =
  match q with
  | SelectGlobalId =>
      match configuration_readings (db c) with
      | [] => (SQLITE_DONE, tick c)
      | v :: _ => (SQLITE_ROW, set_cursor (Some v) (tick c))
      end
  | SelectMaxId tables => (SQLITE_ROW, set_cursor (union_max tables (db c)) (tick c))
  end.
Proof.
  intros Hq. unfold SQLStep. rewrite retry_quiet by (auto using sqlite3_step_call).
  unfold sqlite3_step. rewrite enter_quiet by assumption. reflexivity.
Qed.

Lemma prepare_quiet q c :
  quiet c ->
  sqlite3_prepare_v2 q c =
  (if compiles q (db c) then SQLITE_OK else SQLITE_ERROR, tick c).
Proof.
  intros Hq. unfold sqlite3_prepare_v2. rewrite enter_quiet by assumption.
  simpl. destruct (compiles q (db c)); reflexivity.
Qed.

Lemma i32_id z : - 2 ^ 31 <= z < 2 ^ 31 -> i32 z = z.
Proof. intros H. unfold i32. rewrite Z.mod_small; lia. Qed.

(** The text [storeGlobalId] splices in reads back as the negated id. *)
Lemma minus_to_string g : 0 <= g -> sql_integer ("-" +:+ to_string g) = Some (- g).
Proof.
  intros Hg. unfold sql_integer, to_string.
  destruct g as [| p | p]; [reflexivity | | lia].
  cbn [Z.to_int NilZero.string_of_int].
  change (NilZero.int_of_string ("-" +:+ ?s))
    with (option_map Decimal.Neg (NilZero.uint_of_string s)).
  rewrite NilZero.usu by apply DecimalPos.Unsigned.to_uint_nonnil.
  cbn [option_map]. change (Z.of_int <$> Some ?d) with (Some (Z.of_int d)).
  unfold Z.of_int, Z.of_uint.
  rewrite DecimalPos.Unsigned.of_to. reflexivity.
Qed.

Lemma sql_max_elem (col : list Z) m : sql_max col = Some m -> m ∈ col.
Proof.
  destruct col as [| x xs]; [discriminate |]. simpl. intros [= <-].
  revert x. induction xs as [| y ys IH]; intros x; simpl.
  - apply list_elem_of_here.
  - destruct (Z.max_spec y (foldr Z.max x ys)) as [[_ ->] | [_ ->]].
    + specialize (IH x). apply elem_of_cons in IH as [-> | IH].
      * apply list_elem_of_here.
      * do 2 apply list_elem_of_further. exact IH.
    + apply list_elem_of_further, list_elem_of_here.
Qed.


(** What [storeGlobalId] leaves in [configuration_readings]. *)
Lemma storeGlobalId_stores_negated_id rc c :
  quiet c ->
  0 <= m_globalId rc ->
  storeGlobalId rc c =
  (true,
   set_db (mkDb ((fun _ => - m_globalId rc) <$> configuration_readings (db c))
                (readings (db c)))
          (tick c)).
Proof.
  intros Hq Hg. unfold storeGlobalId. rewrite SQLexec_quiet by assumption.
  unfold run_command. rewrite minus_to_string by assumption. reflexivity.
Qed.

(** C1.  The catalogue holds 43 as the next id (42 was the last one
    issued).  A graceful shutdown stores -43, not 43, and the start-up
    that follows adopts -43. *)
Theorem graceful_restart_adopts_negated_id :
  let shutdown := storeGlobalId (mkCatalogue 43 example_assets) (example_conn (-1)) in
  let startup := restart example_assets shutdown.2 in
  shutdown.1 = true
  /\ configuration_readings (db shutdown.2) = [-43]
  /\ startup.1.1 = true
  /\ m_globalId startup.1.2 = -43.
Proof. vm_compute. repeat split. Qed.




End CatalogueProperties.

(** ** Purge by age *)

Section PurgeProperties.
Import Sqlite Int Retry Purge.

(** The two clamps at the end of the resizing decide the range, whatever
    the scaled and rounded size is. *)
Lemma resize_in_range size avg : in_range (resize size avg).
Proof.
  unfold in_range, resize, MIN_PURGE_DELETE_BLOCK_SIZE, MAX_PURGE_DELETE_BLOCK_SIZE.
  set (size2 := Z.quot _ _ * _).
  destruct (Z.ltb_spec size2 20) as [H | H];
    [destruct (Z.ltb_spec 1500 20) | destruct (Z.ltb_spec 1500 size2)]; lia.
Qed.

(** *** A small program logic for [Res] *)

Lemma triple_bind {A B} P (m : World -> Res A) Q (k : A -> World -> Res B) Q' E :
  triple P m Q E ->
  (forall a, triple (Q a) (k a) Q' E) ->
  triple P (bind m k) Q' E.
Proof.
  intros Hm Hk w HP. unfold bind. specialize (Hm w HP).
  destruct (m w) as [a w1 | w1 | w1]; [apply (Hk a w1 Hm) | exact Hm | exact Hm].
Qed.

Lemma triple_get {A} (f : World -> A) (P : World -> Prop) Q E :
  (forall w, P w -> Q (f w) w) -> triple P (get f) Q E.
Proof. intros H w HP. simpl. auto. Qed.

Lemma triple_return0 {A} (P E : World -> Prop) (Q : A -> World -> Prop) :
  (forall w, P w -> E w) -> triple P Return0 Q E.
Proof. intros H w HP. simpl. auto. Qed.

Lemma triple_weaken {A} (P P' : World -> Prop) (m : World -> Res A) Q E :
  (forall w, P' w -> P w) -> triple P m Q E -> triple P' m Q E.
Proof. intros H Hm w HP. apply Hm, H, HP. Qed.

(** *** Invariants the engine's bookkeeping cannot break *)

Lemma run_select_stable I s w : stable I -> is_select s -> I w -> I (run s w).
Proof.
  intros HI Hs Hw. destruct s; simpl in *; try contradiction;
    repeat match goal with
           | |- context [match ?l with [] => _ | _ :: _ => _ end] => destruct l
           end;
    apply (stable_result I HI); exact Hw.
Qed.

(** A status other than BUSY and LOCKED is the answer of one call of the
    engine, made from a world the loop reached through failed calls and
    sleeps only. *)
Lemma retry_loop_last {St} (attempt : St -> Z * St) usleep (R : St -> St -> Prop) :
  (forall s, R s s) ->
  (forall a b c, R a b -> R b c -> R a c) ->
  (forall s, R s (attempt s).2) ->
  (forall n s, R s (usleep n s)) ->
  forall fuel retries s rc s',
    retry_loop attempt usleep fuel retries s = Some (rc, s') ->
    locked_or_busy rc = false ->
    exists sp, R s sp /\ attempt sp = (rc, s').
Proof.
  intros Hrefl Htrans Hatt Hsl fuel.
  induction fuel as [| fuel IH]; intros retries s rc s'; simpl; [discriminate |].
  pose proof (Hatt s) as Ha. destruct (attempt s) as [rc0 s1] eqn:Hs. simpl in Ha.
  destruct (locked_or_busy rc0) eqn:Hb0.
  - destruct (retries + 1 <? MAX_RETRIES); simpl.
    + intros Hrun Hb. destruct (IH _ _ _ _ Hrun Hb) as (sp & Hsp & Hlast).
      exists sp. split; [| exact Hlast].
      eapply Htrans; [exact Ha |]. eapply Htrans; [apply Hsl | exact Hsp].
    + intros [= <- <-] Hb. congruence.
  - rewrite andb_false_r. intros [= <- <-] _. exists s. split; [apply Hrefl | exact Hs].
Qed.

Section WithInvariant.
Variable I : World -> Prop.
Variable ok : Statement -> Prop.
Hypothesis I_stable : stable I.
Hypothesis I_run : forall s w, ok s -> I w -> I (run s w).
Hypothesis I_resize :
  forall avg w, I w -> I (set_purgeBlockSize (resize (purgeBlockSize w) avg) w).

Lemma sqlite3_exec_keeps s w : ok s -> I w -> I (sqlite3_exec s w).2.
Proof.
  intros Hs Hw. unfold sqlite3_exec.
  destruct (next_fault (faults w)) as [f fs].
  destruct (f =? SQLITE_OK); simpl.
  - apply I_run; [exact Hs |]. apply (stable_faults I I_stable). exact Hw.
  - apply (stable_faults I I_stable). exact Hw.
Qed.

Lemma SQLexec_keeps s w : ok s -> I w -> I (SQLexec s w).2.
Proof.
  intros Hs Hw. unfold SQLexec.
  apply (retry_preserves (sqlite3_exec s) (fun us => log (Usleep us))
                         (fun a b => I a -> I b)); auto.
  - intros a Ha. apply sqlite3_exec_keeps; assumption.
  - intros n a Ha. apply (stable_usleep I I_stable). exact Ha.
Qed.

(** When the executor answers [SQLITE_OK] the statement has just run,
    from a world in which the invariant held. *)
Lemma SQLexec_ok s w w' :
  ok s -> I w -> SQLexec s w = (SQLITE_OK, w') ->
  exists wp, I wp /\ w' = run s wp.
Proof.
  intros Hs Hw. unfold SQLexec, retry.
  destruct (retry_loop _ _ _ 0 w) as [[rc w1] |] eqn:Hloop; [| discriminate].
  intros [= -> ->].
  destruct (retry_loop_last (sqlite3_exec s) (fun us => log (Usleep us))
                            (fun a b => I a -> I b)
                            (fun _ H => H) (fun _ _ _ H1 H2 H => H2 (H1 H))
                            (fun a Ha => sqlite3_exec_keeps s a Hs Ha)
                            (fun n a Ha => stable_usleep I I_stable n a Ha)
                            _ _ _ _ _ Hloop eq_refl)
    as (sp & Hsp & Hlast).
  unfold sqlite3_exec in Hlast.
  destruct (next_fault (faults sp)) as [f fs].
  destruct (Z.eqb_spec f SQLITE_OK) as [-> | Hne].
  - injection Hlast as <-. exists (set_faults fs sp). split; [| reflexivity].
    apply (stable_faults I I_stable). auto.
  - injection Hlast as Hf _. congruence.
Qed.

Lemma exec_or_return_keeps s :
  ok s ->
  triple I (exec_or_return s) (fun _ w' => exists wp, I wp /\ w' = run s wp) I.
Proof.
  intros Hs w Hw. unfold exec_or_return.
  pose proof (SQLexec_keeps s w Hs Hw) as H.
  pose proof (SQLexec_ok s w) as Hok.
  destruct (SQLexec s w) as [rc w1]. simpl in H.
  destruct (Z.eqb_spec rc SQLITE_OK) as [-> | Hne]; [| exact H].
  apply Hok; auto.
Qed.

Lemma refine_keeps fuel age l r m :
  (forall m' age', ok (SelectOlder m' age')) ->
  triple I (refine fuel age l r m) (fun _ => I) I.
Proof.
  intros Hok. revert l r m.
  induction fuel as [| fuel IH]; intros l r m w Hw; simpl; [exact Hw |].
  destruct (l <=? r); simpl; [| exact Hw].
  destruct (m =? u64 (l + Z.quot (u64 (r - l)) 2)); [exact Hw |].
  pose proof (SQLexec_keeps (SelectOlder (u64 (l + Z.quot (u64 (r - l)) 2)) age) w
                            (Hok _ _) Hw) as H.
  destruct (SQLexec _ w) as [rc w1]. simpl in H.
  destruct (rc =? SQLITE_OK); simpl; [| exact H].
  destruct (rowidCallback 0 w1 =? 0); apply IH; exact H.
Qed.

Lemma recalculate_keeps st w : I w -> I (recalculate st w).2.
Proof.
  intros Hw. unfold recalculate. cbv zeta. cbn [snd].
  apply (stable_sleep I I_stable).
  destruct (_ <? _); [apply I_resize |]; exact Hw.
Qed.

Lemma delete_blocks_keeps fuel rowidLimit st :
  (forall b, b <= rowidLimit -> ok (DeleteUpTo b)) ->
  triple I (delete_blocks fuel rowidLimit st) (fun _ => I) I.
Proof.
  intros Hb. revert st. induction fuel as [| fuel IH]; intros st w Hw; simpl; [exact Hw |].
  destruct (rowidMin st <? rowidLimit); simpl; [| exact Hw].
  set (next := u64 (rowidMin st + purgeBlockSize w)).
  set (b := if rowidLimit <? next then rowidLimit else next).
  assert (Hle : b <= rowidLimit).
  { subst b. destruct (Z.ltb_spec rowidLimit next); lia. }
  unfold measure.
  assert (Hw1 : I (match timings w with [] => (0, w) | t :: ts => (t, set_timings ts w) end).2).
  { destruct (timings w); simpl; [exact Hw | apply (stable_timings I I_stable); exact Hw]. }
  destruct (match timings w with [] => (0, w) | t :: ts => (t, set_timings ts w) end)
    as [usecs w1]. simpl in Hw1.
  pose proof (SQLexec_keeps (DeleteUpTo b) w1 (Hb b Hle) Hw1) as H2.
  destruct (SQLexec (DeleteUpTo b) w1) as [rc w2]. simpl in H2.
  set (w3 := if 150000 <? usecs then log (SleepMs (100 + Z.quot usecs 10000)) w2 else w2).
  assert (H3 : I w3).
  { subst w3. destruct (150000 <? usecs); [apply (stable_sleep I I_stable) |]; exact H2. }
  destruct (rc =? SQLITE_OK); simpl; [| exact H3].
  clearbody w3.
  destruct (Z.rem _ _ =? 0).
  - match goal with
    | |- context [recalculate ?s w3] =>
        pose proof (recalculate_keeps s w3 H3) as H4;
        destruct (recalculate s w3) as [st2 w4]
    end.
    apply IH. exact H4.
  - apply IH. exact H3.
Qed.

Lemma read_writeAccessOngoing_keeps w : I w -> I (read_writeAccessOngoing w).2.
Proof.
  intros Hw. unfold read_writeAccessOngoing.
  destruct (writing w) as [| n [| n' rest]]; cbn [snd]; [exact Hw | exact Hw |].
  apply (stable_writing I I_stable). exact Hw.
Qed.

Lemma wait_while_writing_keeps fuel :
  triple I (wait_while_writing fuel) (fun _ => I) I.
Proof.
  induction fuel as [| fuel IH]; intros w Hw; simpl; [exact Hw |].
  pose proof (read_writeAccessOngoing_keeps w Hw) as H.
  destruct (read_writeAccessOngoing w) as [n w1]. cbn [snd] in H.
  destruct (n =? 0); [exact H |].
  apply IH. apply (stable_sleep I I_stable). exact H.
Qed.

Lemma wait_for_writers_keeps fuel :
  triple I (wait_for_writers fuel) (fun _ => I) I.
Proof.
  intros w Hw. unfold wait_for_writers.
  pose proof (read_writeAccessOngoing_keeps w Hw) as H.
  destruct (read_writeAccessOngoing w) as [n w1]. cbn [snd] in H.
  destruct (n =? 0); [exact H |].
  apply wait_while_writing_keeps. exact H.
Qed.

Lemma get_keeps {A} (f : World -> A) : triple I (get f) (fun _ => I) I.
Proof. apply triple_get. auto. Qed.

Lemma exec_or_return_keeps' s :
  ok s -> triple I (exec_or_return s) (fun _ => I) I.
Proof.
  intros Hs w Hw. pose proof (exec_or_return_keeps s Hs w Hw) as H.
  destruct (exec_or_return s w); [| exact H | exact H].
  destruct H as (wp & Hwp & ->). apply I_run; assumption.
Qed.

(** An invariant that every statement keeps holds through the whole
    purge, wherever it stops. *)
Lemma purgeReadings_keeps fuel age flags sent :
  (forall s, ok s) ->
  triple I (purgeReadings fuel age flags sent) (fun _ => I) I.
Proof.
  intros Hok. unfold purgeReadings.
  eapply triple_bind; [apply exec_or_return_keeps', Hok |]. intros ?.
  eapply triple_bind; [apply get_keeps |]. intros rowidLimit.
  eapply triple_bind; [apply exec_or_return_keeps', Hok |]. intros ?.
  eapply triple_bind; [apply get_keeps |]. intros minrowidLimit.
  eapply triple_bind with (Q := fun _ => I).
  { destruct (age =? 0); [| apply get_keeps].
    eapply triple_bind; [apply exec_or_return_keeps', Hok |]. intros ?.
    eapply triple_bind; [apply get_keeps |]. intros ?. apply get_keeps. }
  intros age1. cbv zeta.
  destruct (_ =? _); [apply triple_return0; auto |].
  eapply triple_bind; [apply refine_keeps; intros; apply Hok |].
  intros m.
  destruct (_ =? _); [apply triple_return0; auto |].
  eapply triple_bind with (Q := fun _ => I).
  { destruct (Z.land flags 1 =? 0); [| apply get_keeps].
    eapply triple_bind; [apply exec_or_return_keeps', Hok |]. intros ?.
    eapply triple_bind; [apply get_keeps |]. intros ?. apply get_keeps. }
  intros unsentPurged0.
  eapply triple_bind; [apply wait_for_writers_keeps |]. intros ?.
  eapply triple_bind; [apply delete_blocks_keeps; intros; apply Hok |].
  intros st. apply get_keeps.
Qed.

End WithInvariant.

(** *** The block size *)

Lemma in_range_stable : stable (fun w => in_range (purgeBlockSize w)).
Proof. split; intros; assumption. Qed.

Lemma in_range_run s w :
  in_range (purgeBlockSize w) -> in_range (purgeBlockSize (run s w)).
Proof.
  intros H. destruct s; simpl;
    repeat match goal with
           | |- context [match ?l with [] => _ | _ :: _ => _ end] => destruct l
           end; exact H.
Qed.

(** C7.  [purgeBlockSize] starts at 20, every resizing lands in
    [[20, 1500]] whatever the measured average is, and a purge started
    with the block size in that range leaves it there, at the end of every
    block and wherever the purge stops. *)
Theorem purgeBlockSize_stays_in_range :
  initial_purgeBlockSize = 20
  /\ in_range initial_purgeBlockSize
  /\ (forall size avg, 20 <= resize size avg <= 1500)
  /\ (forall fuel age flags sent w,
        in_range (purgeBlockSize w) ->
        in_range (purgeBlockSize (world_of (purgeReadings fuel age flags sent w)))).
Proof.
  split; [reflexivity |]. split; [unfold in_range; vm_compute; split; discriminate |].
  split; [apply resize_in_range |].
  intros fuel age flags sent w Hw.
  pose proof (purgeReadings_keeps (fun w => in_range (purgeBlockSize w)) (fun _ => True)
                in_range_stable (fun s w _ H => in_range_run s w H)
                (fun avg w _ => resize_in_range (purgeBlockSize w) avg)
                fuel age flags sent (fun _ => Logic.I) w Hw) as H.
  destruct (purgeReadings fuel age flags sent w); exact H.
Qed.

(** A purge of 1500 rows whose blocks take 30 ms each: the block size
    doubles after 30 blocks. *)
Example block_size_doubles :
  purgeBlockSize (world_of (purgeReadings 200 100 0 0 (example_world 1500 30000))) = 40.
Proof. vm_compute. reflexivity. Qed.

(** With blocks of 300 ms the size would halve; it is held at 20. *)
Example block_size_not_below_20 :
  purgeBlockSize (world_of (purgeReadings 200 100 0 0 (example_world 1500 300000))) = 20.
Proof. vm_compute. reflexivity. Qed.

Lemma purgeBlockSize_stays_in_range_witness :
  in_range (purgeBlockSize (example_world 1500 30000))
  /\ in_range (purgeBlockSize
                 (world_of (purgeReadings 200 100 0 0 (example_world 1500 30000)))).
Proof.
  assert (H : in_range (purgeBlockSize (example_world 1500 30000)))
    by (unfold in_range; vm_compute; split; discriminate).
  split; [exact H |].
  destruct purgeBlockSize_stays_in_range as (_ & _ & _ & Hkeeps).
  apply Hkeeps. exact H.
Defined.

(** *** Unsent rows *)

Lemma sql_min_elem (col : list Z) m : sql_min col = Some m -> m ∈ col.
Proof.
  destruct col as [| x xs]; [discriminate |]. simpl. intros [= <-].
  revert x. induction xs as [| y ys IH]; intros x; simpl.
  - apply list_elem_of_here.
  - destruct (Z.min_spec y (foldr Z.min x ys)) as [[_ ->] | [_ ->]].
    + apply list_elem_of_further, list_elem_of_here.
    + specialize (IH x). apply elem_of_cons in IH as [-> | IH].
      * apply list_elem_of_here.
      * do 2 apply list_elem_of_further. exact IH.
Qed.

(** The search never leaves the interval it starts from: the [m] it ends
    on is at most the ceiling, as long as the arithmetic does not wrap. *)
Lemma refine_le (ceiling : Z) fuel :
  forall age l r m w m' w',
    1 <= l -> l <= r + 1 -> r < 2 ^ 64 - 1 -> r <= ceiling -> m <= ceiling ->
    refine fuel age l r m w = Go m' w' ->
    m' <= ceiling.
Proof.
  induction fuel as [| fuel IH]; intros age l r m w m' w' Hl Hlr Hr Hrc Hm; simpl;
    [discriminate |].
  destruct (Z.leb_spec l r) as [Hle | Hgt]; simpl; [| intros [= <- _]; exact Hm].
  assert (Hmid : u64 (l + Z.quot (u64 (r - l)) 2) = l + (r - l) / 2).
  { unfold u64. rewrite (Z.mod_small (r - l)) by lia.
    rewrite Z.quot_div_nonneg by lia.
    assert (0 <= (r - l) / 2 <= r - l)
      by (split; [apply Z.div_pos | apply Z.div_le_upper_bound]; lia).
    apply Z.mod_small. lia. }
  rewrite Hmid.
  assert (Hin : l <= l + (r - l) / 2 <= r).
  { assert (0 <= (r - l) / 2 <= r - l)
      by (split; [apply Z.div_pos | apply Z.div_le_upper_bound]; lia).
    lia. }
  set (m1 := l + (r - l) / 2) in *.
  destruct (m =? m1); [intros [= <- _]; lia |].
  destruct (SQLexec (SelectOlder m1 age) w) as [rc w1].
  destruct (rc =? SQLITE_OK); simpl; [| discriminate].
  destruct (rowidCallback 0 w1 =? 0).
  - assert (H1 : u64 (m1 - 1) = m1 - 1) by (unfold u64; apply Z.mod_small; lia).
    rewrite H1. apply IH; lia.
  - assert (H1 : u64 (m1 + 1) = m1 + 1) by (unfold u64; apply Z.mod_small; lia).
    rewrite H1. apply IH; lia.
Qed.

Section KeepUnsent.
Variable w0 : World.
Variables flags sent : Z.
Hypothesis keep_unsent : Z.land flags 1 <> 0.
Hypothesis sent_positive : 0 < sent.
Hypothesis rowids : forall x, x ∈ readings_1 w0 -> 1 <= rowid x < 2 ^ 63.

Lemma untouched_spared B w : untouched w0 w -> spared w0 B w.
Proof.
  intros (Hr & evs & He & Hd). split; [rewrite Hr; reflexivity |].
  exists evs. split; [exact He |]. intros b Hb. destruct (Hd b Hb).
Qed.

Lemma untouched_stable : stable (untouched w0).
Proof.
  split; intros; unfold untouched in *; simpl; try assumption.
  - destruct H as (Hr & evs & He & Hd). split; [exact Hr |].
    exists (evs ++ [Usleep us]). split; [rewrite He, app_assoc; reflexivity |].
    intros b Hb. apply elem_of_app in Hb as [Hb | Hb]; [apply (Hd b Hb) |].
    apply list_elem_of_singleton in Hb. discriminate.
  - destruct H as (Hr & evs & He & Hd). split; [exact Hr |].
    exists (evs ++ [SleepMs ms]). split; [rewrite He, app_assoc; reflexivity |].
    intros b Hb. apply elem_of_app in Hb as [Hb | Hb]; [apply (Hd b Hb) |].
    apply list_elem_of_singleton in Hb. discriminate.
Qed.

Lemma spared_stable B : stable (spared w0 B).
Proof.
  split; intros; unfold spared in *; simpl; try assumption.
  - destruct H as (Hr & evs & He & Hd). split; [exact Hr |].
    exists (evs ++ [Usleep us]). split; [rewrite He, app_assoc; reflexivity |].
    intros b Hb. apply elem_of_app in Hb as [Hb | Hb]; [apply (Hd b Hb) |].
    apply list_elem_of_singleton in Hb. discriminate.
  - destruct H as (Hr & evs & He & Hd). split; [exact Hr |].
    exists (evs ++ [SleepMs ms]). split; [rewrite He, app_assoc; reflexivity |].
    intros b Hb. apply elem_of_app in Hb as [Hb | Hb]; [apply (Hd b Hb) |].
    apply list_elem_of_singleton in Hb. discriminate.
Qed.

Lemma untouched_run s w : is_select s -> untouched w0 w -> untouched w0 (run s w).
Proof. apply run_select_stable, untouched_stable. Qed.

Lemma spared_run B s w :
  (match s with DeleteUpTo b => b <= B | _ => True end) ->
  spared w0 B w -> spared w0 B (run s w).
Proof.
  intros Hs Hw.
  destruct s; try (apply run_select_stable; [apply spared_stable | exact Logic.I | exact Hw]).
  destruct Hw as (Hr & evs & He & Hd). split; simpl.
  - rewrite <- Hr. rewrite list_filter_filter. apply list_filter_iff.
    intros x. lia.
  - exists (evs ++ [Delete bound]). split; [rewrite He, app_assoc; reflexivity |].
    intros b Hb. apply elem_of_app in Hb as [Hb | Hb]; [apply (Hd b Hb) |].
    apply list_elem_of_singleton in Hb. injection Hb as ->. exact Hs.
Qed.

Lemma spared_resize B avg w :
  spared w0 B w -> spared w0 B (set_purgeBlockSize (resize (purgeBlockSize w) avg) w).
Proof. intros H. exact H. Qed.

Lemma untouched_resize avg w :
  untouched w0 w -> untouched w0 (set_purgeBlockSize (resize (purgeBlockSize w) avg) w).
Proof. intros H. exact H. Qed.

(** What the two snapshot queries hand to the callback. *)
Lemma snapshot_max_read wp :
  untouched w0 wp -> rowidCallback 0 (run SelectMaxRowid wp) = snapshot_max w0.
Proof.
  intros (Hr & _). unfold rowidCallback, snapshot_max. simpl. rewrite Hr.
  destruct (sql_max (rowid <$> readings_1 w0)) as [v |] eqn:Hv; [| reflexivity].
  simpl. apply sql_max_elem in Hv. apply list_elem_of_fmap in Hv as (x & -> & Hx).
  specialize (rowids x Hx). unfold u64. apply Z.mod_small. lia.
Qed.

Lemma snapshot_min_read wp :
  untouched w0 wp -> rowidCallback 0 (run SelectMinRowid wp) = snapshot_min w0.
Proof.
  intros (Hr & _). unfold rowidCallback, snapshot_min. simpl. rewrite Hr.
  destruct (sql_min (rowid <$> readings_1 w0)) as [v |] eqn:Hv; [| reflexivity].
  simpl. apply sql_min_elem in Hv. apply list_elem_of_fmap in Hv as (x & -> & Hx).
  specialize (rowids x Hx). unfold u64. apply Z.mod_small. lia.
Qed.

Lemma snapshot_bounds :
  (snapshot_min w0 = 0 /\ snapshot_max w0 = 0)
  \/ (1 <= snapshot_min w0 /\ 1 <= snapshot_max w0 < 2 ^ 63).
Proof.
  unfold snapshot_min, snapshot_max.
  destruct (rowid <$> readings_1 w0) as [| v vs] eqn:Hv; [left; split; reflexivity |].
  right.
  destruct (sql_min (v :: vs)) as [a |] eqn:Ha; [| discriminate].
  destruct (sql_max (v :: vs)) as [b |] eqn:Hb; [| discriminate].
  apply sql_min_elem in Ha. apply sql_max_elem in Hb. rewrite <- Hv in Ha, Hb.
  apply list_elem_of_fmap in Ha as (x & -> & Hx).
  apply list_elem_of_fmap in Hb as (y & -> & Hy).
  pose proof (rowids x Hx). pose proof (rowids y Hy). simpl. lia.
Qed.

(** The clamp of line 1472. *)
Lemma search_ceiling_clamped l :
  search_ceiling flags sent (snapshot_max w0) l = Z.max (ceiling w0 sent) l.
Proof.
  unfold search_ceiling, ceiling.
  destruct (Z.eqb_spec (Z.land flags 1) 0) as [H | _]; [contradiction |].
  destruct (Z.eqb_spec sent 0) as [H | _]; [lia |]. reflexivity.
Qed.

Lemma purgeReadings_spares fuel age :
  triple (untouched w0) (purgeReadings fuel age flags sent)
         (fun _ => spared w0 (ceiling w0 sent)) (spared w0 (ceiling w0 sent)).
Proof.
  assert (Hsel : forall s w, is_select s -> untouched w0 w -> untouched w0 (run s w))
    by (intros; apply untouched_run; assumption).
  unfold purgeReadings.
  (* the snapshot *)
  eapply triple_bind with
    (Q := fun _ w => untouched w0 w /\ rowidCallback 0 w = snapshot_max w0)
    (E := spared w0 (ceiling w0 sent)).
  { intros w Hw.
    pose proof (exec_or_return_keeps (untouched w0) is_select untouched_stable Hsel
                  SelectMaxRowid Logic.I w Hw) as H.
    destruct (exec_or_return SelectMaxRowid w);
      [| apply untouched_spared; exact H | apply untouched_spared; exact H].
    destruct H as (wp & Hwp & ->). split; [apply Hsel; simpl; auto |].
    apply snapshot_max_read. exact Hwp. }
  intros ?.
  eapply triple_bind with (Q := fun lim w => untouched w0 w /\ lim = snapshot_max w0).
  { apply triple_get. intros w [Hw Hmax]. auto. }
  intros rowidLimit.
  eapply triple_bind with
    (Q := fun _ w => (untouched w0 w /\ rowidCallback 0 w = snapshot_min w0)
                     /\ rowidLimit = snapshot_max w0).
  { intros w [Hw Hlim].
    pose proof (exec_or_return_keeps (untouched w0) is_select untouched_stable Hsel
                  SelectMinRowid Logic.I w Hw) as H.
    destruct (exec_or_return SelectMinRowid w);
      [| apply untouched_spared; exact H | apply untouched_spared; exact H].
    destruct H as (wp & Hwp & ->). split; [| exact Hlim].
    split; [apply Hsel; simpl; auto |].
    apply snapshot_min_read. exact Hwp. }
  intros ?.
  eapply triple_bind with
    (Q := fun mn w => untouched w0 w /\ mn = snapshot_min w0
                      /\ rowidLimit = snapshot_max w0).
  { apply triple_get. intros w [[Hw Hmin] Hlim]. auto. }
  intros minrowidLimit.
  (* the age *)
  eapply triple_bind with
    (Q := fun _ w => untouched w0 w /\ minrowidLimit = snapshot_min w0
                     /\ rowidLimit = snapshot_max w0).
  { destruct (age =? 0); [| apply triple_get; auto].
    eapply triple_bind with
      (Q := fun _ w => untouched w0 w /\ minrowidLimit = snapshot_min w0
                       /\ rowidLimit = snapshot_max w0).
    { intros w (Hw & Hmin & Hlim).
      pose proof (exec_or_return_keeps' (untouched w0) is_select untouched_stable Hsel
                    (SelectOldestAge rowidLimit) Logic.I w Hw) as H.
      destruct (exec_or_return (SelectOldestAge rowidLimit) w);
        [auto | apply untouched_spared; exact H | apply untouched_spared; exact H]. }
    intros ?.
    eapply triple_bind with
      (Q := fun _ w => untouched w0 w /\ minrowidLimit = snapshot_min w0
                       /\ rowidLimit = snapshot_max w0);
      [apply triple_get; auto |].
    intros ?. apply triple_get; auto. }
  intros age1. cbv zeta.
  (* the search *)
  destruct (Z.eqb_spec minrowidLimit
              (search_ceiling flags sent rowidLimit minrowidLimit)) as [Heq | Hne].
  { apply triple_return0. intros w (Hw & _). apply untouched_spared. exact Hw. }
  eapply triple_bind with (Q := fun m w => untouched w0 w /\ m <= ceiling w0 sent).
  { intros w (Hw & -> & ->).
    rewrite search_ceiling_clamped in Hne |- *.
    pose proof snapshot_bounds as Hb. unfold ceiling in Hne |- *.
    pose proof (refine_keeps (untouched w0) is_select untouched_stable Hsel fuel age1
                  (snapshot_min w0) (Z.max (Z.min sent (snapshot_max w0)) (snapshot_min w0))
                  (snapshot_min w0) (fun _ _ => Logic.I) w Hw) as H.
    pose proof (refine_le (Z.min sent (snapshot_max w0)) fuel age1 (snapshot_min w0)
                  (Z.max (Z.min sent (snapshot_max w0)) (snapshot_min w0))
                  (snapshot_min w0) w) as Hle.
    destruct (refine fuel age1 (snapshot_min w0) _ (snapshot_min w0) w) as [m w1 | w1 | w1];
      [| apply untouched_spared; exact H | apply untouched_spared; exact H].
    split; [exact H |].
    apply (Hle m w1); try reflexivity; lia. }
  intros m.
  destruct (minrowidLimit =? m).
  { apply triple_return0. intros w (Hw & _). apply untouched_spared. exact Hw. }
  (* the count of unsent rows is skipped when the flag is set *)
  destruct (Z.eqb_spec (Z.land flags 1) 0) as [H0 | _]; [contradiction |].
  eapply triple_bind with (Q := fun _ w => spared w0 (ceiling w0 sent) w /\ m <= ceiling w0 sent).
  { apply triple_get. intros w (Hw & Hm). split; [apply untouched_spared |]; assumption. }
  intros unsentPurged0.
  (* the wait for the writers *)
  eapply triple_bind with (Q := fun _ w => spared w0 (ceiling w0 sent) w /\ m <= ceiling w0 sent).
  { intros w (Hw & Hm).
    pose proof (wait_for_writers_keeps (spared w0 (ceiling w0 sent))
                  (spared_stable (ceiling w0 sent)) fuel w Hw) as H.
    destruct (wait_for_writers fuel w); [split; assumption | exact H | exact H]. }
  intros _.
  (* the block loop *)
  eapply triple_bind with (Q := fun _ => spared w0 (ceiling w0 sent)).
  { intros w (Hw & Hm).
    apply (delete_blocks_keeps (spared w0 (ceiling w0 sent))
             (fun s => match s with DeleteUpTo b => b <= ceiling w0 sent | _ => True end)
             (spared_stable (ceiling w0 sent)) (spared_run (ceiling w0 sent))
             (spared_resize (ceiling w0 sent))
             fuel m).
    - intros b Hb. lia.
    - exact Hw. }
  intros st. apply triple_get. auto.
Qed.

End KeepUnsent.

(** On a table whose rowids are all positive the flag is honoured.  A
    purge with the keep-unsent flag and a non-zero [sent], on such a
    table: the ceiling of the search is [min(sent, snapshot max rowid)]
    (raised to the minimum rowid when below it), every DELETE that runs
    has a bound of at most that ceiling, and the rows with a rowid above
    [sent] are exactly those the table had before, wherever the purge
    stops. *)
Lemma purge_spares_rows_above_sent (fuel : nat) (age flags sent : Z) (w : World) :
  Z.land flags 1 <> 0 ->
  sent <> 0 ->
  0 <= sent < 2 ^ 64 ->
  (forall x, x ∈ readings_1 w -> 1 <= rowid x < 2 ^ 63) ->
  let w' := world_of (purgeReadings fuel age flags sent w) in
  let top := snapshot_max w in
  (forall l, search_ceiling flags sent top l = Z.max (Z.min sent top) l)
  /\ (exists evs, events w' = events w ++ evs
                  /\ forall b, Delete b ∈ evs -> b <= Z.min sent top)
  /\ filter (fun x => sent < rowid x) (readings_1 w')
      = filter (fun x => sent < rowid x) (readings_1 w).
Proof.
  intros Hflag Hsent Hrange Hrows. cbv zeta.
  assert (Hpos : 0 < sent) by lia.
  split; [intros l; apply (search_ceiling_clamped w flags sent Hflag Hpos) |].
  assert (Hstart : untouched w w).
  { split; [reflexivity |]. exists []. split; [rewrite app_nil_r; reflexivity |].
    intros b Hb. apply elem_of_nil in Hb. exact Hb. }
  pose proof (purgeReadings_spares w flags sent Hflag Hpos Hrows fuel age w Hstart) as H.
  assert (Hend : spared w (ceiling w sent)
                        (world_of (purgeReadings fuel age flags sent w))).
  { destruct (purgeReadings fuel age flags sent w); exact H. }
  destruct Hend as (Hfilter & Hevents). split; [exact Hevents |].
  assert (Hle : ceiling w sent <= sent) by (unfold ceiling; lia).
  assert (Hnarrow : forall rows : list Row,
             filter (fun x => sent < rowid x) rows
             = filter (fun x => sent < rowid x)
                      (filter (fun x => ceiling w sent < rowid x) rows)).
  { intros rows. rewrite list_filter_filter. apply list_filter_iff. intros x. lia. }
  rewrite (Hnarrow (readings_1 _)), Hfilter, <- Hnarrow. reflexivity.
Qed.

Example purge_spares_rows_above_25 :
  let w := example_world 100 0 in
  let w' := world_of (purgeReadings 100 60 1 25 w) in
  (exists evs, events w' = events w ++ evs /\ forall b, Delete b ∈ evs -> b <= 25)
  /\ filter (fun x => 25 < rowid x) (readings_1 w')
      = filter (fun x => 25 < rowid x) (readings_1 w).
Proof.
  cbv zeta.
  assert (Hrows : forall x, x ∈ readings_1 (example_world 100 0) -> 1 <= rowid x < 2 ^ 63).
  { intros x Hx. apply list_elem_of_fmap in Hx as (i & -> & Hi).
    apply elem_of_seqZ in Hi. simpl. lia. }
  destruct (purge_spares_rows_above_sent 100 60 1 25 (example_world 100 0))
    as (_ & Hevents & Hrest); [discriminate | discriminate | lia | exact Hrows |].
  split; [exact Hevents | exact Hrest].
Qed.

(** That purge does delete: rows 1 to 25 go, in two blocks. *)
Example purge_deletes_up_to_sent :
  let w' := world_of (purgeReadings 100 60 1 25 (example_world 100 0)) in
  events w' = [Delete 21; Delete 25]
  /\ rowid <$> readings_1 w' = seqZ 26 75.
Proof. vm_compute. split; reflexivity. Qed.

(** C3.  The rows above [sent] are not safe on a table whose lowest
    rowid is 0.  The search keeps rowids in [unsigned long]; with the
    keep-unsent flag set and [sent = 4], on the rows 0 to 10 of which 7
    to 10 are old, the search starts between 0 and [min(sent, 10) = 4],
    goes left at [m = 2] and again at [m = 0], where the step
    [r = m - 1] wraps to [2^64 - 1]; from there it halves its way down
    to rowid 10, above the ceiling, and the one DELETE removes every row
    of the table, the rows 5 to 10 above [sent] among them; 11 rows are
    reported as removed. *)
Theorem purge_deletes_unsent_rows_at_rowid_0 :
  let w := example_world_rowid_0 in
  let flags := 1 in
  let sent := 4 in
  Z.land flags 1 <> 0
  /\ sent <> 0
  /\ rowid <$> filter (fun x => sent < rowid x) (readings_1 w) = [5; 6; 7; 8; 9; 10]
  /\ search_ceiling flags sent (snapshot_max w) (snapshot_min w) = 4
  /\ exists res w',
       purgeReadings 200 60 flags sent w = Go (11, res) w'
       /\ events w' = [Delete 10]
       /\ readings_1 w' = []
       /\ filter (fun x => sent < rowid x) (readings_1 w') = [].
Proof.
  cbv zeta. split; [discriminate |]. split; [discriminate |].
  split; [vm_compute; reflexivity |]. split; [vm_compute; reflexivity |].
  destruct (purgeReadings 200 60 1 4 example_world_rowid_0) as [[n res] w' | w' | w'] eqn:Hrun;
    [| vm_compute in Hrun; discriminate | vm_compute in Hrun; discriminate].
  exists res, w'.
  assert (Hn : n = 11) by (vm_compute in Hrun; injection Hrun as <- _ _; reflexivity).
  assert (Hw : events w' = [Delete 10] /\ readings_1 w' = []).
  { vm_compute in Hrun. injection Hrun as _ _ <-. split; reflexivity. }
  subst n. destruct Hw as [He Hr]. rewrite Hr.
  split; [reflexivity |]. split; [exact He |]. split; reflexivity.
Qed.

End PurgeProperties.

(** ** The INSERT paths *)

Section InsertProperties.
Import Sqlite Int Retry Insert.

Lemma lookup_good e : lookup_event e -> good_event e.
Proof. destruct e as [[] | | | |]; simpl; tauto. Qed.

Lemma good_body e : good_event e -> body_event e.
Proof. destruct e as [[] | | | |]; simpl; tauto. Qed.

Lemma retry_body ins rc e : retry_event ins rc e -> body_event e.
Proof. destruct e as [[] | | | |]; simpl; tauto. Qed.

Lemma retry_good ins e : retry_event ins SQLITE_DONE e -> good_event e.
Proof. destruct e as [[] | | | |]; simpl; tauto. Qed.

Lemma body_not_txn e : body_event e -> is_txn e = false.
Proof. destruct e as [[] | | | |]; simpl; tauto. Qed.

Lemma grows_refl P c : grows P c c.
Proof. split; [reflexivity |]. exists []. rewrite app_nil_r. auto. Qed.

Lemma grows_trans P a b c : grows P a b -> grows P b c -> grows P a c.
Proof.
  intros (Hn1 & e1 & He1 & Hp1) (Hn2 & e2 & He2 & Hp2). split; [congruence |].
  exists (e1 ++ e2). rewrite He2, He1, app_assoc. split; [reflexivity |].
  apply Forall_app. auto.
Qed.

Lemma grows_weaken (P Q : Event -> Prop) c c' :
  (forall e, P e -> Q e) -> grows P c c' -> grows Q c c'.
Proof.
  intros H (Hn & evs & He & Hp). split; [exact Hn |]. exists evs. split; [exact He |].
  eapply Forall_impl; eauto.
Qed.

Lemma grows_log (P : Event -> Prop) e c : P e -> grows P c (log e c).
Proof. intros He. split; [reflexivity |]. exists [e]. simpl. auto. Qed.

Lemma grows_enter P c : grows P c (enter c).2.
Proof.
  unfold enter. destruct (next_fault (faults c)) as [f fs]. simpl.
  split; [reflexivity |]. exists []. rewrite app_nil_r. auto.
Qed.

Lemma inserted_app a b : inserted (a ++ b) = inserted a + inserted b.
Proof. unfold inserted. rewrite List.filter_app, length_app. lia. Qed.

Lemma inserted_lookup evs : Forall lookup_event evs -> inserted evs = 0.
Proof.
  induction 1 as [| e evs He _ IH]; [reflexivity |].
  change (e :: evs) with ([e] ++ evs). rewrite inserted_app, IH.
  destruct e as [[] | | | |]; simpl in He; try contradiction; reflexivity.
Qed.

(** *** The catalogue lookup *)

Lemma SQLexec_catalogue_grows t d a c :
  grows lookup_event c (SQLexec (InsertCatalogueRow t d a) c).2.
Proof.
  unfold SQLexec. apply retry_preserves.
  - apply grows_refl.
  - apply grows_trans.
  - intros s. unfold sqlite3_exec.
    pose proof (grows_enter lookup_event s) as H.
    destruct (enter s) as [f s1]. simpl in *.
    eapply grows_trans; [exact H |]. apply grows_log. exact Logic.I.
  - intros n s. apply grows_log. exact Logic.I.
Qed.

Lemma getReadingReference_grows a c :
  grows lookup_event c (getReadingReference a c).2.
Proof.
  unfold getReadingReference.
  destruct (m_AssetReadingCatalogue (cat c) !! a); [apply grows_refl |].
  match goal with
  | |- context [SQLexec ?cmd ?c0] =>
      pose proof (SQLexec_catalogue_grows
                    (i32 (getMaxReadingsId
                            (if isReadingAvailable (cat c) then cat c
                             else createReadingsTablesNewDB (cat c)) + 1))
                    (m_dbId (if isReadingAvailable (cat c) then cat c
                             else createReadingsTablesNewDB (cat c)))
                    a c0) as H;
      destruct (SQLexec cmd c0) as [rc c1]
  end.
  simpl in *. destruct H as (Hn & evs & He & Hp).
  split; [exact Hn |]. exists evs. split; [exact He | exact Hp].
Qed.

Lemma select_statement_grows a loc c :
  grows lookup_event c (select_statement a loc c).2.
Proof.
  unfold select_statement. destruct (String.eqb (lastAsset loc) a); [apply grows_refl |].
  pose proof (getReadingReference_grows a c) as H.
  destruct (getReadingReference a c) as [readingsId c1]. simpl in H.
  destruct (bool_decide (readingsId ∈ readingsStmt loc)); simpl; [exact H |].
  unfold sqlite3_prepare_v2.
  pose proof (grows_enter lookup_event c1) as H1.
  destruct (enter c1) as [f c2]. simpl in *.
  eapply grows_trans; [exact H |]. eapply grows_trans; [exact H1 |].
  apply grows_log. exact Logic.I.
Qed.

Lemma select_statement_row a loc c :
  row (select_statement a loc c).1 = row loc.
Proof.
  unfold select_statement. destruct (String.eqb (lastAsset loc) a); [reflexivity |].
  destruct (getReadingReference a c) as [readingsId c1].
  destruct (bool_decide (readingsId ∈ readingsStmt loc)); simpl; [reflexivity |].
  destruct (sqlite3_prepare_v2 readingsId c1). reflexivity.
Qed.

(** *** The retry of a prepared INSERT *)

Lemma steps_app a b : steps (a ++ b) = steps a + steps b.
Proof. unfold steps. rewrite List.filter_app, length_app. lia. Qed.

Lemma sleeps_app a b : sleeps (a ++ b) = sleeps a + sleeps b.
Proof. unfold sleeps. rewrite List.filter_app, length_app. lia. Qed.

Lemma random_range c : 0 <= (random c).1 < 2 ^ 31.
Proof.
  unfold random. destruct (randoms c); simpl; [lia |]. apply Z.mod_pos_bound. lia.
Qed.

(** One back-off: the counter goes up by one and one sleep of
    [PREP_CMD_RETRY_BASE] plus a jitter below [PREP_CMD_RETRY_BACKOFF] is
    logged. *)
Lemma back_off_spec retries c :
  exists ms,
    prep_sleep ms
    /\ (back_off retries c).1 = retries + 1
    /\ events (back_off retries c).2 = events c ++ [SleepMs ms]
    /\ now (back_off retries c).2 = now c
    /\ cat (back_off retries c).2 = cat c.
Proof.
  unfold back_off. pose proof (random_range c) as Hr.
  assert (Hsame : events (random c).2 = events c /\ now (random c).2 = now c
                  /\ cat (random c).2 = cat c).
  { unfold random. destruct (randoms c); simpl; auto. }
  destruct (random c) as [x c1]. simpl in *. destruct Hsame as (He & Hn & Hc).
  exists (PREP_CMD_RETRY_BASE + Z.rem x PREP_CMD_RETRY_BACKOFF).
  assert (0 <= Z.rem x PREP_CMD_RETRY_BACKOFF < PREP_CMD_RETRY_BACKOFF)
    by (apply Z.rem_bound_pos; unfold PREP_CMD_RETRY_BACKOFF; lia).
  unfold prep_sleep. rewrite He. repeat split; auto; lia.
Qed.

Lemma sqlite3_step_spec ins c :
  exists rc,
    (sqlite3_step ins c).1 = rc
    /\ events (sqlite3_step ins c).2 = events c ++ [Step ins rc]
    /\ now (sqlite3_step ins c).2 = now c
    /\ cat (sqlite3_step ins c).2 = cat c.
Proof.
  unfold sqlite3_step, enter. destruct (next_fault (faults c)) as [f fs]. simpl.
  eexists. repeat split.
Qed.

(** The shape of the loop: the status, and the events it adds. *)
Lemma step_loop_trace ins :
  forall (fuel : nat) (retries : Z) (c : Conn),
    0 <= retries ->
    (1 <= fuel)%nat ->
    PREP_CMD_MAX_RETRIES - retries <= Z.of_nat fuel ->
    exists rc c' evs,
      step_loop fuel ins retries c = Some (rc, c')
      /\ now c' = now c
      /\ cat c' = cat c
      /\ events c' = events c ++ evs
      /\ Forall (retry_event ins rc) evs
      /\ inserted evs = (if rc =? SQLITE_DONE then 1 else 0)
      /\ 1 <= steps evs <= Z.max 1 (PREP_CMD_MAX_RETRIES - retries)
      /\ sleeps evs <= steps evs.
Proof.
  induction fuel as [| fuel IH]; intros retries c Hr Hfuel Hmax; [lia |].
  simpl.
  destruct (sqlite3_step_spec ins c) as (rc & Hrc & He1 & Hn1 & Hc1).
  destruct (sqlite3_step ins c) as [rc0 c1]. simpl in Hrc, He1, Hn1, Hc1. subst rc0.
  destruct (locked_or_busy rc) eqn:Hb.
  - (* BUSY or LOCKED: exactly one back-off *)
    assert (Hback : exists ms c3,
               prep_sleep ms
               /\ back_off_if rc SQLITE_BUSY (back_off_if rc SQLITE_LOCKED (retries, c1))
                  = (retries + 1, c3)
               /\ events c3 = events c1 ++ [SleepMs ms]
               /\ now c3 = now c1 /\ cat c3 = cat c1).
    { unfold locked_or_busy in Hb. unfold back_off_if.
      destruct (Z.eqb_spec rc SQLITE_LOCKED) as [-> | Hnl].
      - change (SQLITE_LOCKED =? SQLITE_BUSY) with false. cbv iota. cbn [fst snd].
        destruct (back_off_spec retries c1) as (ms & Hms & Hk & He & Hn & Hc).
        destruct (back_off retries c1) as [k c2]. simpl in *. subst k.
        exists ms, c2. auto.
      - destruct (Z.eqb_spec rc SQLITE_BUSY) as [-> | Hnb]; [| discriminate].
        cbn [fst snd].
        destruct (back_off_spec retries c1) as (ms & Hms & Hk & He & Hn & Hc).
        destruct (back_off retries c1) as [k c2]. simpl in *. subst k.
        exists ms, c2. auto. }
    destruct Hback as (ms & c3 & Hms & Heq & He3 & Hn3 & Hc3). rewrite Heq.
    assert (Hnd : (rc =? SQLITE_DONE) = false).
    { unfold locked_or_busy in Hb. apply Z.eqb_neq. intros ->. discriminate. }
    destruct (Z.ltb_spec (retries + 1) PREP_CMD_MAX_RETRIES) as [Hlt | Hge]; simpl.
    + destruct (IH (retries + 1) c3)
        as (rc' & c' & evs & Hrun & Hn & Hc & He & Hall & Hins & Hst & Hsl);
        [lia | lia | lia |].
      exists rc', c', ([Step ins rc; SleepMs ms] ++ evs). rewrite Hrun.
      split; [reflexivity |]. split; [congruence |]. split; [congruence |].
      split; [rewrite He, He3, He1, <- !app_assoc; reflexivity |].
      split.
      { apply Forall_app. split; [| exact Hall].
        apply Forall_cons. split; [simpl; auto |].
        apply Forall_cons. split; [exact Hms | constructor]. }
      split.
      { rewrite inserted_app, Hins. unfold inserted. simpl. rewrite Hnd. simpl. lia. }
      rewrite steps_app, sleeps_app.
      change (steps [Step ins rc; SleepMs ms]) with 1.
      change (sleeps [Step ins rc; SleepMs ms]) with 1. lia.
    + exists rc, c3, [Step ins rc; SleepMs ms].
      split; [reflexivity |]. split; [congruence |]. split; [congruence |].
      split; [rewrite He3, He1, <- app_assoc; reflexivity |].
      split.
      { apply Forall_cons. split; [simpl; auto |].
        apply Forall_cons. split; [exact Hms | constructor]. }
      split; [unfold inserted; simpl; rewrite Hnd; reflexivity |].
      change (steps [Step ins rc; SleepMs ms]) with 1.
      change (sleeps [Step ins rc; SleepMs ms]) with 1. lia.
  - (* any other status ends the loop, without a sleep *)
    assert (Hl : (rc =? SQLITE_LOCKED) = false /\ (rc =? SQLITE_BUSY) = false).
    { unfold locked_or_busy in Hb. apply orb_false_iff in Hb. exact Hb. }
    unfold back_off_if. destruct Hl as [-> ->]. rewrite andb_false_r.
    exists rc, c1, [Step ins rc].
    split; [reflexivity |]. split; [exact Hn1 |]. split; [exact Hc1 |].
    split; [exact He1 |].
    split; [apply Forall_cons; split; [simpl; auto | constructor] |].
    split; [unfold inserted; simpl; destruct (rc =? SQLITE_DONE); reflexivity |].
    change (steps [Step ins rc]) with 1. change (sleeps [Step ins rc]) with 0. lia.
Qed.

Lemma step_with_retry_trace ins c :
  exists evs,
    let rc := (step_with_retry ins c).1 in
    let c' := (step_with_retry ins c).2 in
    now c' = now c
    /\ cat c' = cat c
    /\ events c' = events c ++ evs
    /\ Forall (retry_event ins rc) evs
    /\ inserted evs = (if rc =? SQLITE_DONE then 1 else 0)
    /\ 1 <= steps evs <= PREP_CMD_MAX_RETRIES
    /\ sleeps evs <= steps evs.
Proof.
  destruct (step_loop_trace ins (Z.to_nat PREP_CMD_MAX_RETRIES) 0 c)
    as (rc & c' & evs & Hrun & H); [lia | vm_compute; lia | vm_compute; discriminate |].
  exists evs. unfold step_with_retry. rewrite Hrun. simpl.
  replace (Z.max 1 (PREP_CMD_MAX_RETRIES - 0)) with PREP_CMD_MAX_RETRIES in H
    by (vm_compute; reflexivity).
  exact H.
Qed.

(** *** The loops over the batch *)

Lemma sqlite3_exec_event cmd c :
  exists rc,
    (sqlite3_exec cmd c).1 = rc
    /\ events (sqlite3_exec cmd c).2 = events c ++ [Exec cmd rc]
    /\ now (sqlite3_exec cmd c).2 = now c.
Proof.
  unfold sqlite3_exec, enter. destruct (next_fault (faults c)) as [f fs]. simpl.
  eexists. repeat split.
Qed.


Lemma retry_done_good ins rc evs :
  rc = SQLITE_DONE -> Forall (retry_event ins rc) evs -> Forall good_event evs.
Proof. intros -> H. eapply Forall_impl; [exact H | apply retry_good]. Qed.

(** What the loop of [appendReadings] adds to the log, and what it makes
    of [row]. *)
Lemma append_loop_trace fd els :
  forall loc c,
    exists evs,
      now (append_loop fd els loc c).2 = now c
      /\ events (append_loop fd els loc c).2 = events c ++ evs
      /\ match (append_loop fd els loc c).1 with
         | Some loc' => Forall good_event evs /\ row loc' = row loc + inserted evs
         | None =>
             exists body rc0, evs = body ++ [Exec Rollback rc0] /\ Forall body_event body
         end.
Proof.
  induction els as [| e rest IH]; intros loc c; cbn [append_loop].
  - exists []. cbn [fst snd]. rewrite app_nil_r.
    repeat split; [constructor | unfold inserted; simpl; lia].
  - destruct e as [| r].
    + destruct (sqlite3_exec_event Rollback c) as (rc & _ & He & Hn).
      destruct (sqlite3_exec Rollback c) as [rc0 c1]. simpl in *.
      exists [Exec Rollback rc]. split; [exact Hn |]. split; [exact He |].
      exists [], rc. split; [reflexivity | constructor].
    + destruct (date_to_bind fd (user_ts r) c) as [date |]; [| apply IH].
      pose proof (select_statement_grows (asset_code r) loc c) as (Hn1 & evs1 & He1 & Hl1).
      pose proof (select_statement_row (asset_code r) loc c) as Hrow1.
      destruct (select_statement (asset_code r) loc c) as [loc1 c1]. simpl in Hn1, He1, Hrow1.
      destruct (stmt loc1) as [t |].
      * (* a statement is at hand: bind and step *)
        assert (Hc2 : events (getGlobalId c1).2 = events c1
                      /\ now (getGlobalId c1).2 = now c1) by (split; reflexivity).
        destruct (getGlobalId c1) as [g c2]. cbn [snd] in Hc2. destruct Hc2 as [He2 Hn2].
        set (ins := mkInsertion t (Some g) (asset_code r) date (reading r)).
        destruct (step_with_retry_trace ins c2)
          as (evs3 & Hn3 & _ & He3 & Hall3 & Hins3 & _).
        destruct (step_with_retry ins c2) as [rc c3]. simpl in Hn3, He3, Hall3, Hins3.
        destruct (Z.eqb_spec rc SQLITE_DONE) as [Hdone | Hfail].
        -- specialize (IH (mkLocals (row loc1 + 1) (lastAsset loc1) (Some t)
                                    (readingsStmt loc1)) c3).
           destruct IH as (evs4 & Hn4 & He4 & Hres).
           exists (evs1 ++ evs3 ++ evs4).
           split; [congruence |].
           split; [rewrite He4, He3, He2, He1, <- !app_assoc; reflexivity |].
           destruct (append_loop fd rest _ c3).1 as [loc' |].
           ++ destruct Hres as [Hgood Hrow]. split.
              ** apply Forall_app. split; [eapply Forall_impl; [exact Hl1 | apply lookup_good] |].
                 apply Forall_app. split; [eapply retry_done_good; eauto | exact Hgood].
              ** rewrite Hrow. cbn [row]. rewrite !inserted_app, Hins3, Hrow1.
                 rewrite (inserted_lookup evs1 Hl1). lia.
           ++ destruct Hres as (body & rc0 & -> & Hbody).
              exists (evs1 ++ evs3 ++ body), rc0. split; [rewrite <- !app_assoc; reflexivity |].
              apply Forall_app. split.
              { eapply Forall_impl; [exact Hl1 |]. intros e He. apply good_body, lookup_good, He. }
              apply Forall_app. split; [| exact Hbody].
              eapply Forall_impl; [exact Hall3 | apply retry_body].
        -- destruct (sqlite3_exec_event Rollback c3) as (rc0 & _ & He4 & Hn4).
           destruct (sqlite3_exec Rollback c3) as [rc1 c4]. simpl in *.
           exists (evs1 ++ evs3 ++ [Exec Rollback rc0]).
           split; [congruence |].
           split; [rewrite He4, He3, He2, He1, <- !app_assoc; reflexivity |].
           exists (evs1 ++ evs3), rc0. split; [rewrite <- app_assoc; reflexivity |].
           apply Forall_app. split.
           { eapply Forall_impl; [exact Hl1 |]. intros e He. apply good_body, lookup_good, He. }
           eapply Forall_impl; [exact Hall3 | apply retry_body].
      * (* no statement: the reading is passed over *)
        specialize (IH loc1 c1). destruct IH as (evs4 & Hn4 & He4 & Hres).
        exists (evs1 ++ evs4).
        split; [congruence |].
        split; [rewrite He4, He1, <- app_assoc; reflexivity |].
        destruct (append_loop fd rest loc1 c1).1 as [loc' |].
        -- destruct Hres as [Hgood Hrow]. split.
           ++ apply Forall_app. split; [eapply Forall_impl; [exact Hl1 | apply lookup_good] |].
              exact Hgood.
           ++ rewrite Hrow, Hrow1, inserted_app, (inserted_lookup evs1 Hl1). lia.
        -- destruct Hres as (body & rc0 & -> & Hbody).
           exists (evs1 ++ body), rc0. split; [rewrite <- app_assoc; reflexivity |].
           apply Forall_app. split; [| exact Hbody].
           eapply Forall_impl; [exact Hl1 |]. intros e He. apply good_body, lookup_good, He.
Qed.


Lemma stream_loop_trace fd rs :
  forall i n c,
    exists evs,
      now (stream_loop fd rs i n c).2 = now c
      /\ events (stream_loop fd rs i n c).2 = events c ++ evs
      /\ match (stream_loop fd rs i n c).1 with
         | Some (i', n') =>
             Forall good_event evs
             /\ i' = i + Z.of_nat (length rs)
             /\ n' = n + inserted evs
         | None =>
             exists body rc0, evs = body ++ [Exec Rollback rc0] /\ Forall body_event body
         end.
Proof.
  induction rs as [| e rest IH]; intros i n c; cbn [stream_loop].
  - exists []. cbn [fst snd length]. rewrite app_nil_r.
    repeat split; [constructor | lia | unfold inserted; simpl; lia].
  - destruct (date_to_bind fd (userTs e) c) as [date |].
    + set (ins := mkInsertion 1 None (assetCode e) date (streamPayload e)).
      destruct (step_with_retry_trace ins c) as (evs3 & Hn3 & _ & He3 & Hall3 & Hins3 & _).
      destruct (step_with_retry ins c) as [rc c3]. simpl in Hn3, He3, Hall3, Hins3.
      destruct (Z.eqb_spec rc SQLITE_DONE) as [Hdone | Hfail].
      * specialize (IH (i + 1) (n + 1) c3). destruct IH as (evs4 & Hn4 & He4 & Hres).
        exists (evs3 ++ evs4). split; [congruence |].
        split; [rewrite He4, He3, <- app_assoc; reflexivity |].
        destruct (stream_loop fd rest (i + 1) (n + 1) c3).1 as [[i' n'] |].
        -- destruct Hres as (Hgood & Hi & Hrow). split.
           ++ apply Forall_app. split; [eapply retry_done_good; eauto | exact Hgood].
           ++ rewrite inserted_app, Hins3. cbn [length]. lia.
        -- destruct Hres as (body & rc0 & -> & Hbody).
           exists (evs3 ++ body), rc0. split; [rewrite <- app_assoc; reflexivity |].
           apply Forall_app. split; [| exact Hbody].
           eapply Forall_impl; [exact Hall3 | apply retry_body].
      * destruct (sqlite3_exec_event Rollback c3) as (rc0 & _ & He4 & Hn4).
        destruct (sqlite3_exec Rollback c3) as [rc1 c4]. simpl in *.
        exists (evs3 ++ [Exec Rollback rc0]). split; [congruence |].
        split; [rewrite He4, He3, <- app_assoc; reflexivity |].
        exists evs3, rc0. split; [reflexivity |].
        eapply Forall_impl; [exact Hall3 | apply retry_body].
    + specialize (IH (i + 1) n c). destruct IH as (evs4 & Hn4 & He4 & Hres).
      exists evs4. split; [exact Hn4 |]. split; [exact He4 |].
      destruct (stream_loop fd rest (i + 1) n c).1 as [[i' n'] |]; [| exact Hres].
      destruct Hres as (Hgood & Hi & Hrow). cbn [length]. repeat split; [exact Hgood | lia | lia].
Qed.

(** *** The shape of a prepared INSERT and of a batch *)

Lemma back_off_if_busy rc retries c :
  locked_or_busy rc = true ->
  exists ms,
    prep_sleep ms
    /\ (back_off_if rc SQLITE_BUSY (back_off_if rc SQLITE_LOCKED (retries, c))).1 = retries + 1
    /\ events (back_off_if rc SQLITE_BUSY (back_off_if rc SQLITE_LOCKED (retries, c))).2
       = events c ++ [SleepMs ms].
Proof.
  intros Hb. unfold locked_or_busy in Hb. unfold back_off_if.
  destruct (Z.eqb_spec rc SQLITE_LOCKED) as [-> | Hnl].
  - change (SQLITE_LOCKED =? SQLITE_BUSY) with false. cbv iota. cbn [fst snd].
    destruct (back_off_spec retries c) as (ms & Hms & Hk & He & _). eauto.
  - destruct (Z.eqb_spec rc SQLITE_BUSY) as [-> | Hnb]; [| discriminate].
    cbn [fst snd].
    destruct (back_off_spec retries c) as (ms & Hms & Hk & He & _). eauto.
Qed.

Lemma back_off_if_other rc rs :
  locked_or_busy rc = false ->
  back_off_if rc SQLITE_BUSY (back_off_if rc SQLITE_LOCKED rs) = rs.
Proof.
  unfold locked_or_busy, back_off_if. intros Hb. apply orb_false_iff in Hb as [-> ->].
  reflexivity.
Qed.

(** The loop entered with [retries] below the maximum: every step
    answered BUSY or LOCKED is followed by its sleep and counted, and the
    loop ends on the first other status or when the count reaches the
    maximum. *)
Lemma step_loop_shape ins :
  forall (fuel : nat) (retries : Z) (c : Conn),
    0 <= retries < PREP_CMD_MAX_RETRIES ->
    PREP_CMD_MAX_RETRIES - retries <= Z.of_nat fuel ->
    exists rc c' busy final,
      step_loop fuel ins retries c = Some (rc, c')
      /\ events c' = events c ++ flat_map (retried ins) busy ++ final
      /\ Forall (fun p => locked_or_busy p.1 = true /\ prep_sleep p.2) busy
      /\ ((final = [Step ins rc] /\ locked_or_busy rc = false
           /\ retries + Z.of_nat (length busy) < PREP_CMD_MAX_RETRIES)
          \/ (final = [] /\ retries + Z.of_nat (length busy) = PREP_CMD_MAX_RETRIES
              /\ exists ms, last busy = Some (rc, ms))).
Proof.
  induction fuel as [| fuel IH]; intros retries c Hr Hmax; [lia |].
  cbn [step_loop].
  destruct (sqlite3_step_spec ins c) as (rc & Hrc & He1 & _).
  destruct (sqlite3_step ins c) as [rc0 c1]. cbn [fst snd] in Hrc, He1. subst rc0.
  destruct (locked_or_busy rc) eqn:Hb.
  - destruct (back_off_if_busy rc retries c1 Hb) as (ms & Hms & Hk & He2).
    destruct (back_off_if rc SQLITE_BUSY _) as [k c2]. cbn [fst snd] in Hk, He2. subst k.
    destruct (Z.ltb_spec (retries + 1) PREP_CMD_MAX_RETRIES) as [Hlt | Hge]; cbn [andb].
    + destruct (IH (retries + 1) c2 ltac:(lia) ltac:(lia))
        as (rc' & c' & busy & final & Hrun & He & Hall & Hend).
      exists rc', c', ((rc, ms) :: busy), final. rewrite Hrun.
      split; [reflexivity |].
      split; [rewrite He, He2, He1; cbn [flat_map retried fst snd];
              rewrite <- !app_assoc; reflexivity |].
      split; [constructor; [split; assumption | exact Hall] |].
      cbn [length]. destruct Hend as [(Hf & Hnb & Hn) | (Hf & Hn & ms' & Hlast)].
      * left. split; [exact Hf |]. split; [exact Hnb | lia].
      * right. split; [exact Hf |]. split; [lia |]. exists ms'.
        destruct busy as [| p busy']; [discriminate | exact Hlast].
    + exists rc, c2, [(rc, ms)], [].
      split; [reflexivity |].
      split; [rewrite He2, He1; cbn [flat_map retried fst snd];
              rewrite <- !app_assoc; reflexivity |].
      split; [constructor; [split; assumption | constructor] |].
      right. split; [reflexivity |]. split; [cbn [length]; lia |]. exists ms. reflexivity.
  - rewrite back_off_if_other by exact Hb. rewrite andb_false_r.
    exists rc, c1, [], [Step ins rc].
    split; [reflexivity |]. split; [exact He1 |]. split; [constructor |].
    left. split; [reflexivity |]. split; [exact Hb |]. cbn [length]. lia.
Qed.

Lemma step_with_retry_attempt ins c :
  exists evs,
    events (step_with_retry ins c).2 = events c ++ evs
    /\ insert_attempt ins (step_with_retry ins c).1 evs.
Proof.
  destruct (step_loop_shape ins (Z.to_nat PREP_CMD_MAX_RETRIES) 0 c)
    as (rc & c' & busy & final & Hrun & He & Hall & Hend);
    [vm_compute; split; [discriminate | reflexivity] | vm_compute; discriminate |].
  unfold step_with_retry. rewrite Hrun. cbn [fst snd].
  exists (flat_map (retried ins) busy ++ final). split; [exact He |].
  exists busy, final. split; [reflexivity |]. split; [exact Hall |].
  rewrite !Z.add_0_l in Hend. exact Hend.
Qed.

Lemma steps_retried ins busy :
  steps (flat_map (retried ins) busy) = Z.of_nat (length busy).
Proof.
  induction busy as [| p busy IH]; [reflexivity |].
  cbn [flat_map]. rewrite steps_app, IH. cbn [length].
  change (steps (retried ins p)) with 1. lia.
Qed.

(** An INSERT makes between one and [PREP_CMD_MAX_RETRIES] steps. *)
Lemma attempt_steps ins rc evs :
  insert_attempt ins rc evs -> 1 <= steps evs <= PREP_CMD_MAX_RETRIES.
Proof.
  intros (busy & final & -> & _ & [(-> & _ & Hn) | (-> & Hn & _)]);
    rewrite steps_app, steps_retried.
  - change (steps [Step ins rc]) with 1. lia.
  - change (steps []) with 0. rewrite Hn. vm_compute. split; discriminate.
Qed.

Lemma attempt_retry_events ins rc evs :
  insert_attempt ins rc evs -> Forall (retry_event ins rc) evs.
Proof.
  intros (busy & final & -> & Hall & Hend). apply Forall_app. split.
  - clear Hend. induction Hall as [| p busy [Hb Hms] _ IH]; [constructor |].
    cbn [flat_map retried]. constructor; [simpl; auto |]. constructor; [exact Hms | exact IH].
  - destruct Hend as [(-> & _) | (-> & _)]; [| constructor].
    constructor; [simpl; auto | constructor].
Qed.

Lemma attempt_sleeps_follow ins rc evs rest :
  insert_attempt ins rc evs -> sleeps_follow rest -> sleeps_follow (evs ++ rest).
Proof.
  intros (busy & final & -> & Hall & Hend) Hrest. rewrite <- app_assoc.
  assert (Hfinal : sleeps_follow (final ++ rest)).
  { destruct Hend as [(-> & Hnb & _) | (-> & _)]; [| exact Hrest].
    cbn. split; [congruence | exact Hrest]. }
  clear Hend. induction Hall as [| p busy [Hb Hms] _ IH]; [exact Hfinal |].
  cbn. split; [intros _; exact Hms | exact IH].
Qed.

Lemma lookup_sleeps_follow e rest :
  lookup_event e -> sleeps_follow rest -> sleeps_follow (e :: rest).
Proof. destruct e as [[] | | | |]; simpl; intros H Hrest; try contradiction; exact Hrest. Qed.

Lemma inserts_sleeps_follow body rcs rest :
  inserts body rcs -> sleeps_follow rest -> sleeps_follow (body ++ rest).
Proof.
  intros Hb Hrest. induction Hb as [| e evs rcs He _ IH | ins rc att evs rcs Hatt _ IH].
  - exact Hrest.
  - apply lookup_sleeps_follow; assumption.
  - rewrite <- app_assoc. eapply attempt_sleeps_follow; eassumption.
Qed.

Lemma inserts_lookups evs1 evs rcs :
  Forall lookup_event evs1 -> inserts evs rcs -> inserts (evs1 ++ evs) rcs.
Proof.
  induction 1 as [| e evs1 He _ IH]; intros Hi; [exact Hi |].
  cbn. constructor; [exact He | apply IH, Hi].
Qed.

Lemma inserts_body body rcs : inserts body rcs -> Forall body_event body.
Proof.
  induction 1 as [| e evs rcs He _ IH | ins rc att evs rcs Hatt _ IH].
  - constructor.
  - constructor; [apply good_body, lookup_good, He | exact IH].
  - apply Forall_app. split; [| exact IH].
    eapply Forall_impl; [apply (attempt_retry_events ins rc), Hatt | apply retry_body].
Qed.

Lemma attempt_inserted ins rc att :
  insert_attempt ins rc att -> inserted att = (if rc =? SQLITE_DONE then 1 else 0).
Proof.
  intros (busy & final & -> & Hall & Hend). rewrite inserted_app.
  assert (Hbusy : inserted (flat_map (retried ins) busy) = 0).
  { clear Hend. induction Hall as [| p busy [Hb _] _ IH]; [reflexivity |].
    cbn [flat_map]. rewrite inserted_app, IH.
    unfold inserted, retried. cbn.
    destruct (Z.eqb_spec p.1 SQLITE_DONE) as [Heq | _]; [| reflexivity].
    rewrite Heq in Hb. discriminate. }
  rewrite Hbusy.
  destruct Hend as [(-> & _) | (-> & _ & ms & Hlast)].
  - unfold inserted. cbn. destruct (rc =? SQLITE_DONE); reflexivity.
  - unfold inserted. cbn.
    destruct (Z.eqb_spec rc SQLITE_DONE) as [-> | _]; [| reflexivity].
    apply last_Some in Hlast as (busy' & ->).
    apply Forall_app in Hall as [_ Hp]. inversion Hp as [| ? ? [Hb _] _]; subst.
    discriminate.
Qed.

(** With every INSERT done, the rows inserted are as many as the
    INSERTs. *)
Lemma inserts_inserted body rcs :
  inserts body rcs -> all_done rcs -> inserted body = Z.of_nat (length rcs).
Proof.
  induction 1 as [| e evs rcs He _ IH | ins rc att evs rcs Hatt _ IH]; intros Hdone.
  - reflexivity.
  - change (e :: evs) with ([e] ++ evs). rewrite inserted_app, (IH Hdone).
    rewrite (inserted_lookup [e]) by (constructor; [exact He | constructor]). lia.
  - inversion Hdone as [| ? ? Hrc Hrest]; subst.
    rewrite inserted_app, (IH Hrest), (attempt_inserted _ _ _ Hatt).
    change (SQLITE_DONE =? SQLITE_DONE) with true. cbn [length]. lia.
Qed.

Lemma failed_insert_after pre done body :
  inserts pre done -> all_done done -> failed_insert body -> failed_insert (pre ++ body).
Proof.
  intros Hpre Hdone (pre' & done' & ins & rc & att & -> & Hpre' & Hdone' & Hatt & Hrc).
  exists (pre ++ pre'), (done ++ done'), ins, rc, att.
  split; [rewrite app_assoc; reflexivity |].
  split; [| split; [apply Forall_app; split; assumption | split; assumption]].
  clear Hdone. induction Hpre as [| e evs rcs He _ IH | ins0 rc0 att0 evs rcs Hatt0 _ IH].
  - exact Hpre'.
  - cbn. constructor; assumption.
  - rewrite <- app_assoc. eapply inserts_attempt; eassumption.
Qed.

Lemma failed_insert_body body : failed_insert body -> Forall body_event body.
Proof.
  intros (pre & done & ins & rc & att & -> & Hpre & _ & Hatt & _).
  apply Forall_app. split; [eapply inserts_body; eassumption |].
  eapply Forall_impl; [apply (attempt_retry_events ins rc), Hatt | apply retry_body].
Qed.

Lemma inserts_app a ra b rb :
  inserts a ra -> inserts b rb -> inserts (a ++ b) (ra ++ rb).
Proof.
  intros Ha Hb. induction Ha as [| e evs rcs He _ IH | ins rc att evs rcs Hatt _ IH].
  - exact Hb.
  - cbn. constructor; assumption.
  - rewrite <- app_assoc. cbn. eapply inserts_attempt; eassumption.
Qed.

Lemma failed_insert_inserts body : failed_insert body -> exists rcs, inserts body rcs.
Proof.
  intros (pre & done & ins & rc & att & -> & Hpre & _ & Hatt & _).
  exists (done ++ [rc]). apply inserts_app; [exact Hpre |].
  rewrite <- (app_nil_r att). eapply inserts_attempt; [exact Hatt | constructor].
Qed.

Lemma failed_insert_sleeps_follow body rest :
  failed_insert body -> sleeps_follow rest -> sleeps_follow (body ++ rest).
Proof.
  intros (pre & done & ins & rc & att & -> & Hpre & _ & Hatt & _) Hrest.
  rewrite <- app_assoc. eapply inserts_sleeps_follow; [eassumption |].
  eapply attempt_sleeps_follow; eassumption.
Qed.

(** *** The loops over the batch, as shapes *)

Lemma append_loop_shape fd els :
  forall loc c,
    exists evs,
      events (append_loop fd els loc c).2 = events c ++ evs
      /\ match (append_loop fd els loc c).1 with
         | Some _ => exists rcs, inserts evs rcs /\ all_done rcs /\ NotAnObject ∉ els
         | None =>
             exists body rc0,
               evs = body ++ [Exec Rollback rc0]
               /\ (failed_insert body
                   \/ exists rcs, inserts body rcs /\ all_done rcs /\ NotAnObject ∈ els)
         end.
Proof.
  induction els as [| e rest IH]; intros loc c; cbn [append_loop].
  - exists []. cbn [fst snd]. rewrite app_nil_r. split; [reflexivity |].
    exists []. split; [constructor |]. split; [constructor |]. apply not_elem_of_nil.
  - destruct e as [| r].
    + destruct (sqlite3_exec_event Rollback c) as (rc & _ & He & _).
      destruct (sqlite3_exec Rollback c) as [rc0 c1]. cbn [fst snd] in *.
      exists [Exec Rollback rc]. split; [exact He |].
      exists [], rc. split; [reflexivity |]. right.
      exists []. split; [constructor |]. split; [constructor |]. apply list_elem_of_here.
    + assert (Hskip : forall rest', NotAnObject ∉ rest' -> NotAnObject ∉ Object r :: rest').
      { intros rest' H Hin. apply elem_of_cons in Hin as [Hin | Hin]; [discriminate | auto]. }
      assert (Hkeep : forall rest', NotAnObject ∈ rest' -> NotAnObject ∈ Object r :: rest')
        by (intros rest' H; apply list_elem_of_further, H).
      destruct (date_to_bind fd (user_ts r) c) as [date |].
      2:{ destruct (IH loc c) as (evs & He & Hres). exists evs. split; [exact He |].
          destruct (append_loop fd rest loc c).1.
          - destruct Hres as (rcs & Hi & Hd & Hn). eauto 6.
          - destruct Hres as (body & rc0 & -> & [Hf | (rcs & Hi & Hd & Hn)]);
              exists body, rc0; (split; [reflexivity |]); [left; exact Hf | right; eauto 6]. }
      pose proof (select_statement_grows (asset_code r) loc c) as (_ & evs1 & He1 & Hl1).
      destruct (select_statement (asset_code r) loc c) as [loc1 c1]. cbn [snd] in He1.
      destruct (stmt loc1) as [t |].
      * assert (He2 : events (getGlobalId c1).2 = events c1) by reflexivity.
        destruct (getGlobalId c1) as [g c2]. cbn [snd] in He2.
        set (ins := mkInsertion t (Some g) (asset_code r) date (reading r)).
        destruct (step_with_retry_attempt ins c2) as (evs3 & He3 & Hatt).
        destruct (step_with_retry ins c2) as [rc c3]. cbn [fst snd] in He3, Hatt.
        destruct (Z.eqb_spec rc SQLITE_DONE) as [Hdone | Hfail].
        -- subst rc.
           match goal with
           | |- context [append_loop fd rest ?l c3] => destruct (IH l c3) as (evs4 & He4 & Hres);
               destruct (append_loop fd rest l c3) as [res c4]
           end.
           cbn [fst snd] in *.
           exists (evs1 ++ evs3 ++ evs4).
           split; [rewrite He4, He3, He2, He1, <- !app_assoc; reflexivity |].
           assert (Hpre : inserts (evs1 ++ evs3) [SQLITE_DONE]).
           { apply inserts_lookups; [exact Hl1 |].
             rewrite <- (app_nil_r evs3). econstructor; [exact Hatt | constructor]. }
           assert (Hpd : all_done [SQLITE_DONE]) by (constructor; [reflexivity | constructor]).
           destruct res.
           ++ destruct Hres as (rcs & Hi & Hd & Hn). exists (SQLITE_DONE :: rcs).
              split; [| split; [constructor; [reflexivity | exact Hd] | auto]].
              apply inserts_lookups; [exact Hl1 |]. econstructor; eassumption.
           ++ destruct Hres as (body & rc0 & -> & Hshape).
              exists (evs1 ++ evs3 ++ body), rc0.
              split; [rewrite <- !app_assoc; reflexivity |].
              destruct Hshape as [Hf | (rcs & Hi & Hd & Hn)].
              ** left. rewrite app_assoc. apply (failed_insert_after _ _ _ Hpre Hpd Hf).
              ** right. exists (SQLITE_DONE :: rcs).
                 split; [| split; [constructor; [reflexivity | exact Hd] | auto]].
                 apply inserts_lookups; [exact Hl1 |]. econstructor; eassumption.
        -- destruct (sqlite3_exec_event Rollback c3) as (rc0 & _ & He4 & _).
           destruct (sqlite3_exec Rollback c3) as [rc1 c4]. cbn [fst snd] in *.
           exists (evs1 ++ evs3 ++ [Exec Rollback rc0]).
           split; [rewrite He4, He3, He2, He1, <- !app_assoc; reflexivity |].
           exists (evs1 ++ evs3), rc0. split; [rewrite <- app_assoc; reflexivity |].
           left. exists evs1, [], ins, rc, evs3.
           split; [reflexivity |].
           split; [rewrite <- (app_nil_r evs1); apply inserts_lookups; [exact Hl1 | constructor] |].
           split; [constructor |]. split; assumption.
      * destruct (IH loc1 c1) as (evs4 & He4 & Hres).
        destruct (append_loop fd rest loc1 c1) as [res c4]. cbn [fst snd] in *.
        exists (evs1 ++ evs4).
        split; [rewrite He4, He1, <- app_assoc; reflexivity |].
        destruct res.
        -- destruct Hres as (rcs & Hi & Hd & Hn). exists rcs.
           split; [apply inserts_lookups; assumption | auto].
        -- destruct Hres as (body & rc0 & -> & Hshape).
           exists (evs1 ++ body), rc0. split; [rewrite <- app_assoc; reflexivity |].
           assert (Hpre : inserts evs1 [])
             by (rewrite <- (app_nil_r evs1); apply inserts_lookups; [exact Hl1 | constructor]).
           destruct Hshape as [Hf | (rcs & Hi & Hd & Hn)].
           ++ left. apply (failed_insert_after _ _ _ Hpre ltac:(constructor) Hf).
           ++ right. exists rcs. split; [apply inserts_lookups; assumption | auto].
Qed.

Lemma stream_loop_shape fd rs :
  forall i n c,
    exists evs,
      events (stream_loop fd rs i n c).2 = events c ++ evs
      /\ match (stream_loop fd rs i n c).1 with
         | Some _ => exists rcs, inserts evs rcs /\ all_done rcs
         | None => exists body rc0, evs = body ++ [Exec Rollback rc0] /\ failed_insert body
         end.
Proof.
  induction rs as [| e rest IH]; intros i n c; cbn [stream_loop].
  - exists []. cbn [fst snd]. rewrite app_nil_r. split; [reflexivity |].
    exists []. split; constructor.
  - destruct (date_to_bind fd (userTs e) c) as [date |]; [| apply IH].
    set (ins := mkInsertion 1 None (assetCode e) date (streamPayload e)).
    destruct (step_with_retry_attempt ins c) as (evs3 & He3 & Hatt).
    destruct (step_with_retry ins c) as [rc c3]. cbn [fst snd] in He3, Hatt.
    destruct (Z.eqb_spec rc SQLITE_DONE) as [Hdone | Hfail].
    + subst rc. destruct (IH (i + 1) (n + 1) c3) as (evs4 & He4 & Hres).
      destruct (stream_loop fd rest (i + 1) (n + 1) c3) as [res c4]. cbn [fst snd] in *.
      exists (evs3 ++ evs4). split; [rewrite He4, He3, <- app_assoc; reflexivity |].
      destruct res.
      * destruct Hres as (rcs & Hi & Hd). exists (SQLITE_DONE :: rcs).
        split; [econstructor; eassumption | constructor; [reflexivity | exact Hd]].
      * destruct Hres as (body & rc0 & -> & Hf).
        exists (evs3 ++ body), rc0. split; [rewrite <- app_assoc; reflexivity |].
        apply (failed_insert_after evs3 [SQLITE_DONE]); [| | exact Hf].
        -- rewrite <- (app_nil_r evs3). econstructor; [exact Hatt | constructor].
        -- constructor; [reflexivity | constructor].
    + destruct (sqlite3_exec_event Rollback c3) as (rc0 & _ & He4 & _).
      destruct (sqlite3_exec Rollback c3) as [rc1 c4]. cbn [fst snd] in *.
      exists (evs3 ++ [Exec Rollback rc0]).
      split; [rewrite He4, He3, <- app_assoc; reflexivity |].
      exists evs3, rc0. split; [reflexivity |].
      exists [], [], ins, rc, evs3. split; [reflexivity |].
      split; [constructor |]. split; [constructor |]. split; assumption.
Qed.

(** *** [appendReadings] *)


(** The log of a batch: BEGIN, the body, one closing command; which
    closing command it is, and the value returned. *)
Lemma appendReadings_trace
      (formatDate : string -> option string) (elements : list Element) (c : Conn) :
  let ret := (appendReadings formatDate (ReadingsArray elements) c).1 in
  let c' := (appendReadings formatDate (ReadingsArray elements) c).2 in
  exists rc0 body closing,
    events c' = events c ++ Exec Begin rc0 :: body ++ [closing]
    /\ Forall body_event body
    /\ ((exists rcs rc,
            inserts body rcs /\ all_done rcs /\ (NotAnObject ∉ elements)
            /\ closing = Exec End_ rc
            /\ ret = if rc =? SQLITE_OK then inserted body else -1)
        \/ (exists rc, failed_insert body /\ closing = Exec Rollback rc /\ ret = -1)
        \/ (exists rcs rc,
               inserts body rcs /\ all_done rcs /\ (NotAnObject ∈ elements)
               /\ closing = Exec Rollback rc /\ ret = -1)).
Proof.
  cbv zeta. unfold appendReadings.
  destruct (sqlite3_exec_event Begin c) as (rc0 & _ & He0 & Hn0).
  destruct (sqlite3_exec Begin c) as [r0 c1]. simpl in He0, Hn0.
  destruct (append_loop_trace formatDate elements (mkLocals 0 "" None ∅) c1)
    as (evs & Hn & He & Hres).
  destruct (append_loop_shape formatDate elements (mkLocals 0 "" None ∅) c1)
    as (evs' & He' & Hshape).
  assert (evs' = evs) by (rewrite He in He'; apply app_inv_head in He'; congruence).
  subst evs'.
  destruct (append_loop formatDate elements (mkLocals 0 "" None ∅) c1) as [[loc |] c2];
    simpl in Hn, He, Hres, Hshape.
  - destruct Hres as [Hgood Hrow]. destruct Hshape as (rcs & Hi & Hd & Hnot).
    destruct (sqlite3_exec_event End_ c2) as (rc & Hrc & He2 & Hn2).
    destruct (sqlite3_exec End_ c2) as [r2 c3]. simpl in Hrc, He2, Hn2. subst r2.
    cbn [fst snd]. exists rc0, evs, (Exec End_ rc).
    split; [rewrite He2, He, He0, <- !app_assoc; reflexivity |].
    split; [eapply Forall_impl; [exact Hgood | apply good_body] |].
    left. exists rcs, rc. repeat (split; [assumption || reflexivity |]).
    cbn [row] in Hrow. rewrite Hrow.
    destruct (rc =? SQLITE_OK); simpl; [lia | reflexivity].
  - destruct Hres as (body & rcr & -> & Hbody).
    destruct Hshape as (body' & rcr' & Heq & Hshape).
    apply app_inj_tail in Heq as [<- [= <-]].
    cbn [fst snd]. exists rc0, body, (Exec Rollback rcr).
    split; [rewrite He, He0, <- !app_assoc; reflexivity |].
    split; [exact Hbody |].
    destruct Hshape as [Hf | (rcs & Hi & Hd & Hin)]; [right; left | right; right]; eauto 8.
Qed.


(** The three ways a batch can close: one row stored; an INSERT still
    answered BUSY after twenty steps; an element that is not an
    object. *)
Example appendReadings_closings :
  let pump := example_reading "pump" "2024-01-01 10:00:00.000000" in
  (appendReadings example_formatDate (ReadingsArray [pump]) (example_connection [])).1 = 1
  /\ (let run := appendReadings example_formatDate (ReadingsArray [pump])
                   (example_connection ([0; 0; 0] ++ replicate 20 SQLITE_BUSY)) in
      run.1 = -1 /\ steps (events run.2) = 20 /\ sleeps (events run.2) = 20
      /\ exists rc, last (events run.2) = Some (Exec Rollback rc))
  /\ (let run := appendReadings example_formatDate (ReadingsArray [pump; NotAnObject])
                   (example_connection []) in
      run.1 = -1 /\ inserted (events run.2) = 1
      /\ exists rc, last (events run.2) = Some (Exec Rollback rc)).
Proof. vm_compute. repeat split; eauto. Qed.

(** A failing date in the middle of a batch: the reading is passed over,
    the two others are inserted. *)
Example appendReadings_skips_bad_date :
  let run :=
    appendReadings example_formatDate
      (ReadingsArray [example_reading "pump" "2024-01-01 10:00:00.000000";
                      example_reading "pump" "yesterday";
                      example_reading "fan" "now()"])
      (example_connection []) in
  run.1 = 2 /\ inserted (events run.2) = 2.
Proof. vm_compute. split; reflexivity. Qed.

(** *** [readingStream] *)

(** On success [readingStream] hands back the number of entries of the
    stream. *)
Lemma readingStream_returns_length fd rs c :
  (readingStream fd rs c).1 <> -1 ->
  (readingStream fd rs c).1 = Z.of_nat (length rs).
Proof.
  unfold readingStream.
  destruct (sqlite3_prepare_v2 1 c) as [rc c1].
  destruct (rc =? SQLITE_OK); simpl; [| congruence].
  destruct (sqlite3_exec Begin c1) as [rc1 c2].
  destruct (rc1 =? SQLITE_OK); simpl; [| congruence].
  destruct (stream_loop_trace fd rs 0 (-1) c2) as (evs & _ & _ & Hres).
  destruct (stream_loop fd rs 0 (-1) c2) as [[[i n] |] c3]; simpl in *; [| congruence].
  destruct Hres as (_ & -> & _).
  destruct (sqlite3_exec End_ c3) as [rc2 c4].
  destruct (rc2 =? SQLITE_OK); simpl; [lia | congruence].
Qed.

(** C5.  A stream of two entries, the second with a date that fails (its
    year has five digits): one row is inserted, the transaction commits,
    and 2 is returned. *)
Theorem readingStream_counts_skipped_entries :
  let run :=
    readingStream example_formatDate
      [mkStream "2024-01-01 10:00:00.000000" "pump" "{}";
       mkStream "12024-01-01 10:00:00.000000" "pump" "{}"]
      (example_connection []) in
  events run.2 =
    [Prepare 1 0; Exec Begin 0;
     Step (mkInsertion 1 None "pump" "2024-01-01 10:00:00.000000" "{}") SQLITE_DONE;
     Exec End_ 0]
  /\ inserted (events run.2) = 1
  /\ run.1 = 2.
Proof. vm_compute. repeat split. Qed.

(** *** The sleeps of the prepared-INSERT retry *)

Lemma body_sleeps evs ms :
  Forall body_event evs -> SleepMs ms ∈ evs -> prep_sleep ms.
Proof. intros H Hin. rewrite Forall_forall in H. apply (H _ Hin). Qed.

(** C9, as stated, fails: the sleep after a BUSY step is 7345 ms here,
    not 5 ms plus a jitter below 5 ms. *)
Lemma prepared_insert_sleeps_seconds :
  let run :=
    step_with_retry (mkInsertion 1 (Some 1) "pump" "2024-01-01 10:00:00.000000" "{}")
                    (example_connection [SQLITE_BUSY]) in
  events run.2 =
    [Step (mkInsertion 1 (Some 1) "pump" "2024-01-01 10:00:00.000000" "{}") SQLITE_BUSY;
     SleepMs 7345;
     Step (mkInsertion 1 (Some 1) "pump" "2024-01-01 10:00:00.000000" "{}") SQLITE_DONE]
  /\ ~ (5 <= 7345 < 5 + 5)
  /\ PREP_CMD_RETRY_BASE <> 5
  /\ PREP_CMD_RETRY_BACKOFF <> 5.
Proof.
  split; [vm_compute; reflexivity |]. split; [lia |]. split; discriminate.
Qed.

(** The sleeps of the body of a batch are those of the retry. *)
Lemma sleeps_follow_range evs :
  Forall body_event evs ->
  forall ms, SleepMs ms ∈ evs -> 5000 <= ms < 10000.
Proof.
  intros Hbody ms Hin. pose proof (body_sleeps evs ms Hbody Hin) as H.
  unfold prep_sleep in H. vm_compute in H. destruct H as [H1 H2]. split; assumption.
Qed.

(** C9, amended.  [PREP_CMD_RETRY_BASE] and [PREP_CMD_RETRY_BACKOFF] are
    both 5000 and are milliseconds.  One prepared INSERT is a run of
    steps answered BUSY or LOCKED, each directly followed by a sleep of
    [PREP_CMD_RETRY_BASE] plus a jitter below [PREP_CMD_RETRY_BACKOFF],
    closed by the first step answered otherwise or by the twentieth step
    and its sleep: at most [PREP_CMD_MAX_RETRIES = 20] steps for one row.
    In the whole log of [appendReadings] and of [readingStream] every
    step answered BUSY or LOCKED is directly followed by such a sleep,
    no other sleep in milliseconds occurs, and every step belongs to
    such an INSERT of the body of the transaction. *)
Theorem prepared_insert_retry_sleeps :
  PREP_CMD_RETRY_BASE = 5000 /\ PREP_CMD_RETRY_BACKOFF = 5000
  /\ PREP_CMD_MAX_RETRIES = 20
  /\ (forall ins c,
        exists evs,
          events (step_with_retry ins c).2 = events c ++ evs
          /\ insert_attempt ins (step_with_retry ins c).1 evs
          /\ sleeps_follow evs
          /\ 1 <= steps evs <= 20
          /\ forall ms, SleepMs ms ∈ evs -> 5000 <= ms < 10000)
  /\ (forall formatDate doc c,
        exists evs,
          events (appendReadings formatDate doc c).2 = events c ++ evs
          /\ sleeps_follow evs
          /\ steps_in_inserts evs
          /\ forall ms, SleepMs ms ∈ evs -> 5000 <= ms < 10000)
  /\ (forall formatDate rs c,
        exists evs,
          events (readingStream formatDate rs c).2 = events c ++ evs
          /\ sleeps_follow evs
          /\ steps_in_inserts evs
          /\ forall ms, SleepMs ms ∈ evs -> 5000 <= ms < 10000).
Proof.
  split; [reflexivity |]. split; [reflexivity |]. split; [reflexivity |].
  split; [| split].
  - intros ins c.
    destruct (step_with_retry_attempt ins c) as (evs & He & Hatt).
    exists evs. split; [exact He |]. split; [exact Hatt |].
    split; [rewrite <- (app_nil_r evs); apply (attempt_sleeps_follow _ _ _ _ Hatt); exact I |].
    split; [apply (attempt_steps _ _ _ Hatt) |].
    apply sleeps_follow_range.
    eapply Forall_impl; [apply (attempt_retry_events _ _ _ Hatt) | apply retry_body].
  - intros fd doc c.
    destruct doc as [| | | elements];
      try (exists []; simpl; rewrite app_nil_r; split; [reflexivity |]; split; [exact I |];
           split; [exists [], [], [], []; repeat split; constructor |];
           intros ms Hin; apply elem_of_nil in Hin; destruct Hin).
    destruct (appendReadings_trace fd elements c)
      as (rc0 & body & closing & He & Hbody & Hclose).
    exists (Exec Begin rc0 :: body ++ [closing]). split; [exact He |].
    assert (Hc : exists cmd rc, closing = Exec cmd rc).
    { destruct Hclose as [(? & rc & _ & _ & _ & -> & _)
                         | [(rc & _ & -> & _) | (? & rc & _ & _ & _ & -> & _)]]; eauto. }
    destruct Hc as (cmd & rcc & ->).
    assert (Hins : exists rcs, inserts body rcs).
    { destruct Hclose as [(rcs & rc & Hi & _) | [(rc & Hf & _) | (rcs & rc & Hi & _)]];
        [eauto | apply failed_insert_inserts, Hf | eauto]. }
    split; [| split].
    + cbn [sleeps_follow].
      destruct Hclose as [(rcs & rc & Hi & _) | [(rc & Hf & _) | (rcs & rc & Hi & _)]].
      * apply (inserts_sleeps_follow body rcs); [exact Hi | exact I].
      * apply failed_insert_sleeps_follow; [exact Hf | exact I].
      * apply (inserts_sleeps_follow body rcs); [exact Hi | exact I].
    + destruct Hins as (rcs & Hi).
      exists [Exec Begin rc0], body, [Exec cmd rcc], rcs.
      split; [reflexivity |]. split; [reflexivity |]. split; [reflexivity | exact Hi].
    + intros ms Hin.
      apply elem_of_cons in Hin as [Hin | Hin]; [discriminate |].
      apply elem_of_app in Hin as [Hin | Hin]; [apply (sleeps_follow_range body Hbody ms Hin) |].
      apply list_elem_of_singleton in Hin. discriminate.
  - intros fd rs c. unfold readingStream.
    assert (Hprep : exists rc, (sqlite3_prepare_v2 1 c).1 = rc
               /\ events (sqlite3_prepare_v2 1 c).2 = events c ++ [Prepare 1 rc]).
    { unfold sqlite3_prepare_v2, enter. destruct (next_fault (faults c)). simpl. eauto. }
    destruct Hprep as (rcp & Hrcp & Hep).
    destruct (sqlite3_prepare_v2 1 c) as [r c1]. simpl in Hrcp, Hep. subst r.
    destruct (rcp =? SQLITE_OK); simpl.
    2: { exists [Prepare 1 rcp]. split; [exact Hep |]. split; [exact I |].
         split; [exists [Prepare 1 rcp], [], [], []; repeat split; constructor |].
         intros ms Hin. apply list_elem_of_singleton in Hin. discriminate. }
    destruct (sqlite3_exec_event Begin c1) as (rc0 & Hrc0 & He0 & _).
    destruct (sqlite3_exec Begin c1) as [r0 c2]. simpl in Hrc0, He0. subst r0.
    destruct (rc0 =? SQLITE_OK); simpl.
    2: { exists [Prepare 1 rcp; Exec Begin rc0].
         split; [rewrite He0, Hep, <- app_assoc; reflexivity |]. split; [exact I |].
         split; [exists [Prepare 1 rcp; Exec Begin rc0], [], [], [];
                 repeat split; constructor |].
         intros ms Hin. apply elem_of_cons in Hin as [Hin | Hin]; [discriminate |].
         apply list_elem_of_singleton in Hin. discriminate. }
    destruct (stream_loop_shape fd rs 0 (-1) c2) as (evs & He & Hres).
    destruct (stream_loop fd rs 0 (-1) c2) as [[[i n] |] c3]; simpl in He, Hres.
    + destruct Hres as (rcs & Hi & _).
      destruct (sqlite3_exec_event End_ c3) as (rc2 & _ & He2 & _).
      destruct (sqlite3_exec End_ c3) as [r2 c4]. simpl in He2. cbn [snd].
      exists ([Prepare 1 rcp; Exec Begin rc0] ++ evs ++ [Exec End_ rc2]).
      split; [rewrite He2, He, He0, Hep, <- !app_assoc; reflexivity |].
      split; [cbn [app sleeps_follow];
              apply (inserts_sleeps_follow evs rcs); [exact Hi | exact I] |].
      split.
      { exists [Prepare 1 rcp; Exec Begin rc0], evs, [Exec End_ rc2], rcs.
        split; [reflexivity |]. split; [reflexivity |]. split; [reflexivity | exact Hi]. }
      intros ms Hin.
      apply elem_of_app in Hin as [Hin | Hin].
      { apply elem_of_cons in Hin as [Hin | Hin]; [discriminate |].
        apply list_elem_of_singleton in Hin. discriminate. }
      apply elem_of_app in Hin as [Hin | Hin].
      { apply (sleeps_follow_range evs); [eapply inserts_body; eassumption | exact Hin]. }
      apply list_elem_of_singleton in Hin. discriminate.
    + destruct Hres as (body & rcr & -> & Hf). cbn [snd].
      exists ([Prepare 1 rcp; Exec Begin rc0] ++ body ++ [Exec Rollback rcr]).
      split; [rewrite He, He0, Hep, <- !app_assoc; reflexivity |].
      split; [cbn [app sleeps_follow];
              apply failed_insert_sleeps_follow; [exact Hf | exact I] |].
      split.
      { destruct (failed_insert_inserts body Hf) as (rcs & Hi).
        exists [Prepare 1 rcp; Exec Begin rc0], body, [Exec Rollback rcr], rcs.
        split; [reflexivity |]. split; [reflexivity |]. split; [reflexivity | exact Hi]. }
      intros ms Hin.
      apply elem_of_app in Hin as [Hin | Hin].
      { apply elem_of_cons in Hin as [Hin | Hin]; [discriminate |].
        apply list_elem_of_singleton in Hin. discriminate. }
      apply elem_of_app in Hin as [Hin | Hin].
      { apply (sleeps_follow_range body); [apply failed_insert_body, Hf | exact Hin]. }
      apply list_elem_of_singleton in Hin. discriminate.
Qed.

(** Twenty steps answered BUSY: twenty sleeps, and BUSY is handed
    back. *)
Example prepared_insert_gives_up :
  let run :=
    step_with_retry (mkInsertion 1 (Some 1) "pump" "2024-01-01 10:00:00.000000" "{}")
                    (example_connection (replicate 25 SQLITE_BUSY)) in
  run.1 = SQLITE_BUSY /\ steps (events run.2) = 20 /\ sleeps (events run.2) = 20.
Proof. vm_compute. repeat split. Qed.

End InsertProperties.

(** ** The ingest worker *)

Section IngestProperties.
Import Int Ingest.

Lemma remove_front_drop cnt q discarded :
  remove_front cnt q discarded
  = (drop cnt q, discarded + Z.of_nat (Nat.min cnt (length q))).
Proof.
  revert q discarded. induction cnt as [| cnt IH]; intros q discarded.
  - simpl. destruct q; simpl; f_equal; lia.
  - destruct q as [| r q]; simpl; [f_equal; lia |].
    rewrite IH. unfold logDiscardedStat. f_equal. lia.
Qed.

(** C8.  A queue at the head of the resend list fails to persist once
    more.  While the failure counter, this failure included, is at most 5
    the queue is left as it is.  When it exceeds 5 (the sixth failure in a
    row) the first five readings of the queue, or all of them if it has
    fewer, are erased from its front and each is counted as discarded, the
    queue is unlinked if nothing is left of it, and the counter goes back
    to 0. *)
Theorem resend_drops_five_on_sixth_failure
        (s : Ingest) (q : list Reading) (rest : list (list Reading)) (answers : list bool) :
  m_resendQueues s = q :: rest ->
  storage s = false :: answers ->
  0 <= m_failCnt s <= 5 ->
  let s' := resend_once s in
  (m_failCnt s < 5 ->
     m_failCnt s' = m_failCnt s + 1
     /\ m_resendQueues s' = q :: rest
     /\ m_discardedReadings s' = m_discardedReadings s)
  /\ (m_failCnt s = 5 ->
        m_failCnt s' = 0
        /\ m_resendQueues s' = (if bool_decide (drop 5 q = []) then rest else drop 5 q :: rest)
        /\ m_discardedReadings s'
           = m_discardedReadings s + Z.of_nat (length (take 5 q))).
Proof.
  intros Hq Hst Hcnt. cbv zeta. unfold resend_once, readingAppend.
  rewrite Hq, Hst. cbn [negb m_failCnt m_resendQueues m_discardedReadings].
  assert (Hi : i32 (m_failCnt s + 1) = m_failCnt s + 1)
    by (unfold i32; rewrite Z.mod_small; lia).
  rewrite Hi. split.
  - intros Hlt. destruct (Z.ltb_spec 5 (m_failCnt s + 1)) as [H | H]; [lia |].
    simpl. auto.
  - intros Heq. destruct (Z.ltb_spec 5 (m_failCnt s + 1)) as [H | H]; [| lia].
    rewrite remove_front_drop. simpl. rewrite length_take. auto.
Qed.

Lemma resend_drops_five_on_sixth_failure_witness :
  m_failCnt (resend_once example_ingest) = 0
  /\ m_resendQueues (resend_once example_ingest)
     = [example_reading <$> ["c"; "c"]%string]
  /\ m_discardedReadings (resend_once example_ingest) = 5.
Proof.
  destruct (resend_drops_five_on_sixth_failure
              example_ingest
              (example_reading <$> ["a"; "a"; "b"; "a"; "b"; "c"; "c"]%string) [] [])
    as [_ H]; [reflexivity | reflexivity | simpl; lia |].
  destruct (H eq_refl) as (H1 & H2 & H3).
  split; [exact H1 |]. split; [exact H2 | exact H3].
Defined.

(** The whole course: the first attempt on a queue of seven fails, the
    next five attempts on the resend list fail too, five readings go, and
    the two left are stored by the seventh attempt. *)
Example six_failures_in_a_row :
  let start := mkIngest [] 0 false 0 0 ∅ ∅ ∅ (replicate 6 false) in
  let queue := example_reading <$> ["a"; "a"; "b"; "a"; "b"; "c"; "c"]%string in
  let after := s ← processQueue 1 queue start; resend 10 s in
  (m_discardedReadings <$> after) = Some 5
  /\ (m_resendQueues <$> after) = Some []
  /\ (map_to_list <$> (statsPendingEntries <$> after)) = Some [("c"%string, 2)].
Proof. vm_compute. repeat split. Qed.

(** *** Statistics *)

Lemma asset_updates_rows entries :
  forall cache statsUpdates readings,
    (asset_updates entries cache statsUpdates readings).1
    = (statsUpdates ++ asset_rows entries, total readings entries).
Proof.
  induction entries as [| it rest IH]; intros cache upd rd; cbn [asset_updates].
  - unfold asset_rows, total. cbn [List.filter fmap list_fmap foldl fst].
    rewrite app_nil_r. reflexivity.
  - unfold asset_rows, total in *. cbn [List.filter].
    destruct (it.2 =? 0) eqn:Hz; cbn [negb]; rewrite IH.
    + reflexivity.
    + cbn [fmap list_fmap foldl]. rewrite <- app_assoc. reflexivity.
Qed.

(** C10, as stated, fails: three readings of one asset are pending and
    none was discarded; the batch has the rows of the asset and of
    READINGS, and no row for DISCARDED. *)
Lemma updateStats_without_discarded :
  let s := mkIngest [] 0 false 0 0 {[ "pump"%string := 3 ]} ∅ ∅ [] in
  (updateStats (Some 0) s).1 = Some [("PUMP"%string, 3); ("READINGS"%string, 3)]
  /\ "DISCARDED"%string ∉ [("PUMP"%string, 3); ("READINGS"%string, 3)].*1.
Proof.
  cbv zeta. split; [vm_compute; reflexivity |].
  cbn [fmap list_fmap fst]. intros Hin.
  apply elem_of_cons in Hin as [Hin | Hin]; [discriminate |].
  apply elem_of_cons in Hin as [Hin | Hin]; [discriminate |].
  apply elem_of_nil in Hin. exact Hin.
Qed.

(** C10, amended.  A tick with pending entries submits the rows of the
    assets, then the READINGS row if the total of the pending counts is
    not zero, then the DISCARDED row if the count of discarded readings is
    not zero.  With every pending count positive and their sum within an
    [int], the READINGS row is there and carries that sum. *)
Theorem updateStats_special_rows (rv : option Z) (s : Ingest) :
  statsPendingEntries s <> ∅ ->
  let entries := map_to_list (statsPendingEntries s) in
  (updateStats rv s).1
  = Some (asset_rows entries
          ++ (if total 0 entries =? 0 then [] else [("READINGS"%string, total 0 entries)])
          ++ (if m_discardedReadings s =? 0 then []
              else [("DISCARDED"%string, m_discardedReadings s)]))
  /\ ((forall k v, statsPendingEntries s !! k = Some v -> 0 < v) ->
      foldr Z.add 0 entries.*2 < 2 ^ 31 ->
      total 0 entries = foldr Z.add 0 entries.*2 /\ 0 < total 0 entries).
Proof.
  intros Hne. cbv zeta. split.
  - unfold updateStats.
    destruct (bool_decide_reflect (statsPendingEntries s = ∅)) as [H | _]; [contradiction |].
    pose proof (asset_updates_rows (map_to_list (statsPendingEntries s))
                  (statsDbEntriesCache s) [] 0) as Hrows.
    destruct (asset_updates _ _ _ _) as [[upd rd] cache]. simpl in Hrows.
    injection Hrows as -> ->. cbn [fst].
    destruct (total 0 _ =? 0); destruct (m_discardedReadings s =? 0); cbn [negb app];
      rewrite ?app_nil_r, <- ?app_assoc; reflexivity.
  - intros Hpos Hsum.
    assert (Hall : Forall (fun it : string * Z => 0 < it.2)
                          (map_to_list (statsPendingEntries s))).
    { apply Forall_forall. intros [k v] Hin. apply elem_of_map_to_list in Hin.
      simpl. eauto. }
    assert (Hnil : map_to_list (statsPendingEntries s) <> []).
    { intros H. apply map_to_list_empty_iff in H. contradiction. }
    revert Hall Hnil Hsum. generalize (map_to_list (statsPendingEntries s)) as l.
    intros l Hall Hnil Hsum.
    assert (Hsum_pos : forall l' : list (string * Z),
               Forall (fun it : string * Z => 0 < it.2) l' -> 0 <= foldr Z.add 0 l'.*2).
    { induction 1 as [| it l' Hit _ IH]; cbn [fmap list_fmap foldr]; lia. }
    assert (Hgen : forall acc, 0 <= acc -> acc + foldr Z.add 0 l.*2 < 2 ^ 31 ->
                     total acc l = acc + foldr Z.add 0 l.*2).
    { clear Hnil Hsum. induction Hall as [| it l Hit Hl IH]; intros acc Hacc Hs.
      - unfold total. cbn [List.filter foldl fmap list_fmap foldr]. lia.
      - pose proof (Hsum_pos l Hl) as Hsl.
        unfold total in *. cbn [List.filter fmap list_fmap foldr] in *.
        destruct (Z.eqb_spec it.2 0) as [Hz | _]; [lia |]. cbn [negb foldl].
        assert (Hi : i32 (acc + it.2) = acc + it.2)
          by (unfold i32; rewrite Z.mod_small; lia).
        rewrite Hi, IH; lia. }
    rewrite Hgen by lia. split; [lia |].
    destruct Hall as [| it l Hit Hl]; [contradiction |].
    pose proof (Hsum_pos l Hl). cbn [fmap list_fmap foldr]. lia.
Qed.

Lemma updateStats_special_rows_witness :
  (updateStats (Some 0)
     (mkIngest [] 0 false 0 2 {[ "pump"%string := 3 ]} ∅ ∅ [])).1
  = Some [("PUMP"%string, 3); ("READINGS"%string, 3); ("DISCARDED"%string, 2)].
Proof.
  destruct (updateStats_special_rows
              (Some 0) (mkIngest [] 0 false 0 2 {[ "pump"%string := 3 ]} ∅ ∅ []))
    as [H _].
  - intros H. apply (f_equal (fun m => m !! "pump"%string)) in H. vm_compute in H.
    discriminate.
  - exact H.
Defined.

End IngestProperties.


(** ** More on the purge by age *)

Section PurgeFrame.
Import Sqlite Int Retry Purge PurgeLog.

Lemma replay_app evs1 evs2 rows :
  replay (evs1 ++ evs2) rows = replay evs2 (replay evs1 rows).
Proof. unfold replay. apply foldl_app. Qed.

Lemma explained_log w0 w e :
  (forall b, e <> Delete b) -> explained w0 w -> explained w0 (log e w).
Proof.
  intros He (evs & Hev & Hrows). exists (evs ++ [e]). split.
  - simpl. rewrite Hev, app_assoc. reflexivity.
  - rewrite replay_app. simpl. rewrite <- Hrows.
    destruct e; try reflexivity. destruct (He bound eq_refl).
Qed.

Lemma explained_stable w0 : stable (explained w0).
Proof.
  split; intros; try assumption.
  - apply explained_log; [discriminate | assumption].
  - apply explained_log; [discriminate | assumption].
Qed.

Lemma explained_run w0 s w : explained w0 w -> explained w0 (run s w).
Proof.
  intros Hw.
  destruct s; try (apply run_select_stable; [apply explained_stable | exact Logic.I | exact Hw]).
  destruct Hw as (evs & Hev & Hrows). exists (evs ++ [Delete bound]). split.
  - simpl. rewrite Hev, app_assoc. reflexivity.
  - rewrite replay_app. simpl. rewrite Hrows. reflexivity.
Qed.

Lemma replay_elem evs : forall rows x,
  x ∈ replay evs rows <-> x ∈ rows /\ forall b, Delete b ∈ evs -> b < rowid x.
Proof.
  induction evs as [| e evs IH]; intros rows x; simpl.
  - split; [intros H; split; [exact H | intros b Hb; apply elem_of_nil in Hb; destruct Hb]
           | intros [H _]; exact H].
  - rewrite IH. split.
    + intros [Hx Hall]. destruct e as [b | |];
        try (split; [exact Hx | intros b' Hb'; apply elem_of_cons in Hb' as [Hb' | Hb'];
                                [discriminate | apply Hall, Hb']]).
      apply list_elem_of_filter in Hx as [Hb Hx]. split; [exact Hx |].
      intros b' Hb'. apply elem_of_cons in Hb' as [[= ->] | Hb']; [exact Hb | apply Hall, Hb'].
    + intros [Hx Hall]. split; [| intros b Hb; apply Hall, list_elem_of_further, Hb].
      destruct e as [b | |]; try exact Hx.
      apply list_elem_of_filter. split; [apply Hall, list_elem_of_here | exact Hx].
Qed.

Lemma replay_sublist evs : forall rows, sublist (replay evs rows) rows.
Proof.
  induction evs as [| e evs IH]; intros rows; simpl; [reflexivity |].
  etransitivity; [apply IH |]. destruct e; try reflexivity. apply sublist_filter.
Qed.

(** X1.  Whatever the arguments, the fault script and the point at which
    it stops, a purge changes the table only through the DELETE statements
    that ran: the rows left are those of the table it found, in their
    order and unaltered, whose rowid lies above the bound of every such
    DELETE.  In particular a purge that ran no DELETE leaves the table as
    it was, and no rollback undoes the blocks deleted before an error. *)
Theorem purge_removes_only_logged_rows (fuel : nat) (age flags sent : Z) (w : World) :
  let w' := world_of (purgeReadings fuel age flags sent w) in
  exists evs,
    events w' = events w ++ evs
    /\ readings_1 w' = replay evs (readings_1 w)
    /\ sublist (readings_1 w') (readings_1 w)
    /\ (forall x, x ∈ readings_1 w' <->
                  x ∈ readings_1 w /\ forall b, Delete b ∈ evs -> b < rowid x)
    /\ ((forall b, Delete b ∉ evs) -> readings_1 w' = readings_1 w).
Proof.
  cbv zeta.
  assert (Hstart : explained w w).
  { exists []. split; [rewrite app_nil_r; reflexivity | reflexivity]. }
  pose proof (purgeReadings_keeps (explained w) (fun _ => True) (explained_stable w)
                (fun s w1 _ H => explained_run w s w1 H) (fun _ _ H => H)
                fuel age flags sent (fun _ => Logic.I) w Hstart) as H.
  assert (Hend : explained w (world_of (purgeReadings fuel age flags sent w))).
  { destruct (purgeReadings fuel age flags sent w); exact H. }
  destruct Hend as (evs & Hev & Hrows). exists evs.
  split; [exact Hev |]. split; [exact Hrows |].
  split; [rewrite Hrows; apply replay_sublist |].
  split; [intros x; rewrite Hrows; apply replay_elem |].
  intros Hnone. rewrite Hrows. clear Hev Hrows H.
  induction evs as [| e evs IH]; [reflexivity |]. simpl.
  destruct e as [b | |].
  - destruct (Hnone b). apply list_elem_of_here.
  - apply IH. intros b Hb. apply (Hnone b), list_elem_of_further, Hb.
  - apply IH. intros b Hb. apply (Hnone b), list_elem_of_further, Hb.
Qed.

End PurgeFrame.


Section PurgeRun.
Import Sqlite Int Retry Purge PurgeLog.

Lemma u64_id z : 0 <= z < 2 ^ 64 -> u64 z = z.
Proof. intros Hz. unfold u64. apply Z.mod_small. exact Hz. Qed.

Lemma idle_refl w : idle w w.
Proof. exists (faults w), []. destruct w. simpl. rewrite app_nil_r. reflexivity. Qed.

Lemma idle_faults w wp fs : idle w wp -> idle w (set_faults fs wp).
Proof. intros (fs0 & us & ->). exists fs, us. reflexivity. Qed.

Lemma idle_usleep w wp us : idle w wp -> idle w (log (Usleep us) wp).
Proof.
  intros (fs & us0 & ->). exists fs, (us0 ++ [us]). unfold log. simpl.
  rewrite fmap_app, app_assoc. reflexivity.
Qed.

Lemma idle_trans a b c : idle a b -> idle b c -> idle a c.
Proof.
  intros (fs1 & us1 & ->) (fs2 & us2 & ->). exists fs2, (us1 ++ us2). simpl.
  rewrite fmap_app, app_assoc. reflexivity.
Qed.

(** One statement through the retry executor: the engine refuses some
    calls, then either runs the statement and answers [SQLITE_OK], or the
    executor gives up with another status and the statement has not run. *)
Lemma SQLexec_shape s w :
  exists wp, idle w wp
             /\ (SQLexec s w = (SQLITE_OK, run s wp)
                 \/ ((SQLexec s w).1 <> SQLITE_OK /\ (SQLexec s w).2 = wp)).
Proof.
  unfold SQLexec, retry.
  assert (Hloop : forall fuel retries w0, idle w w0 ->
            match retry_loop (sqlite3_exec s) (fun us => log (Usleep us)) fuel retries w0 with
            | Some r => exists wp, idle w wp
                                   /\ (r = (SQLITE_OK, run s wp)
                                       \/ (r.1 <> SQLITE_OK /\ r.2 = wp))
            | None => True
            end).
  { induction fuel as [| fuel IH]; intros retries w0 Hw0; simpl; [exact Logic.I |].
    unfold sqlite3_exec at 1. destruct (next_fault (faults w0)) as [f fs].
    destruct (Z.eqb_spec f SQLITE_OK) as [-> | Hf].
    - change (locked_or_busy SQLITE_OK) with false. rewrite andb_false_r.
      exists (set_faults fs w0). split; [apply idle_faults, Hw0 | left; reflexivity].
    - destruct (locked_or_busy f) eqn:Hb.
      + destruct (retries + 1 <? MAX_RETRIES); simpl.
        * apply IH. apply idle_usleep, idle_faults, Hw0.
        * eexists. split; [apply idle_usleep, idle_faults, Hw0 |].
          right. split; [exact Hf | reflexivity].
      + rewrite andb_false_r. exists (set_faults fs w0).
        split; [apply idle_faults, Hw0 | right; split; [exact Hf | reflexivity]]. }
  specialize (Hloop (Z.to_nat MAX_RETRIES) 0 w (idle_refl w)).
  destruct (retry_loop _ _ _ 0 w) as [r |].
  - exact Hloop.
  - exists w. split; [apply idle_refl | right; split; [discriminate | reflexivity]].
Qed.

(** *** The block loop *)

Lemma deletes_app evs1 evs2 : deletes (evs1 ++ evs2) = deletes evs1 ++ deletes evs2.
Proof. unfold deletes. apply omap_app. Qed.

Lemma deletes_usleeps us : deletes (Usleep <$> us) = [].
Proof. induction us as [| u us IH]; [reflexivity | exact IH]. Qed.

Lemma deletes_none evs : deletes evs = [] -> forall b, Delete b ∉ evs.
Proof.
  induction evs as [| e evs IH]; intros H b Hb; [apply elem_of_nil in Hb; exact Hb |].
  apply elem_of_cons in Hb as [<- | Hb]; [discriminate |].
  destruct e; simpl in H; try discriminate; apply (IH H b Hb).
Qed.

Lemma replay_quiet evs rows : deletes evs = [] -> replay evs rows = rows.
Proof.
  revert rows. induction evs as [| e evs IH]; intros rows H; [reflexivity |].
  destruct e; simpl in *; try discriminate; apply IH; exact H.
Qed.

Lemma windowed_app width a bs b :
  windowed width a bs ->
  default a (last bs) < b <= default a (last bs) + width ->
  windowed width a (bs ++ [b]).
Proof.
  revert a. induction bs as [| x bs IH]; intros a Hw Hb; simpl in *.
  - split; [exact Hb | exact Logic.I].
  - destruct Hw as [Hx Hw]. split; [exact Hx |]. apply IH; [exact Hw |].
    destruct bs as [| y bs']; [exact Hb |].
    change (last (x :: y :: bs')) with (last (y :: bs')) in Hb.
    destruct (last (y :: bs')) eqn:Hl; [exact Hb |].
    apply last_None in Hl. discriminate.
Qed.

(** What precedes the DELETE of a block, and what follows it, touches
    neither the table nor the bounds; the block size stays in range. *)
Lemma measure_idle w :
  readings_1 (measure w).2 = readings_1 w
  /\ events (measure w).2 = events w
  /\ purgeBlockSize (measure w).2 = purgeBlockSize w.
Proof. unfold measure. destruct (timings w); simpl; auto. Qed.

Lemma recalculate_idle st w :
  rowidMin (recalculate st w).1 = rowidMin st
  /\ deletedRows (recalculate st w).1 = deletedRows st
  /\ readings_1 (recalculate st w).2 = readings_1 w
  /\ events (recalculate st w).2 = events w ++ [SleepMs 100]
  /\ (in_range (purgeBlockSize w) -> in_range (purgeBlockSize (recalculate st w).2)).
Proof.
  unfold recalculate. cbv zeta. cbn [fst snd rowidMin deletedRows].
  destruct (_ <? _); simpl;
    (split; [reflexivity |]); (split; [reflexivity |]);
    (split; [reflexivity |]); (split; [reflexivity |]);
    [intros _; apply resize_in_range | auto].
Qed.

(** The loop from a state whose [rowidMin] is not negative, towards a
    limit below 2^63, with the block size in range: wherever it stops,
    the bounds of its DELETEs climb from [rowidMin] in steps of at most
    1500 and stay at or below the limit, and the table is the one it
    found with these DELETEs applied; it runs out of fuel only when
    there is less fuel than one pass per 20 rowids up to the limit, and
    one more; when it ends by itself the last bound is the limit and
    [deletedRows] has grown by the number of rows that went. *)
Lemma delete_blocks_spec L : forall fuel st w,
  0 <= rowidMin st -> L < 2 ^ 63 -> in_range (purgeBlockSize w) ->
  0 <= deletedRows st < 2 ^ 32 ->
  exists evs,
    events (world_of (delete_blocks fuel L st w)) = events w ++ evs
    /\ windowed 1500 (rowidMin st) (deletes evs)
    /\ Forall (fun b => b <= L) (deletes evs)
    /\ in_range (purgeBlockSize (world_of (delete_blocks fuel L st w)))
    /\ readings_1 (world_of (delete_blocks fuel L st w)) = replay evs (readings_1 w)
    /\ match delete_blocks fuel L st w with
       | OutOfFuel _ => Z.of_nat fuel < (Z.max 0 (L - rowidMin st) + 19) / 20 + 1
       | Return0 _ => True
       | Go st' w' =>
           deletedRows st'
           = u32 (deletedRows st
                  + (Z.of_nat (length (readings_1 w)) - Z.of_nat (length (readings_1 w'))))
           /\ (rowidMin st < L -> last (deletes evs) = Some L)
           /\ (L <= rowidMin st -> evs = [])
       end.
Proof.
  induction fuel as [| fuel IH]; intros st w Hmin HL Hsize Hdel.
  { exists []. cbn [delete_blocks world_of]. rewrite app_nil_r.
    split; [reflexivity |]. split; [exact Logic.I |]. split; [constructor |].
    split; [exact Hsize |]. split; [reflexivity |].
    assert (0 <= (Z.max 0 (L - rowidMin st) + 19) / 20) by (apply Z.div_pos; lia). lia. }
  cbn [delete_blocks].
  destruct (Z.ltb_spec (rowidMin st) L) as [Hlt | Hge]; cbn [negb].
  2:{ exists []. cbn [world_of]. rewrite app_nil_r.
      split; [reflexivity |]. split; [exact Logic.I |]. split; [constructor |].
      split; [exact Hsize |]. split; [reflexivity |].
      split; [| split; [lia | reflexivity]].
      rewrite Z.sub_diag, Z.add_0_r. unfold u32. rewrite Z.mod_small; lia. }
  assert (Hsz : 20 <= purgeBlockSize w <= 1500) by exact Hsize.
  assert (Hnext : u64 (rowidMin st + purgeBlockSize w) = rowidMin st + purgeBlockSize w)
    by (unfold u64; apply Z.mod_small; lia).
  rewrite Hnext.
  set (b := if L <? rowidMin st + purgeBlockSize w then L else rowidMin st + purgeBlockSize w).
  assert (Hb : rowidMin st < b <= rowidMin st + 1500 /\ b <= L
               /\ (Z.max 0 (L - b) + 19) / 20 + 1
                  <= (Z.max 0 (L - rowidMin st) + 19) / 20).
  { assert (Hdiv : (Z.max 0 (L - b) + 19) / 20 + 1 <= (Z.max 0 (L - rowidMin st) + 19) / 20).
    { subst b. destruct (Z.ltb_spec L (rowidMin st + purgeBlockSize w)).
      - rewrite Z.sub_diag. change ((Z.max 0 0 + 19) / 20 + 1) with 1.
        apply Z.div_le_lower_bound; lia.
      - replace (Z.max 0 (L - rowidMin st) + 19)
          with ((L - rowidMin st - 20 + 19) + 1 * 20) by lia.
        rewrite Z.div_add by lia.
        assert ((Z.max 0 (L - (rowidMin st + purgeBlockSize w)) + 19) / 20
                <= (L - rowidMin st - 20 + 19) / 20)
          by (apply Z.div_le_mono; lia).
        lia. }
    subst b. destruct (Z.ltb_spec L (rowidMin st + purgeBlockSize w)); lia. }
  destruct Hb as (Hb1 & Hb2 & Hb3).
  destruct (measure_idle w) as (Hr1 & He1 & Hs1).
  destruct (measure w) as [usecs w1]. cbn [snd] in Hr1, He1, Hs1.
  destruct (SQLexec_shape (DeleteUpTo b) w1) as (wp & (fs & us & Hwp) & [Hok | [Hrc Hw2]]).
  - (* the DELETE ran *)
    rewrite Hok. change (SQLITE_OK =? SQLITE_OK) with true. cbn [negb].
    set (w2 := run (DeleteUpTo b) wp).
    set (w3 := if 150000 <? usecs then log (SleepMs (100 + Z.quot usecs 10000)) w2 else w2).
    set (st1 := mkLoop b _ _ _ _ _).
    set (tail := if _ =? 0 then recalculate st1 w3 else (st1, w3)).
    assert (H2 : readings_1 w2 = filter (fun x => b < rowid x) (readings_1 w)
                 /\ events w2 = events w ++ (Usleep <$> us) ++ [Delete b]
                 /\ purgeBlockSize w2 = purgeBlockSize w
                 /\ changes w2
                    = Z.of_nat (length (readings_1 w)
                                - length (filter (fun x => b < rowid x) (readings_1 w)))).
    { subst w2 wp. cbn. rewrite Hr1, He1, Hs1, <- app_assoc. auto. }
    destruct H2 as (Hr2 & He2 & Hs2 & Hc2).
    assert (H3 : readings_1 w3 = readings_1 w2 /\ purgeBlockSize w3 = purgeBlockSize w2
                 /\ changes w3 = changes w2
                 /\ exists e3, events w3 = events w2 ++ e3 /\ deletes e3 = []).
    { subst w3. destruct (150000 <? usecs); cbn.
      - repeat split. eexists. split; reflexivity.
      - repeat split. exists []. rewrite app_nil_r. split; reflexivity. }
    destruct H3 as (Hr3 & Hs3 & Hc3 & e3 & He3 & Hd3).
    assert (H4 : rowidMin tail.1 = b
                 /\ deletedRows tail.1 = u32 (deletedRows st + changes w3)
                 /\ readings_1 tail.2 = readings_1 w3
                 /\ in_range (purgeBlockSize tail.2)
                 /\ exists e4, events tail.2 = events w3 ++ e4 /\ deletes e4 = []).
    { subst tail. destruct (_ =? 0).
      - destruct (recalculate_idle st1 w3) as (Ha & Hbq & Hc & Hd & He).
        rewrite Ha, Hbq, Hc, Hd. repeat split.
        + apply He. rewrite Hs3, Hs2. exact Hsize.
        + apply He. rewrite Hs3, Hs2. exact Hsize.
        + eexists. split; reflexivity.
      - cbn [fst snd]. repeat split.
        + rewrite Hs3, Hs2. apply Hsize.
        + rewrite Hs3, Hs2. apply Hsize.
        + exists []. rewrite app_nil_r. split; reflexivity. }
    destruct H4 as (Hm4 & Hdel4 & Hr4 & Hs4 & e4 & He4 & Hd4).
    destruct tail as [st2 w4]. cbn [fst snd] in Hm4, Hdel4, Hr4, Hs4, He4.
    assert (Hdel2 : 0 <= deletedRows st2 < 2 ^ 32)
      by (rewrite Hdel4; unfold u32; apply Z.mod_pos_bound; lia).
    destruct (IH st2 w4) as (evs & Hev & Hwin & Hall & Hrange & Hrows & Hres);
      [lia | exact HL | exact Hs4 | exact Hdel2 |].
    exists ((Usleep <$> us) ++ [Delete b] ++ e3 ++ e4 ++ evs).
    assert (Hdeletes : deletes ((Usleep <$> us) ++ [Delete b] ++ e3 ++ e4 ++ evs)
                       = b :: deletes evs).
    { rewrite !deletes_app, deletes_usleeps, Hd3, Hd4. reflexivity. }
    rewrite Hdeletes.
    split; [rewrite Hev, He4, He3, He2, <- !app_assoc; reflexivity |].
    split; [split; [exact Hb1 | rewrite <- Hm4; exact Hwin] |].
    split; [constructor; [exact Hb2 | exact Hall] |].
    split; [exact Hrange |].
    split.
    { rewrite Hrows, Hr4, Hr3, Hr2, !replay_app.
      rewrite (replay_quiet (Usleep <$> us)) by apply deletes_usleeps.
      rewrite (replay_quiet e3), (replay_quiet e4) by assumption.
      reflexivity. }
    destruct (delete_blocks fuel L st2 w4) as [st' w' | w' | w'];
      [| exact Logic.I | rewrite Hm4 in Hres; lia].
    destruct Hres as (Hcount & Hlast & Hnone).
    split; [| split; [| lia]].
    + rewrite Hcount, Hdel4, Hc3, Hc2, Hr4, Hr3, Hr2.
      pose proof (length_filter (fun x => b < rowid x) (readings_1 w)) as Hlen.
      rewrite Nat2Z.inj_sub by exact Hlen.
      unfold u32. rewrite Zplus_mod_idemp_l. f_equal. lia.
    + intros _. destruct (Z.ltb_spec b L) as [HbL | HbL].
      * rewrite Hm4 in Hlast. specialize (Hlast HbL).
        destruct (deletes evs) as [| y ys]; [discriminate |]. exact Hlast.
      * rewrite Hm4 in Hnone. rewrite (Hnone HbL). cbn. f_equal. lia.
  - (* the executor gave up: [return 0] *)
    destruct (SQLexec (DeleteUpTo b) w1) as [rc w2]. cbn [fst snd] in Hrc, Hw2. subst w2.
    destruct (Z.eqb_spec rc SQLITE_OK) as [Heq | _]; [contradiction |]. cbn [negb world_of].
    set (w3 := if 150000 <? usecs then _ else wp).
    assert (H3 : readings_1 w3 = readings_1 w /\ purgeBlockSize w3 = purgeBlockSize w
                 /\ exists e3, events w3 = events w ++ e3 /\ deletes e3 = []).
    { subst w3 wp. destruct (150000 <? usecs); cbn; rewrite Hr1, He1, Hs1.
      - repeat split. eexists. rewrite <- app_assoc. split; [reflexivity |].
        rewrite deletes_app, deletes_usleeps. reflexivity.
      - repeat split. eexists. split; [reflexivity | apply deletes_usleeps]. }
    destruct H3 as (Hr3 & Hs3 & e3 & He3 & Hd3).
    exists e3. rewrite Hd3, Hr3, Hs3, (replay_quiet e3) by exact Hd3.
    split; [exact He3 |]. split; [exact Logic.I |]. split; [constructor |].
    split; [exact Hsize |]. split; [reflexivity | exact Logic.I].
Qed.

(** The count alone, for any limit, block size and fuel: the table
    never grows, and a loop that ends by itself has added to
    [deletedRows] the number of rows that went. *)
Lemma delete_blocks_count L : forall fuel st w,
  0 <= deletedRows st < 2 ^ 32 ->
  (length (readings_1 (world_of (delete_blocks fuel L st w))) <= length (readings_1 w))%nat
  /\ match delete_blocks fuel L st w with
     | Go st' w' =>
         deletedRows st'
         = u32 (deletedRows st
                + (Z.of_nat (length (readings_1 w)) - Z.of_nat (length (readings_1 w'))))
     | _ => True
     end.
Proof.
  induction fuel as [| fuel IH]; intros st w Hdel; [split; [reflexivity | exact Logic.I] |].
  cbn [delete_blocks].
  destruct (rowidMin st <? L); cbn [negb].
  2:{ cbn [world_of]. split; [reflexivity |].
      rewrite Z.sub_diag, Z.add_0_r. unfold u32. rewrite Z.mod_small; lia. }
  set (b := if L <? _ then L else _).
  destruct (measure_idle w) as (Hr1 & _ & _).
  destruct (measure w) as [usecs w1]. cbn [snd] in Hr1.
  destruct (SQLexec_shape (DeleteUpTo b) w1) as (wp & (fs & us & Hwp) & [Hok | [Hrc Hw2]]).
  - rewrite Hok. change (SQLITE_OK =? SQLITE_OK) with true. cbn [negb].
    set (w2 := run (DeleteUpTo b) wp).
    set (w3 := if 150000 <? usecs then log (SleepMs (100 + Z.quot usecs 10000)) w2 else w2).
    set (st1 := mkLoop b _ _ _ _ _).
    set (tail := if _ =? 0 then recalculate st1 w3 else (st1, w3)).
    assert (H3 : readings_1 w3 = filter (fun x => b < rowid x) (readings_1 w)
                 /\ changes w3
                    = Z.of_nat (length (readings_1 w)
                                - length (filter (fun x => b < rowid x) (readings_1 w)))).
    { subst w3 w2 wp. destruct (150000 <? usecs); cbn; rewrite Hr1; auto. }
    destruct H3 as (Hr3 & Hc3).
    assert (H4 : deletedRows tail.1 = u32 (deletedRows st + changes w3)
                 /\ readings_1 tail.2 = readings_1 w3).
    { subst tail. destruct (_ =? 0); [| split; reflexivity].
      destruct (recalculate_idle st1 w3) as (_ & Hbq & Hc & _).
      rewrite Hbq, Hc. split; reflexivity. }
    destruct H4 as (Hdel4 & Hr4).
    destruct tail as [st2 w4]. cbn [fst snd] in Hdel4, Hr4.
    assert (Hdel2 : 0 <= deletedRows st2 < 2 ^ 32)
      by (rewrite Hdel4; unfold u32; apply Z.mod_pos_bound; lia).
    destruct (IH st2 w4 Hdel2) as (Hlen & Hres).
    pose proof (length_filter (fun x => b < rowid x) (readings_1 w)) as Hfl.
    rewrite Hr4, Hr3 in Hlen. split; [lia |].
    destruct (delete_blocks fuel L st2 w4) as [st' w' | w' | w']; [| exact Logic.I ..].
    rewrite Hres, Hdel4, Hc3, Hr4, Hr3.
    rewrite Nat2Z.inj_sub by exact Hfl.
    unfold u32. rewrite Zplus_mod_idemp_l. f_equal. lia.
  - destruct (SQLexec (DeleteUpTo b) w1) as [rc w2]. cbn [fst snd] in Hrc, Hw2. subst w2.
    destruct (Z.eqb_spec rc SQLITE_OK) as [Heq | _]; [contradiction |]. cbn [negb world_of].
    split; [| exact Logic.I].
    subst wp. destruct (150000 <? usecs); cbn; rewrite Hr1; reflexivity.
Qed.

(** *** The queries before the loop *)

Lemma undisturbed_refl w : undisturbed w w.
Proof.
  repeat split. exists []. rewrite app_nil_r. split; reflexivity.
Qed.

Lemma undisturbed_trans a b c : undisturbed a b -> undisturbed b c -> undisturbed a c.
Proof.
  intros (H1 & H2 & H3 & e1 & He1 & Hd1) (H4 & H5 & H6 & e2 & He2 & Hd2).
  split; [congruence |]. split; [congruence |]. split; [congruence |].
  exists (e1 ++ e2). rewrite He2, He1, app_assoc, deletes_app, Hd1, Hd2. split; reflexivity.
Qed.

Lemma idle_undisturbed w wp : idle w wp -> undisturbed w wp.
Proof.
  intros (fs & us & ->). repeat split. eexists. split; [reflexivity | apply deletes_usleeps].
Qed.

Lemma undisturbed_result w r : undisturbed w (set_result r w).
Proof.
  repeat split. exists []. simpl. rewrite app_nil_r. split; reflexivity.
Qed.

Lemma run_select_undisturbed s w : is_select s -> undisturbed w (run s w).
Proof.
  intros Hs. destruct s; simpl in Hs; try contradiction; cbn [run];
    repeat match goal with
           | |- context [match ?l with [] => _ | _ :: _ => _ end] => destruct l
           end; apply undisturbed_result.
Qed.

Lemma quiet_since_refl w : quiet_since w w.
Proof. split; [apply undisturbed_refl | reflexivity]. Qed.

Lemma quiet_since_trans a b c : quiet_since a b -> quiet_since b c -> quiet_since a c.
Proof.
  intros [H1 H2] [H3 H4]. split; [eapply undisturbed_trans; eassumption | congruence].
Qed.

Lemma idle_quiet_since w wp : idle w wp -> quiet_since w wp.
Proof.
  intros H. split; [apply idle_undisturbed, H |]. destruct H as (fs & us & ->). reflexivity.
Qed.

Lemma run_select_quiet_since s w : is_select s -> quiet_since w (run s w).
Proof.
  intros Hs. split; [apply run_select_undisturbed, Hs |].
  destruct s; simpl in Hs; try contradiction; cbn [run];
    repeat match goal with
           | |- context [match ?l with [] => _ | _ :: _ => _ end] => destruct l
           end; reflexivity.
Qed.

(** A query that does not delete, through [exec_or_return]. *)
Lemma select_outcome s w :
  is_select s ->
  outcome (exec_or_return s) w
          (fun _ w' => exists wp, idle w wp /\ w' = run s wp)
          (fun w' => quiet_since w w') (fun _ => False).
Proof.
  intros Hs. unfold outcome, exec_or_return.
  destruct (SQLexec_shape s w) as (wp & Hwp & [Hok | [Hrc Hw']]).
  - rewrite Hok. change (SQLITE_OK =? SQLITE_OK) with true. cbv iota. eauto.
  - destruct (SQLexec s w) as [rc w']. cbn [fst snd] in Hrc, Hw'. subst w'.
    destruct (Z.eqb_spec rc SQLITE_OK); [contradiction |].
    apply idle_quiet_since, Hwp.
Qed.

Lemma idle_untouched w wp : idle w wp -> untouched w wp.
Proof.
  intros (fs & us & ->). split; [reflexivity |]. eexists. split; [reflexivity |].
  intros b Hb. apply list_elem_of_fmap in Hb as (u & Hu & _). discriminate.
Qed.

Lemma outcome_bind {A B} (m : World -> Res A) (k : A -> World -> Res B) w Q Q' E F :
  outcome m w Q E F ->
  (forall a w1, Q a w1 -> outcome (k a) w1 Q' E F) ->
  outcome (bind m k) w Q' E F.
Proof.
  unfold outcome, bind. intros Hm Hk.
  destruct (m w) as [a w1 | w1 | w1]; [apply (Hk a w1 Hm) | exact Hm | exact Hm].
Qed.

Lemma undisturbed_sleep w ms : undisturbed w (log (SleepMs ms) w).
Proof. repeat split. exists [SleepMs ms]. split; reflexivity. Qed.

Lemma undisturbed_writing w ws : undisturbed w (set_writing ws w).
Proof.
  repeat split. exists []. simpl. rewrite app_nil_r. split; reflexivity.
Qed.

(** *** The wait for the writers *)

(** A read gives the value that stands first, and moves the others up. *)
Lemma read_writeAccessOngoing_spec w :
  (read_writeAccessOngoing w).1 = read_at (writing w) 0
  /\ undisturbed w (read_writeAccessOngoing w).2
  /\ forall k, read_at (writing (read_writeAccessOngoing w).2) k
               = read_at (writing w) (S k).
Proof.
  unfold read_writeAccessOngoing.
  destruct (writing w) as [| n [| n' rest]] eqn:Hws; cbn [fst snd].
  - split; [reflexivity |]. split; [apply undisturbed_refl |].
    intros k. rewrite Hws. reflexivity.
  - split; [reflexivity |]. split; [apply undisturbed_refl |].
    intros k. rewrite Hws. unfold read_at. cbn. destruct k; reflexivity.
  - split; [reflexivity |]. split; [apply undisturbed_writing |].
    intros k. reflexivity.
Qed.

(** The loop polls until a read gives 0: it runs no DELETE, and runs out
    of fuel only when none of the reads the fuel allows gives 0. *)
Lemma wait_while_writing_spec : forall fuel w,
  outcome (wait_while_writing fuel) w
          (fun _ w' => undisturbed w w') (fun _ => False)
          (fun w' => undisturbed w w' /\ ~ writers_leave fuel (writing w)).
Proof.
  induction fuel as [| fuel IH]; intros w; unfold outcome; cbn [wait_while_writing].
  - split; [apply undisturbed_refl |]. intros (k & Hk & _). lia.
  - destruct (read_writeAccessOngoing_spec w) as (Hn & Hu & Hnext).
    destruct (read_writeAccessOngoing w) as [n w1]. cbn [fst snd] in Hn, Hu, Hnext.
    destruct (Z.eqb_spec n 0) as [Hz | Hnz]; [exact Hu |].
    specialize (IH (log (SleepMs 100) w1)). unfold outcome in IH.
    assert (Hu1 : undisturbed w (log (SleepMs 100) w1))
      by (eapply undisturbed_trans; [exact Hu | apply undisturbed_sleep]).
    destruct (wait_while_writing fuel (log (SleepMs 100) w1)) as [[] w' | w' | w'].
    + eapply undisturbed_trans; eassumption.
    + exact IH.
    + destruct IH as [Hu' Hstay]. split; [eapply undisturbed_trans; eassumption |].
      intros (k & Hk & Hzero). destruct k as [| k]; [congruence |].
      apply Hstay. exists k. split; [lia |]. cbn [writing log]. rewrite Hnext. exact Hzero.
Qed.

Lemma wait_for_writers_spec fuel w :
  outcome (wait_for_writers fuel) w
          (fun _ w' => undisturbed w w') (fun _ => False)
          (fun w' => undisturbed w w' /\ ~ writers_leave (S fuel) (writing w)).
Proof.
  unfold outcome, wait_for_writers.
  destruct (read_writeAccessOngoing_spec w) as (Hn & Hu & Hnext).
  destruct (read_writeAccessOngoing w) as [n w1]. cbn [fst snd] in Hn, Hu, Hnext.
  destruct (Z.eqb_spec n 0) as [Hz | Hnz]; [exact Hu |].
  pose proof (wait_while_writing_spec fuel w1) as H. unfold outcome in H.
  destruct (wait_while_writing fuel w1) as [[] w' | w' | w'].
  - eapply undisturbed_trans; eassumption.
  - exact H.
  - destruct H as [Hu' Hstay]. split; [eapply undisturbed_trans; eassumption |].
    intros (k & Hk & Hzero). destruct k as [| k]; [congruence |].
    apply Hstay. exists k. split; [lia |]. rewrite Hnext. exact Hzero.
Qed.

(** While every read gives a value other than 0 the wait does not end. *)
Lemma wait_for_writers_blocked fuel w :
  (forall k, read_at (writing w) k <> 0) ->
  exists w', wait_for_writers fuel w = OutOfFuel w'.
Proof.
  intros Hbusy.
  assert (Hloop : forall fuel w, (forall k, read_at (writing w) k <> 0) ->
                    exists w', wait_while_writing fuel w = OutOfFuel w').
  { clear fuel w Hbusy. induction fuel as [| fuel IH]; intros w Hbusy; cbn; [eauto |].
    destruct (read_writeAccessOngoing_spec w) as (Hn & _ & Hnext).
    destruct (read_writeAccessOngoing w) as [n w1]. cbn [fst snd] in Hn, Hnext.
    destruct (Z.eqb_spec n 0) as [Hz | _]; [exfalso; apply (Hbusy 0%nat); congruence |].
    apply IH. intros k. cbn [writing log]. rewrite Hnext. apply Hbusy. }
  unfold wait_for_writers.
  destruct (read_writeAccessOngoing_spec w) as (Hn & _ & Hnext).
  destruct (read_writeAccessOngoing w) as [n w1]. cbn [fst snd] in Hn, Hnext.
  destruct (Z.eqb_spec n 0) as [Hz | _]; [exfalso; apply (Hbusy 0%nat); congruence |].
  apply Hloop. intros k. rewrite Hnext. apply Hbusy.
Qed.

(** *** The three queries that open a purge *)

Lemma rowidCallback_max w wp :
  readings_1 wp = readings_1 w ->
  rowidCallback 0 (run SelectMaxRowid wp) = u64 (snapshot_max w).
Proof.
  intros Hr. unfold rowidCallback, snapshot_max. simpl. rewrite Hr.
  destruct (sql_max (rowid <$> readings_1 w)); reflexivity.
Qed.

Lemma rowidCallback_min w wp :
  readings_1 wp = readings_1 w ->
  rowidCallback 0 (run SelectMinRowid wp) = u64 (snapshot_min w).
Proof.
  intros Hr. unfold rowidCallback, snapshot_min. simpl. rewrite Hr.
  destruct (sql_min (rowid <$> readings_1 w)); reflexivity.
Qed.

(** The continuation is entered with the highest and the lowest rowid of
    the table, as [unsigned long], and with the age to purge by, from a
    world in which no DELETE has run; an engine error ends the purge
    there. *)
Lemma purge_prefix {A} (age : Z) (k : Z -> Z -> Z -> World -> Res A) w Q E F :
  (forall w1, quiet_since w w1 -> E w1) ->
  (forall age1 w1,
      quiet_since w w1 -> (age <> 0 -> age1 = age) ->
      outcome (k (u64 (snapshot_max w)) (u64 (snapshot_min w)) age1) w1 Q E F) ->
  outcome
    (let* _ := exec_or_return SelectMaxRowid in
     let* rowidLimit := get (rowidCallback 0) in
     let* _ := exec_or_return SelectMinRowid in
     let* minrowidLimit := get (rowidCallback 0) in
     let* age1 := (if age =? 0
             then let* _ := exec_or_return (SelectOldestAge rowidLimit) in
                  let* purge_readings := get (selectCallback 0) in
                  get (fun _ => u64 purge_readings)
             else get (fun _ => age)) in
     k rowidLimit minrowidLimit age1)
    w Q E F.
Proof.
  intros HE Hk.
  eapply outcome_bind with
    (Q := fun _ w1 => quiet_since w w1 /\ rowidCallback 0 w1 = u64 (snapshot_max w)).
  { pose proof (select_outcome SelectMaxRowid w Logic.I) as H. unfold outcome in *.
    destruct (exec_or_return SelectMaxRowid w) as [[] w1 | w1 | w1];
      [| apply HE, H | destruct H].
    destruct H as (wp & Hwp & ->). split.
    - eapply quiet_since_trans; [apply idle_quiet_since, Hwp |].
      apply run_select_quiet_since. exact Logic.I.
    - apply rowidCallback_max. destruct Hwp as (fs & us & ->). reflexivity. }
  intros _ w1 [Hw1 Hmax]. unfold outcome at 1, bind at 1, get at 1. rewrite Hmax.
  eapply outcome_bind with
    (Q := fun _ w2 => quiet_since w w2 /\ rowidCallback 0 w2 = u64 (snapshot_min w)).
  { pose proof (select_outcome SelectMinRowid w1 Logic.I) as H. unfold outcome in *.
    destruct (exec_or_return SelectMinRowid w1) as [[] w2 | w2 | w2];
      [| apply HE; eapply quiet_since_trans; [exact Hw1 | exact H] | destruct H].
    destruct H as (wp & Hwp & ->).
    assert (Hu : quiet_since w wp)
      by (eapply quiet_since_trans; [exact Hw1 | apply idle_quiet_since, Hwp]).
    split.
    - eapply quiet_since_trans; [exact Hu |]. apply run_select_quiet_since. exact Logic.I.
    - apply rowidCallback_min. apply Hu. }
  intros _ w2 [Hw2 Hmin]. unfold outcome at 1, bind at 1, get at 1. rewrite Hmin.
  eapply outcome_bind with
    (Q := fun age1 w3 => quiet_since w w3 /\ (age <> 0 -> age1 = age)).
  { destruct (Z.eqb_spec age 0) as [-> | Hage].
    - eapply outcome_bind with (Q := fun _ w3 => quiet_since w w3).
      + pose proof (select_outcome (SelectOldestAge (u64 (snapshot_max w))) w2 Logic.I) as H.
        unfold outcome in *.
        destruct (exec_or_return _ w2) as [[] w3 | w3 | w3];
          [| apply HE; eapply quiet_since_trans; [exact Hw2 | exact H] | destruct H].
        destruct H as (wp & Hwp & ->).
        eapply quiet_since_trans; [exact Hw2 |].
        eapply quiet_since_trans; [apply idle_quiet_since, Hwp |].
        apply run_select_quiet_since. exact Logic.I.
      + intros _ w3 Hw3. unfold outcome, bind, get. split; [exact Hw3 | congruence].
    - unfold outcome, get. split; [exact Hw2 | reflexivity]. }
  intros age1 w3 [Hw3 Hage]. apply Hk; assumption.
Qed.

(** The query for the id of the last row to go, made when unsent rows
    are not kept. *)
Lemma unsent_count_outcome (flags sent rowidLimit : Z) w0 w E F :
  quiet_since w0 w ->
  (forall w1, quiet_since w0 w1 -> E w1) ->
  outcome (if Z.land flags 1 =? 0
           then let* _ := exec_or_return (SelectId rowidLimit) in
                let* lastPurgedId := get (fun w => i32 (rowidCallback 0 w)) in
                get (fun _ =>
                       if negb (sent =? 0) && (sent <? u64 lastPurgedId)
                       then i32 (u64 (rowidLimit - sent))
                       else 0)
           else get (fun _ => 0))
          w (fun _ w1 => quiet_since w0 w1) E F.
Proof.
  intros Hw HE. destruct (Z.land flags 1 =? 0).
  - eapply outcome_bind with (Q := fun _ w1 => quiet_since w0 w1).
    + pose proof (select_outcome (SelectId rowidLimit) w Logic.I) as H. unfold outcome in *.
      destruct (exec_or_return (SelectId rowidLimit) w) as [[] w1 | w1 | w1].
      * destruct H as (wp & Hwp & ->).
        eapply quiet_since_trans; [exact Hw |].
        eapply quiet_since_trans; [apply idle_quiet_since, Hwp |].
        apply run_select_quiet_since. exact Logic.I.
      * apply HE. eapply quiet_since_trans; eassumption.
      * destruct H.
    + intros _ w1 Hw1. unfold outcome, bind, get. exact Hw1.
  - unfold outcome, get. exact Hw.
Qed.

(** *** The search *)

Lemma refine_mid l r :
  1 <= l -> l <= r -> r < 2 ^ 63 ->
  u64 (l + Z.quot (u64 (r - l)) 2) = l + (r - l) / 2
  /\ l <= l + (r - l) / 2 <= r
  /\ u64 (l + (r - l) / 2 - 1) = l + (r - l) / 2 - 1
  /\ u64 (l + (r - l) / 2 + 1) = l + (r - l) / 2 + 1.
Proof.
  intros Hl Hlr Hr.
  assert (H2 : 0 <= (r - l) / 2 <= r - l)
    by (split; [apply Z.div_pos | apply Z.div_le_upper_bound]; lia).
  unfold u64. rewrite (Z.mod_small (r - l)) by lia.
  rewrite Z.quot_div_nonneg by lia.
  rewrite !Z.mod_small by lia. lia.
Qed.

(** The search on positive rowids runs no DELETE, and the [m] it ends
    with is the one it started with or lies between [l - 1] and [r]; it
    runs out of fuel only when [2^(fuel - 1)] does not exceed the width
    of the interval. *)
Lemma refine_spec : forall fuel age l r m w,
  1 <= l -> l <= r + 1 -> r < 2 ^ 63 ->
  outcome (refine fuel age l r m) w
          (fun m' w' => quiet_since w w' /\ (m' = m \/ l - 1 <= m' <= r))
          (quiet_since w)
          (fun w' => quiet_since w w' /\ 2 ^ (Z.of_nat fuel - 1) <= r - l + 1).
Proof.
  induction fuel as [| fuel IH]; intros age l r m w Hl Hlr Hr.
  { unfold outcome. cbn [refine]. split; [apply quiet_since_refl |].
    change (Z.of_nat 0 - 1) with (-1). rewrite Z.pow_neg_r by lia. lia. }
  unfold outcome. cbn [refine].
  destruct (Z.leb_spec l r) as [Hle | Hgt]; cbn [negb];
    [| split; [apply quiet_since_refl | left; reflexivity]].
  destruct (refine_mid l r Hl Hle Hr) as (Hmid & Hm1 & Hleft & Hright).
  rewrite Hmid. set (m1 := l + (r - l) / 2) in *.
  destruct (Z.eqb_spec m m1) as [-> | Hne];
    [split; [apply quiet_since_refl | right; lia] |].
  replace (Z.of_nat (S fuel) - 1) with (Z.of_nat fuel) by lia.
  assert (Hpow : forall x, 2 ^ (Z.of_nat fuel - 1) <= x -> 2 * x <= r - l + 1 ->
                           2 ^ Z.of_nat fuel <= r - l + 1).
  { intros x Hx Hx2. destruct fuel as [| fuel'].
    - change (2 ^ Z.of_nat 0) with 1. lia.
    - replace (Z.of_nat (S fuel')) with (Z.succ (Z.of_nat (S fuel') - 1)) at 1 by lia.
      rewrite Z.pow_succ_r by lia. lia. }
  pose proof (Z.div_mod (r - l) 2 ltac:(lia)) as Hdm.
  pose proof (Z.mod_pos_bound (r - l) 2 ltac:(lia)) as Hmod.
  destruct (SQLexec_shape (SelectOlder m1 age) w) as (wp & Hwp & [Hok | [Hrc Hw']]).
  - rewrite Hok. change (SQLITE_OK =? SQLITE_OK) with true. cbn [negb].
    assert (Hu : quiet_since w (run (SelectOlder m1 age) wp)).
    { eapply quiet_since_trans; [apply idle_quiet_since, Hwp |].
      apply run_select_quiet_since. exact Logic.I. }
    destruct (rowidCallback 0 _ =? 0).
    + rewrite Hleft.
      pose proof (IH age l (m1 - 1) (m1 - 1) (run (SelectOlder m1 age) wp)
                     Hl ltac:(lia) ltac:(lia)) as H.
      unfold outcome in H.
      destruct (refine fuel age l (m1 - 1) (m1 - 1) _) as [m' w' | w' | w'].
      * destruct H as [Hw' Hm'].
        split; [eapply quiet_since_trans; eassumption | right; lia].
      * eapply quiet_since_trans; eassumption.
      * destruct H as [Hw' Hf]. split; [eapply quiet_since_trans; eassumption |].
        apply (Hpow _ Hf). subst m1. lia.
    + rewrite Hright.
      pose proof (IH age (m1 + 1) r m1 (run (SelectOlder m1 age) wp)
                     ltac:(lia) ltac:(lia) Hr) as H.
      unfold outcome in H.
      destruct (refine fuel age (m1 + 1) r m1 _) as [m' w' | w' | w'].
      * destruct H as [Hw' Hm'].
        split; [eapply quiet_since_trans; eassumption | right; lia].
      * eapply quiet_since_trans; eassumption.
      * destruct H as [Hw' Hf]. split; [eapply quiet_since_trans; eassumption |].
        apply (Hpow _ Hf). subst m1. lia.
  - destruct (SQLexec (SelectOlder m1 age) w) as [rc w']. cbn [fst snd] in Hrc, Hw'. subst w'.
    destruct (Z.eqb_spec rc SQLITE_OK); [contradiction |]. cbn [negb].
    apply idle_quiet_since, Hwp.
Qed.


Lemma select_older_none m age w wp :
  idle w wp ->
  (forall x, x ∈ readings_1 w -> older age w x = false) ->
  rowidCallback 0 (run (SelectOlder m age) wp) = 0
  /\ (forall x, x ∈ readings_1 (run (SelectOlder m age) wp) ->
                 older age (run (SelectOlder m age) wp) x = false).
Proof.
  intros (fs & us & ->) Hold. unfold run.
  destruct (filter _ _) as [| x rest] eqn:Hf.
  - split; [reflexivity |]. intros x Hx. exact (Hold x Hx).
  - exfalso.
    assert (Hx : x ∈ x :: rest) by apply list_elem_of_here.
    rewrite <- Hf in Hx. apply list_elem_of_filter in Hx as [[_ Ho] Hx].
    cbn [readings_1] in Hx. specialize (Hold x Hx).
    unfold older in Ho, Hold. cbn [now] in Ho. congruence.
Qed.

(** When no row is older than [age], the search goes left at every
    step, also past rowid 0, where [m - 1] wraps; it runs no DELETE, and
    the [m] it ends with is at most [l]. *)
Lemma refine_nothing_older : forall fuel age l r m w,
  0 <= l < 2 ^ 64 -> 0 <= r < 2 ^ 64 -> m = l \/ m = r ->
  (forall x, x ∈ readings_1 w -> older age w x = false) ->
  outcome (refine fuel age l r m) w
          (fun m' w' => quiet_since w w' /\ m' <= l)
          (quiet_since w) (quiet_since w).
Proof.
  induction fuel as [| fuel IH]; intros age l r m w Hl Hr Hm Hold;
    [apply quiet_since_refl |].
  unfold outcome. cbn [refine].
  destruct (Z.leb_spec l r) as [Hle | Hgt]; cbn [negb];
    [| split; [apply quiet_since_refl | lia]].
  assert (Hmid : u64 (l + Z.quot (u64 (r - l)) 2) = l + (r - l) / 2
                 /\ l <= l + (r - l) / 2 <= r).
  { assert (H2 : 0 <= (r - l) / 2 <= r - l)
      by (split; [apply Z.div_pos | apply Z.div_le_upper_bound]; lia).
    unfold u64. rewrite (Z.mod_small (r - l)) by lia.
    rewrite Z.quot_div_nonneg by lia. rewrite Z.mod_small by lia. lia. }
  destruct Hmid as [Hmid Hm1]. rewrite Hmid. set (m1 := l + (r - l) / 2) in *.
  pose proof (Z.div_mod (r - l) 2 ltac:(lia)) as Hdm.
  pose proof (Z.mod_pos_bound (r - l) 2 ltac:(lia)) as Hmod.
  destruct (Z.eqb_spec m m1) as [Heq | Hne];
    [split; [apply quiet_since_refl | subst m1; lia] |].
  destruct (SQLexec_shape (SelectOlder m1 age) w) as (wp & Hwp & [Hok | [Hrc Hw']]).
  - rewrite Hok. change (SQLITE_OK =? SQLITE_OK) with true. cbn [negb].
    destruct (select_older_none m1 age w wp Hwp Hold) as [Hzero Hold'].
    rewrite Hzero. change (0 =? 0) with true. cbv iota.
    assert (Hu : quiet_since w (run (SelectOlder m1 age) wp)).
    { eapply quiet_since_trans; [apply idle_quiet_since, Hwp |].
      apply run_select_quiet_since. exact Logic.I. }
    assert (Hr1 : 0 <= u64 (m1 - 1) < 2 ^ 64) by (unfold u64; apply Z.mod_pos_bound; lia).
    pose proof (IH age l (u64 (m1 - 1)) (u64 (m1 - 1)) (run (SelectOlder m1 age) wp)
                   Hl Hr1 ltac:(right; reflexivity) Hold') as H.
    unfold outcome in H.
    destruct (refine fuel age l (u64 (m1 - 1)) (u64 (m1 - 1)) _) as [m' w' | w' | w'].
    + destruct H as [Hw' Hm']. split; [eapply quiet_since_trans; eassumption | exact Hm'].
    + eapply quiet_since_trans; eassumption.
    + eapply quiet_since_trans; eassumption.
  - destruct (SQLexec (SelectOlder m1 age) w) as [rc w']. cbn [fst snd] in Hrc, Hw'. subst w'.
    destruct (Z.eqb_spec rc SQLITE_OK); [contradiction |]. cbn [negb].
    apply idle_quiet_since, Hwp.
Qed.

(** Any search runs no DELETE. *)
Lemma refine_quiet : forall fuel age l r m w,
  quiet_since w (world_of (refine fuel age l r m w)).
Proof.
  induction fuel as [| fuel IH]; intros age l r m w; cbn [refine world_of];
    [apply quiet_since_refl |].
  destruct (l <=? r); cbn [negb world_of]; [| apply quiet_since_refl].
  set (m1 := u64 _).
  destruct (m =? m1); cbn [world_of]; [apply quiet_since_refl |].
  destruct (SQLexec_shape (SelectOlder m1 age) w) as (wp & Hwp & [Hok | [Hrc Hw']]).
  - rewrite Hok. change (SQLITE_OK =? SQLITE_OK) with true. cbn [negb].
    assert (Hu : quiet_since w (run (SelectOlder m1 age) wp)).
    { eapply quiet_since_trans; [apply idle_quiet_since, Hwp |].
      apply run_select_quiet_since. exact Logic.I. }
    destruct (rowidCallback 0 _ =? 0);
      (eapply quiet_since_trans; [exact Hu | apply IH]).
  - destruct (SQLexec (SelectOlder m1 age) w) as [rc w']. cbn [fst snd] in Hrc, Hw'. subst w'.
    destruct (Z.eqb_spec rc SQLITE_OK); [contradiction |]. cbn [negb world_of].
    apply idle_quiet_since, Hwp.
Qed.

(** *** The whole purge *)

Lemma snapshot_min_le_max w : snapshot_min w <= snapshot_max w.
Proof.
  unfold snapshot_min, snapshot_max.
  destruct (rowid <$> readings_1 w) as [| v vs]; [reflexivity |]. simpl.
  induction vs as [| y ys IH]; simpl; lia.
Qed.

Lemma undisturbed_blocks w w1 :
  undisturbed w w1 -> in_range (purgeBlockSize w) ->
  exists evs, purged_in_blocks w w1 evs.
Proof.
  intros (Hr & Hs & _ & evs & Hev & Hd) Hsize. exists evs.
  unfold purged_in_blocks. rewrite Hd, Hr, Hs, (replay_quiet evs) by exact Hd.
  split; [exact Hev |]. split; [exact Logic.I |]. split; [constructor |].
  split; [reflexivity | exact Hsize].
Qed.

Lemma quiet_since_blocks w w1 :
  quiet_since w w1 -> in_range (purgeBlockSize w) ->
  exists evs, purged_in_blocks w w1 evs.
Proof. intros [H _]. apply undisturbed_blocks, H. Qed.

(** A purge of a table whose rowids are positive, with the block size in
    range.  Wherever it stops the log is one of blocks inside the
    snapshot.  It runs out of fuel only when the fuel is short of the 64
    halvings of the search or of the passes of the block loop, or when
    [m_writeAccessOngoing] gives 0 at none of the reads that the fuel
    allows. *)
Lemma purgeReadings_run (fuel : nat) (age flags sent : Z) (w : World) :
  (forall x, x ∈ readings_1 w -> 1 <= rowid x < 2 ^ 63) ->
  in_range (purgeBlockSize w) ->
  outcome (purgeReadings fuel age flags sent) w
          (fun out w' =>
             (exists evs, purged_in_blocks w w' evs)
             /\ out.1 = removed out.2
             /\ out.1 = u32 (Z.of_nat (length (readings_1 w))
                             - Z.of_nat (length (readings_1 w'))))
          (fun w' => exists evs, purged_in_blocks w w' evs)
          (fun w' =>
             (exists evs, purged_in_blocks w w' evs)
             /\ ~ (64 <= Z.of_nat fuel
                   /\ (snapshot_max w - snapshot_min w + 19) / 20 + 1 <= Z.of_nat fuel
                   /\ writers_leave (S fuel) (writing w))).
Proof.
  intros Hrows Hsize. unfold purgeReadings.
  apply purge_prefix.
  { intros w1 Hw1. apply quiet_since_blocks; assumption. }
  intros age1 w1 Hw1 _. cbv zeta.
  pose proof (snapshot_min_le_max w) as Hle.
  pose proof (snapshot_bounds w Hrows) as Hb.
  rewrite (u64_id (snapshot_max w)), (u64_id (snapshot_min w)) by lia.
  set (l := snapshot_min w) in *. set (top := snapshot_max w) in *.
  assert (Hr : l <= search_ceiling flags sent top l <= top).
  { unfold search_ceiling. destruct (_ && _); lia. }
  set (r := search_ceiling flags sent top l) in *.
  destruct (Z.eqb_spec l r) as [Heq | Hne].
  { unfold outcome. apply quiet_since_blocks; assumption. }
  assert (Hl : 1 <= l /\ top < 2 ^ 63) by lia. destruct Hl as [Hl Htop].
  eapply outcome_bind with
    (Q := fun m w2 => quiet_since w w2 /\ l - 1 <= m <= top).
  { pose proof (refine_spec fuel age1 l r l w1 Hl ltac:(lia) ltac:(lia)) as H.
    unfold outcome in *.
    destruct (refine fuel age1 l r l w1) as [m w2 | w2 | w2].
    - destruct H as [Hw2 Hm].
      split; [eapply quiet_since_trans; eassumption | lia].
    - apply quiet_since_blocks; [| exact Hsize].
      eapply quiet_since_trans; eassumption.
    - destruct H as [Hw2 Hpow]. split.
      + apply quiet_since_blocks; [| exact Hsize].
        eapply quiet_since_trans; eassumption.
      + intros (Hfuel & _).
        assert (2 ^ 63 <= 2 ^ (Z.of_nat fuel - 1)) by (apply Z.pow_le_mono_r; lia). lia. }
  intros m w2 [Hw2 Hm].
  destruct (Z.eqb_spec l m) as [Heq | Hlm].
  { unfold outcome. apply quiet_since_blocks; assumption. }
  eapply outcome_bind with (Q := fun _ w3 => quiet_since w w3).
  { apply unsent_count_outcome; [exact Hw2 |].
    intros w3 Hw3. apply quiet_since_blocks; assumption. }
  intros unsentPurged0 w3 Hw3.
  eapply outcome_bind with (Q := fun _ w4 => undisturbed w w4).
  { pose proof (wait_for_writers_spec fuel w3) as H. unfold outcome in *.
    destruct Hw3 as [Hu3 Hws3].
    destruct (wait_for_writers fuel w3) as [[] w4 | w4 | w4].
    - eapply undisturbed_trans; eassumption.
    - destruct H.
    - destruct H as [Hu4 Hstay]. split.
      + apply undisturbed_blocks; [| exact Hsize]. eapply undisturbed_trans; eassumption.
      + intros (_ & _ & Hleave). apply Hstay. rewrite Hws3. exact Hleave. }
  intros _ w4 Hw4.
  destruct Hw4 as (Hr4 & Hs4 & _ & e4 & He4 & Hd4).
  destruct (delete_blocks_spec m fuel (mkLoop l 0 0 0 0 0) w4)
    as (evs & Hev & Hwin & Hall & Hrange & Hrep & Hres).
  { cbn [rowidMin]. lia. }
  { lia. }
  { rewrite Hs4. exact Hsize. }
  { cbn [deletedRows]. lia. }
  cbn [rowidMin deletedRows] in Hwin, Hres.
  assert (Hlog : purged_in_blocks w (world_of (delete_blocks fuel m (mkLoop l 0 0 0 0 0) w4))
                                  (e4 ++ evs)).
  { unfold purged_in_blocks. rewrite Hev, He4, Hrep, Hr4, deletes_app, Hd4, replay_app,
      (replay_quiet e4), <- app_assoc by exact Hd4.
    split; [reflexivity |]. split; [exact Hwin |].
    split; [| split; [reflexivity | exact Hrange]].
    eapply Forall_impl; [exact Hall |]. intros b Hbm. simpl in Hbm. lia. }
  unfold outcome, bind.
  destruct (delete_blocks fuel m (mkLoop l 0 0 0 0 0) w4) as [st' w' | w' | w'];
    cbn [world_of] in Hlog.
  - unfold get. cbn [fst snd removed]. destruct Hres as (Hcount & _).
    split; [eauto |]. split; [reflexivity |].
    rewrite Hcount, Hr4. reflexivity.
  - eauto.
  - split; [eauto |]. intros (_ & Hfuel & _).
    assert ((Z.max 0 (m - l) + 19) / 20 <= (top - l + 19) / 20)
      by (apply Z.div_le_mono; lia).
    lia.
Qed.

(** What a purge hands back, whatever the table, the block size and the
    fuel: the count of the block loop, which is the number of rows the
    table has lost, modulo 2^32. *)
Lemma purgeReadings_count (fuel : nat) (age flags sent : Z) (w : World) :
  outcome (purgeReadings fuel age flags sent) w
          (fun out w' =>
             out.1 = removed out.2
             /\ out.1 = u32 (Z.of_nat (length (readings_1 w))
                             - Z.of_nat (length (readings_1 w')))
             /\ (length (readings_1 w') <= length (readings_1 w))%nat)
          (fun _ => True) (fun _ => True).
Proof.
  unfold purgeReadings. apply purge_prefix; [auto |].
  intros age1 w1 Hw1 _. cbv zeta.
  destruct (_ =? _); [exact Logic.I |].
  eapply outcome_bind with (Q := fun _ w2 => quiet_since w w2).
  { pose proof (refine_quiet fuel age1 (u64 (snapshot_min w))
                  (search_ceiling flags sent (u64 (snapshot_max w)) (u64 (snapshot_min w)))
                  (u64 (snapshot_min w)) w1) as H.
    unfold outcome. destruct (refine _ _ _ _ _ w1); [| exact Logic.I ..].
    eapply quiet_since_trans; eassumption. }
  intros m w2 Hw2.
  destruct (_ =? _); [exact Logic.I |].
  eapply outcome_bind with (Q := fun _ w3 => quiet_since w w3).
  { apply unsent_count_outcome; [exact Hw2 | auto]. }
  intros unsentPurged0 w3 [Hw3 _].
  eapply outcome_bind with (Q := fun _ w4 => undisturbed w w4).
  { pose proof (wait_for_writers_spec fuel w3) as H. unfold outcome in *.
    destruct (wait_for_writers fuel w3) as [[] w4 | w4 | w4]; [| exact Logic.I ..].
    eapply undisturbed_trans; eassumption. }
  intros _ w4 (Hr4 & _).
  unfold outcome, bind.
  destruct (delete_blocks_count m fuel (mkLoop (u64 (snapshot_min w)) 0 0 0 0 0) w4)
    as (Hlen & Hres); [cbn [deletedRows]; lia |].
  destruct (delete_blocks fuel m _ w4) as [st' w' | w' | w']; [| exact Logic.I ..].
  unfold get. cbn [fst snd removed world_of deletedRows] in *.
  rewrite Hr4 in Hres, Hlen.
  split; [reflexivity |]. split; [exact Hres | exact Hlen].
Qed.

(** While [m_writeAccessOngoing] is never read as 0 the purge does not
    get past its wait: it ends before the wait by [return 0], or polls
    for ever. *)
Lemma purge_waits_for_writers (fuel : nat) (age flags sent : Z) (w : World) :
  (forall k, read_at (writing w) k <> 0) ->
  outcome (purgeReadings fuel age flags sent) w
          (fun _ _ => False) (undisturbed w) (undisturbed w).
Proof.
  intros Hbusy. unfold purgeReadings. apply purge_prefix; [intros w1 Hw1; apply Hw1 |].
  intros age1 w1 Hw1 _. cbv zeta.
  destruct (_ =? _); [apply Hw1 |].
  eapply outcome_bind with (Q := fun _ w2 => quiet_since w w2).
  { pose proof (refine_quiet fuel age1 (u64 (snapshot_min w))
                  (search_ceiling flags sent (u64 (snapshot_max w)) (u64 (snapshot_min w)))
                  (u64 (snapshot_min w)) w1) as H.
    assert (H' : quiet_since w (world_of (refine fuel age1 (u64 (snapshot_min w))
                  (search_ceiling flags sent (u64 (snapshot_max w)) (u64 (snapshot_min w)))
                  (u64 (snapshot_min w)) w1)))
      by (eapply quiet_since_trans; eassumption).
    unfold outcome. destruct (refine _ _ _ _ _ w1); cbn [world_of] in H';
      [exact H' | apply H' | apply H']. }
  intros m w2 Hw2.
  destruct (_ =? _); [apply Hw2 |].
  eapply outcome_bind with (Q := fun _ w3 => quiet_since w w3).
  { apply unsent_count_outcome; [exact Hw2 |]. intros w3 Hw3. apply Hw3. }
  intros unsentPurged0 w3 [Hw3 Hws3].
  unfold outcome, bind.
  destruct (wait_for_writers_blocked fuel w3) as (w4 & Hwait);
    [rewrite Hws3; exact Hbusy |].
  pose proof (wait_for_writers_spec fuel w3) as H. unfold outcome in H.
  rewrite Hwait in *. eapply undisturbed_trans; [exact Hw3 | apply H].
Qed.

Lemma example_world_rowids n us x :
  x ∈ readings_1 (example_world n us) -> 1 <= rowid x < 2 ^ 63 \/ 2 ^ 63 <= n.
Proof.
  intros Hx. apply list_elem_of_fmap in Hx as (i & -> & Hi).
  apply elem_of_seqZ in Hi. simpl. lia.
Qed.



(** The purge of the witness finds the counter raised, polls once more
    in vain and sleeps, then deletes in five blocks. *)
Example purge_after_a_poll :
  events (world_of (purgeReadings 100 60 0 0 (set_writing [2; 1; 0] (example_world 100 0))))
  = [SleepMs 100; Delete 21; Delete 41; Delete 61; Delete 81; Delete 100].
Proof. vm_compute. reflexivity. Qed.

(** With a counter stuck at 1 the same purge never gets to delete: it is
    still polling when the fuel is used up, here after 100 sleeps. *)
Example purge_polls_for_ever :
  match purgeReadings 100 60 0 0 (set_writing [1] (example_world 100 0)) with
  | OutOfFuel w' =>
      events w' = replicate 100 (SleepMs 100)
      /\ readings_1 w' = readings_1 (example_world 100 0)
  | _ => False
  end.
Proof. vm_compute. split; reflexivity. Qed.

(** X3.  The purge works in blocks and inside the snapshot.  On a table
    whose rowids are positive, with the block size within [[20, 1500]],
    wherever the purge stops (at its end, on an engine error, while it
    waits for the writers, for lack of fuel), the bounds of the DELETE
    statements it ran rise from the lowest rowid of the table, each at
    most 1500 above the one before it, and none exceeds the highest rowid
    the table had when the purge began; the table is the one it found
    with these DELETEs applied, and the block size is still within
    [[20, 1500]]. *)
Theorem purge_deletes_in_blocks (fuel : nat) (age flags sent : Z) (w : World) :
  (forall x, x ∈ readings_1 w -> 1 <= rowid x < 2 ^ 63) ->
  in_range (purgeBlockSize w) ->
  exists evs,
    purged_in_blocks w (world_of (purgeReadings fuel age flags sent w)) evs.
Proof.
  intros Hrows Hsize.
  pose proof (purgeReadings_run fuel age flags sent w Hrows Hsize) as H.
  unfold outcome in H.
  destruct (purgeReadings fuel age flags sent w) as [out w' | w' | w']; cbn [world_of];
    apply H.
Qed.

Lemma purge_deletes_in_blocks_witness :
  exists evs,
    purged_in_blocks (example_world 100 0)
                     (world_of (purgeReadings 100 60 0 0 (example_world 100 0))) evs.
Proof.
  apply purge_deletes_in_blocks.
  - intros x Hx. destruct (example_world_rowids 100 0 x Hx); lia.
  - unfold in_range. vm_compute. split; discriminate.
Defined.

(** The purge of the witness: five blocks of 20 rowids. *)
Example purge_in_five_blocks :
  deletes (events (world_of (purgeReadings 100 60 0 0 (example_world 100 0))))
  = [21; 41; 61; 81; 100].
Proof. vm_compute. reflexivity. Qed.

(** The rowids have to be positive for the DELETEs to stay inside the
    snapshot.  Row 0 is taken for "no row" by the search ([midRowId ==
    0]), [r = m - 1] wraps at [m = 0], and on the rows 0, 7 and 11 the
    search settles on 12: the DELETE has a bound above the highest rowid
    of the table. *)
Example purge_leaves_the_snapshot_at_rowid_0 :
  snapshot_max example_world_rowids_0_7_11 = 11
  /\ events (world_of (purgeReadings 200 60 0 0 example_world_rowids_0_7_11)) = [Delete 12].
Proof. vm_compute. split; reflexivity. Qed.

(** X4.  The count handed back is the number of rows that went.  Whenever
    a purge runs to its end, on any table of fewer than 2^32 rows, the
    value returned and the [removed] member of the result both equal the
    number of rows the table has lost. *)
Theorem purge_returns_rows_removed
        (fuel : nat) (age flags sent : Z) (w w' : World) (n : Z) (res : PurgeResult) :
  Z.of_nat (length (readings_1 w)) < 2 ^ 32 ->
  purgeReadings fuel age flags sent w = Go (n, res) w' ->
  n = Z.of_nat (length (readings_1 w)) - Z.of_nat (length (readings_1 w'))
  /\ removed res = n.
Proof.
  intros Hlen Hrun.
  pose proof (purgeReadings_count fuel age flags sent w) as H.
  unfold outcome in H. rewrite Hrun in H. cbn [fst snd] in H.
  destruct H as (Hrem & Hcount & Hsub).
  split; [| congruence].
  rewrite Hcount. unfold u32. apply Z.mod_small. lia.
Qed.

Lemma purge_returns_rows_removed_witness :
  exists w' res,
    purgeReadings 100 60 0 0 (example_world 100 0) = Go (100, res) w'
    /\ 100 = Z.of_nat (length (readings_1 (example_world 100 0)))
             - Z.of_nat (length (readings_1 w'))
    /\ removed res = 100.
Proof.
  destruct (purgeReadings 100 60 0 0 (example_world 100 0)) as [[n res] w' | w' | w'] eqn:Hrun;
    [| vm_compute in Hrun; discriminate | vm_compute in Hrun; discriminate].
  assert (Hn : n = 100) by (vm_compute in Hrun; injection Hrun as <- _ _; reflexivity).
  subst n. exists w', res. split; [reflexivity |].
  apply (purge_returns_rows_removed 100 60 0 0 (example_world 100 0) w' 100 res).
  - vm_compute. reflexivity.
  - exact Hrun.
Defined.

(** The count is right on the table with rowid 0 as well: its three rows
    go, and 3 is handed back. *)
Example purge_counts_at_rowid_0 :
  match purgeReadings 200 60 0 0 example_world_rowids_0_7_11 with
  | Go (n, res) w' => n = 3 /\ removed res = 3 /\ readings_1 w' = []
  | _ => False
  end.
Proof. vm_compute. repeat split. Qed.

(** *** Tables on which nothing is deleted *)


Lemma u64_range a : 0 <= u64 a < 2 ^ 64.
Proof. unfold u64. apply Z.mod_pos_bound. lia. Qed.



(** X6.  Nothing is deleted when nothing is old enough.  For an age
    other than 0 and a table, on any rowids, none of whose rows is older
    than the age, the purge runs no DELETE, wherever it stops: the table
    is as it was. *)
Theorem purge_keeps_table_without_old_rows (fuel : nat) (age flags sent : Z) (w : World) :
  age <> 0 ->
  (forall x, x ∈ readings_1 w -> older age w x = false) ->
  undisturbed w (world_of (purgeReadings fuel age flags sent w)).
Proof.
  intros Hage Hold.
  assert (H : outcome (purgeReadings fuel age flags sent) w
                      (fun _ => undisturbed w) (undisturbed w) (undisturbed w)).
  { unfold purgeReadings.
    apply purge_prefix; [intros w1 Hw1; apply Hw1 |].
    intros age1 w1 Hw1 Hage1. rewrite (Hage1 Hage). cbv zeta.
    pose proof (u64_range (snapshot_min w)) as Hl.
    pose proof (u64_range (snapshot_max w)) as Htop.
    set (l := u64 (snapshot_min w)) in *. set (top := u64 (snapshot_max w)) in *.
    assert (Hr : l <= search_ceiling flags sent top l < 2 ^ 64).
    { unfold search_ceiling. destruct (_ && _); lia. }
    set (r := search_ceiling flags sent top l) in *.
    destruct (Z.eqb_spec l r) as [Heq | Hne]; [apply Hw1 |].
    assert (Hold1 : forall x, x ∈ readings_1 w1 -> older age w1 x = false).
    { destruct Hw1 as ((Hr1 & _ & Hn1 & _) & _). intros x Hx. rewrite Hr1 in Hx.
      specialize (Hold x Hx). unfold older in *. rewrite Hn1. exact Hold. }
    eapply outcome_bind with (Q := fun m w2 => quiet_since w w2 /\ m <= l).
    { pose proof (refine_nothing_older fuel age l r l w1 Hl ltac:(lia)
                    ltac:(left; reflexivity) Hold1) as Hno.
      unfold outcome in *.
      destruct (refine fuel age l r l w1) as [m w2 | w2 | w2].
      - destruct Hno as [Hw2 Hm]. split; [eapply quiet_since_trans; eassumption | exact Hm].
      - apply (quiet_since_trans w w1 w2 Hw1 Hno).
      - apply (quiet_since_trans w w1 w2 Hw1 Hno). }
    intros m w2 [Hw2 Hm].
    destruct (Z.eqb_spec l m) as [Heq | Hlm]; [apply Hw2 |].
    eapply outcome_bind with (Q := fun _ w3 => quiet_since w w3).
    { apply unsent_count_outcome; [exact Hw2 |]. intros w3 Hw3. apply Hw3. }
    intros unsentPurged0 w3 [Hw3 _].
    eapply outcome_bind with (Q := fun _ w4 => undisturbed w w4).
    { pose proof (wait_for_writers_spec fuel w3) as H. unfold outcome in *.
      destruct (wait_for_writers fuel w3) as [[] w4 | w4 | w4].
      - eapply undisturbed_trans; eassumption.
      - destruct H.
      - eapply undisturbed_trans; [exact Hw3 | apply H]. }
    intros _ w4 Hw4. unfold outcome, bind.
    destruct fuel as [| fuel']; [exact Hw4 |]. cbn [delete_blocks rowidMin].
    destruct (Z.ltb_spec l m); [lia |]. cbn [negb]. unfold get. exact Hw4. }
  unfold outcome in H.
  destruct (purgeReadings fuel age flags sent w); exact H.
Qed.

Lemma purge_keeps_table_without_old_rows_witness :
  undisturbed (example_world 100 0)
              (world_of (purgeReadings 100 3000 0 0 (example_world 100 0))).
Proof.
  apply purge_keeps_table_without_old_rows.
  - discriminate.
  - intros x Hx. apply list_elem_of_fmap in Hx as (i & -> & Hi).
    apply elem_of_seqZ in Hi. unfold older. cbn. lia.
Defined.

(** On the table whose lowest rowid is 0 the search wraps and comes back
    to 0: nothing is deleted when no row is older than the age. *)
Example purge_keeps_young_rows_at_rowid_0 :
  let w' := world_of (purgeReadings 200 3000 0 0 example_world_rowids_0_7_11) in
  events w' = [] /\ readings_1 w' = readings_1 example_world_rowids_0_7_11.
Proof. vm_compute. split; reflexivity. Qed.

End PurgeRun.
(** ** More on the global id *)

Section CatalogueMore.
Import Sqlite Int Retry Catalogue CatalogueExamples.






(** X8.  A missing readings table goes unnoticed at start-up.  When the
    stored id is -1 and a table named by the catalogue does not exist,
    the query of [calculateGlobalId] cannot be prepared and its
    [return false] becomes the id 0: [evaluateGlobalId] adopts 0 as the
    next id, overwrites the stored rows with -1 and reports success. *)
Theorem evaluateGlobalId_missing_table
        (rc : ReadingsCatalogue) (c : Conn) (rest : list Z) :
  quiet c ->
  configuration_readings (db c) = -1 :: rest ->
  compiles (SelectMaxId (catalogue_tables rc)) (db c) = false ->
  exists c',
    evaluateGlobalId rc c = (true, set_globalId 0 rc, c')
    /\ configuration_readings (db c') = replicate (S (length rest)) (-1)
    /\ readings (db c') = readings (db c).
Proof.
  intros Hq Hrows Hmissing. unfold evaluateGlobalId.
  rewrite prepare_quiet by assumption. cbn [compiles].
  change (negb (SQLITE_OK =? SQLITE_OK)) with false. cbv iota.
  pose proof (tick_quiet c Hq) as Hq1.
  rewrite SQLStep_quiet by assumption.
  change (db (tick c)) with (db c). rewrite Hrows.
  change (negb (SQLITE_ROW =? SQLITE_ROW)) with false. cbv iota.
  set (c2 := set_cursor (Some (-1)) (tick (tick c))).
  assert (Hq2 : quiet c2) by (apply (tick_quiet _ Hq1)).
  change (sqlite3_column_int c2) with (-1).
  change (m_globalId (set_globalId (-1) rc) =? -1) with true. cbn [negb]. cbv iota.
  unfold calculateGlobalId.
  change (catalogue_tables (set_globalId (-1) rc)) with (catalogue_tables rc).
  rewrite prepare_quiet by assumption.
  change (db c2) with (db c). rewrite Hmissing.
  change (negb (SQLITE_ERROR =? SQLITE_OK)) with true. cbv iota.
  rewrite SQLexec_quiet by (apply tick_quiet; assumption).
  unfold run_command. change (sql_integer "-1") with (Some (-1)).
  cbn [mbind option_bind]. change (negb (SQLITE_OK =? SQLITE_OK)) with false. cbv iota.
  eexists. split; [reflexivity |].
  cbn [db set_db tick c2 set_cursor configuration_readings readings].
  rewrite Hrows. cbn [fmap list_fmap length replicate]. split; [| reflexivity].
  f_equal. apply const_fmap. reflexivity.
Qed.

Lemma evaluateGlobalId_missing_table_witness :
  exists c',
    evaluateGlobalId (mkCatalogue 0 stray_assets) stray_conn
    = (true, mkCatalogue 0 stray_assets, c')
    /\ configuration_readings (db c') = [-1].
Proof.
  destruct (evaluateGlobalId_missing_table (mkCatalogue 0 stray_assets) stray_conn [])
    as (c' & Hrun & Hrows & _).
  - constructor.
  - reflexivity.
  - vm_compute. reflexivity.
  - exists c'. split; [exact Hrun | exact Hrows].
Defined.

(** When the executor answers [SQLITE_OK] the command has just run. *)
Lemma SQLexec_ran cmd c c' :
  SQLexec cmd c = (SQLITE_OK, c') ->
  exists cp d, run_command cmd (db cp) = Some d /\ db c' = d.
Proof.
  unfold SQLexec, retry.
  destruct (retry_loop _ _ _ 0 c) as [[rc c1] |] eqn:Hloop; [| discriminate].
  intros [= -> ->].
  destruct (retry_loop_last (sqlite3_exec cmd) usleep (fun _ _ => True)
              (fun _ => Logic.I) (fun _ _ _ _ _ => Logic.I) (fun _ => Logic.I)
              (fun _ _ => Logic.I) _ _ _ _ _ Hloop eq_refl) as (cp & _ & Hlast).
  unfold sqlite3_exec in Hlast. destruct (enter cp) as [f c2] eqn:He.
  assert (Hdb : db c2 = db cp).
  { unfold enter in He. destruct (next_fault (faults cp)). injection He as _ <-. reflexivity. }
  destruct (Z.eqb_spec f SQLITE_OK) as [-> | Hne]; [| injection Hlast as Hf _; congruence].
  destruct (run_command cmd (db c2)) as [d |] eqn:Hrun; [| discriminate].
  injection Hlast as <-. exists cp, d. rewrite <- Hdb. split; [exact Hrun | reflexivity].
Qed.

(** X9.  Success means the marker is in place.  Whatever the engine
    answers on the way, [evaluateGlobalId] returns true only once every
    row of [configuration_readings] holds -1, the value that makes the
    next start-up recompute the id should the service crash. *)
Theorem evaluateGlobalId_success_leaves_marker
        (rc rc' : ReadingsCatalogue) (c c' : Conn) :
  evaluateGlobalId rc c = (true, rc', c') ->
  forall v, v ∈ configuration_readings (db c') -> v = -1.
Proof.
  unfold evaluateGlobalId.
  destruct (sqlite3_prepare_v2 SelectGlobalId c) as [r c1].
  destruct (negb (r =? SQLITE_OK)); [discriminate |].
  destruct (SQLStep SelectGlobalId c1) as [r2 c2].
  destruct (if negb (r2 =? SQLITE_ROW) then _ else _) as [[ok rc1] c3].
  destruct (negb ok); [discriminate |].
  destruct (if m_globalId rc1 =? -1 then _ else _) as [rc2 c4].
  destruct (SQLexec (UpdateGlobalId "-1") c4) as [r5 c5] eqn:Hupd.
  destruct (Z.eqb_spec r5 SQLITE_OK) as [-> | Hne]; [| discriminate].
  intros [= <- <-] v Hv.
  destruct (SQLexec_ran _ _ _ Hupd) as (cp & d & Hrun & Hdb).
  unfold run_command in Hrun. change (sql_integer "-1") with (Some (-1)) in Hrun.
  cbn [mbind option_bind] in Hrun. injection Hrun as <-.
  rewrite Hdb in Hv. cbn [configuration_readings] in Hv.
  apply list_elem_of_fmap in Hv as (v0 & -> & _). reflexivity.
Qed.

Lemma evaluateGlobalId_success_leaves_marker_witness :
  (evaluateGlobalId (mkCatalogue 0 example_assets) (example_conn 43)).1.1 = true
  /\ Forall (fun v => v = -1)
            (configuration_readings
               (db (evaluateGlobalId (mkCatalogue 0 example_assets) (example_conn 43)).2)).
Proof.
  split; [vm_compute; reflexivity |]. apply Forall_forall.
  apply (evaluateGlobalId_success_leaves_marker
           (mkCatalogue 0 example_assets)
           (evaluateGlobalId (mkCatalogue 0 example_assets) (example_conn 43)).1.2
           (example_conn 43)).
  vm_compute. reflexivity.
Defined.

Lemma double_minus_to_string g : g < 0 -> sql_integer ("-" +:+ to_string g) = None.
Proof.
  intros Hg. destruct g as [| p | p]; [lia | lia |].
  unfold sql_integer, to_string. cbn [Z.to_int NilZero.string_of_int].
  change (NilZero.int_of_string ("-" +:+ ?s))
    with (option_map Decimal.Neg (NilZero.uint_of_string s)).
  unfold NilZero.uint_of_string. cbn [NilEmpty.uint_of_string].
  destruct (NilEmpty.uint_of_string _); reflexivity.
Qed.

(** X10.  What a shutdown stores.  With no engine fault [storeGlobalId]
    writes the text "-" followed by the id: for an id of 0 or more every
    stored row becomes the negated id; for a negative id the text starts
    with two minus signs, the statement fails, the function returns false
    and the stored rows are left as they are. *)
Theorem storeGlobalId_outcomes (rc : ReadingsCatalogue) (c : Conn) :
  quiet c ->
  (0 <= m_globalId rc ->
     (storeGlobalId rc c).1 = true
     /\ configuration_readings (db (storeGlobalId rc c).2)
        = (fun _ => - m_globalId rc) <$> configuration_readings (db c))
  /\ (m_globalId rc < 0 ->
        (storeGlobalId rc c).1 = false
        /\ db (storeGlobalId rc c).2 = db c).
Proof.
  intros Hq. split.
  - intros Hg. rewrite storeGlobalId_stores_negated_id by assumption.
    split; reflexivity.
  - intros Hg. unfold storeGlobalId. rewrite SQLexec_quiet by assumption.
    unfold run_command. rewrite double_minus_to_string by assumption.
    split; reflexivity.
Qed.

Lemma storeGlobalId_outcomes_witness :
  (storeGlobalId (mkCatalogue (-43) example_assets) (example_conn (-1))).1 = false
  /\ db (storeGlobalId (mkCatalogue (-43) example_assets) (example_conn (-1))).2
     = example_db (-1).
Proof.
  destruct (storeGlobalId_outcomes (mkCatalogue (-43) example_assets) (example_conn (-1)))
    as [_ H]; [constructor |].
  apply H. simpl. lia.
Defined.

End CatalogueMore.


(** ** More on the asset catalogue and on [readingStream] *)

Section CatalogueTablesProperties.
Import Sqlite Int Retry Insert CatalogueTables.

Lemma SQLexec_cat cmd c : cat (SQLexec cmd c).2 = cat c.
Proof.
  unfold SQLexec.
  apply (retry_preserves (sqlite3_exec cmd) (fun us => log (Usleep us))
                         (fun a b => cat b = cat a)).
  - reflexivity.
  - intros a b d H1 H2. congruence.
  - intros s. unfold sqlite3_exec, enter. destruct (next_fault (faults s)). reflexivity.
  - reflexivity.
Qed.

Lemma getMaxReadingsId_ge k a t :
  m_AssetReadingCatalogue k !! a = Some t ->
  t.1 <= getMaxReadingsId k.
Proof.
  intros H. apply elem_of_map_to_list in H. unfold getMaxReadingsId.
  induction (map_to_list (m_AssetReadingCatalogue k)) as [| it l IH];
    [apply elem_of_nil in H; destruct H |].
  cbn [foldr]. set (rest := foldr _ 0 l) in *.
  apply elem_of_cons in H as [<- | H].
  - cbn [fst snd]. destruct (Z.ltb_spec rest t.1); lia.
  - specialize (IH H). destruct (Z.ltb_spec rest it.2.1); lia.
Qed.

Lemma getMaxReadingsId_nonneg k : 0 <= getMaxReadingsId k.
Proof.
  unfold getMaxReadingsId.
  induction (map_to_list (m_AssetReadingCatalogue k)) as [| it l IH]; [reflexivity |].
  cbn [foldr]. set (rest := foldr _ 0 l) in *. destruct (Z.ltb_spec rest it.2.1); lia.
Qed.

(** The catalogue after [getReadingReference]: for a known asset it is
    untouched; for a new one the asset has been added with the table id
    handed back. *)
Lemma getReadingReference_catalogue a c :
  let id := (getReadingReference a c).1 in
  let k' := cat (getReadingReference a c).2 in
  match m_AssetReadingCatalogue (cat c) !! a with
  | Some t => id = t.1 /\ (getReadingReference a c).2 = c
  | None =>
      id = i32 (getMaxReadingsId (cat c) + 1)
      /\ exists d, m_AssetReadingCatalogue k' = <[a := (id, d)]> (m_AssetReadingCatalogue (cat c))
  end.
Proof.
  cbv zeta. unfold getReadingReference.
  destruct (m_AssetReadingCatalogue (cat c) !! a) as [t |] eqn:Ha; [split; reflexivity |].
  set (k1 := if isReadingAvailable (cat c) then cat c else createReadingsTablesNewDB (cat c)).
  assert (Hk1 : m_AssetReadingCatalogue k1 = m_AssetReadingCatalogue (cat c))
    by (subst k1; destruct (isReadingAvailable (cat c)); reflexivity).
  assert (Hmax : getMaxReadingsId k1 = getMaxReadingsId (cat c))
    by (unfold getMaxReadingsId; rewrite Hk1; reflexivity).
  match goal with
  | |- context [SQLexec ?cmd ?c0] =>
      pose proof (SQLexec_cat cmd c0) as Hcat; destruct (SQLexec cmd c0) as [rc c1]
  end.
  cbn [fst snd cat set_cat] in *. rewrite Hcat. cbn [allocateReadingAvailable
    m_AssetReadingCatalogue]. rewrite Hmax, Hk1.
  split; [reflexivity |]. eexists. reflexivity.
Qed.

(** X11.  A table reference is remembered.  Whatever the engine answers,
    also when the INSERT into [asset_reading_catalogue] fails, the asset is
    in the catalogue after [getReadingReference] with the table id that was
    handed back, and asking again for the same asset gives the same id
    without any call into the engine. *)
Theorem getReadingReference_is_remembered (a : string) (c : Conn) :
  let id := (getReadingReference a c).1 in
  let c1 := (getReadingReference a c).2 in
  (exists d, m_AssetReadingCatalogue (cat c1) !! a = Some (id, d))
  /\ getReadingReference a c1 = (id, c1).
Proof.
  cbv zeta. pose proof (getReadingReference_catalogue a c) as H. cbv zeta in H.
  assert (Hin : exists d, m_AssetReadingCatalogue (cat (getReadingReference a c).2) !! a
                          = Some ((getReadingReference a c).1, d)).
  { destruct (m_AssetReadingCatalogue (cat c) !! a) as [[t d] |] eqn:Ha.
    - destruct H as [-> ->]. exists d. exact Ha.
    - destruct H as (_ & d & ->). exists d. apply lookup_insert_eq. }
  split; [exact Hin |]. destruct Hin as (d & Hd).
  unfold getReadingReference at 1. rewrite Hd. reflexivity.
Qed.

(** X12.  Every asset gets a table of its own.  If no two assets of the
    catalogue share a table and the table ids are below the largest [int],
    then after [getReadingReference], whatever the engine answers, no two
    assets share a table either: the entries that were there are
    unchanged, and a new asset has been given a table id above all of
    theirs. *)
Theorem getReadingReference_keeps_tables_distinct (a : string) (c : Conn) :
  tables_distinct (cat c) ->
  (forall b t, m_AssetReadingCatalogue (cat c) !! b = Some t -> t.1 < 2 ^ 31 - 1) ->
  let id := (getReadingReference a c).1 in
  let k' := cat (getReadingReference a c).2 in
  tables_distinct k'
  /\ (forall b t, m_AssetReadingCatalogue (cat c) !! b = Some t ->
                  m_AssetReadingCatalogue k' !! b = Some t)
  /\ (m_AssetReadingCatalogue (cat c) !! a = None ->
      forall b t, m_AssetReadingCatalogue (cat c) !! b = Some t -> t.1 < id).
Proof.
  intros Hdist Hbound. cbv zeta.
  pose proof (getReadingReference_catalogue a c) as H. cbv zeta in H.
  destruct (m_AssetReadingCatalogue (cat c) !! a) as [t |] eqn:Ha.
  - destruct H as [_ ->]. split; [exact Hdist |]. split; [auto | discriminate].
  - destruct H as (Hid & d & Hmap). unfold tables_distinct. rewrite Hmap.
    assert (Hfresh : forall b t, m_AssetReadingCatalogue (cat c) !! b = Some t ->
                                 t.1 < (getReadingReference a c).1).
    { intros b t Hb. rewrite Hid.
      pose proof (getMaxReadingsId_ge _ _ _ Hb). pose proof (Hbound b t Hb).
      pose proof (getMaxReadingsId_nonneg (cat c)).
      assert (Hmax : getMaxReadingsId (cat c) < 2 ^ 31 - 1).
      { unfold getMaxReadingsId.
        clear -Hbound. 
        assert (Hall : forall it, it ∈ map_to_list (m_AssetReadingCatalogue (cat c)) ->
                                  it.2.1 < 2 ^ 31 - 1).
        { intros [b0 t0] Hin. apply elem_of_map_to_list in Hin. exact (Hbound b0 t0 Hin). }
        induction (map_to_list (m_AssetReadingCatalogue (cat c))) as [| it l IH];
          [reflexivity |].
        cbn [foldr]. set (rest := foldr _ 0 l) in *.
        assert (rest < 2 ^ 31 - 1)
          by (apply IH; intros it' Hit'; apply Hall, list_elem_of_further, Hit').
        pose proof (Hall it (list_elem_of_here _ _)).
        destruct (Z.ltb_spec rest it.2.1); lia. }
      unfold i32. rewrite Z.mod_small; lia. }
    split; [| split].
    + intros x y tx ty Hx Hy Heq.
      destruct (decide (x = a)) as [-> | Hxa]; destruct (decide (y = a)) as [-> | Hya].
      * reflexivity.
      * rewrite lookup_insert_eq in Hx. rewrite lookup_insert_ne in Hy by congruence.
        injection Hx as <-. cbn [fst] in Heq. pose proof (Hfresh y ty Hy). lia.
      * rewrite lookup_insert_eq in Hy. rewrite lookup_insert_ne in Hx by congruence.
        injection Hy as <-. cbn [fst] in Heq. pose proof (Hfresh x tx Hx). lia.
      * rewrite lookup_insert_ne in Hx, Hy by congruence. exact (Hdist x y tx ty Hx Hy Heq).
    + intros b t Hb. rewrite lookup_insert_ne; [exact Hb |]. congruence.
    + intros _. exact Hfresh.
Qed.

Lemma example_catalogue_lookup b t :
  m_AssetReadingCatalogue example_catalogue !! b = Some t ->
  (b = "pump"%string /\ t = (1, 1)) \/ (b = "fan"%string /\ t = (2, 1)).
Proof.
  unfold example_catalogue. cbn [m_AssetReadingCatalogue]. intros H.
  apply lookup_insert_Some in H as [[<- <-] | [_ H]]; [left; auto |].
  apply lookup_singleton_Some in H as [<- <-]. right; auto.
Qed.

Lemma getReadingReference_keeps_tables_distinct_witness :
  (getReadingReference "valve" (example_conn [SQLITE_ERROR])).1 = 3
  /\ tables_distinct (cat (getReadingReference "valve" (example_conn [SQLITE_ERROR])).2).
Proof.
  split; [vm_compute; reflexivity |].
  apply (getReadingReference_keeps_tables_distinct "valve" (example_conn [SQLITE_ERROR])).
  - intros a b ta tb Ha Hb Heq.
    apply example_catalogue_lookup in Ha as [[-> ->] | [-> ->]];
      apply example_catalogue_lookup in Hb as [[-> ->] | [-> ->]];
      try reflexivity; discriminate.
  - intros b t Hb. apply example_catalogue_lookup in Hb as [[-> ->] | [-> ->]]; simpl; lia.
Defined.

(** *** [readingStream] *)

(** X13.  The transaction of [readingStream].  The statement is prepared
    first; if that or BEGIN TRANSACTION fails, -1 is returned and nothing
    else reaches the engine.  Otherwise the prepared INSERTs are
    followed by exactly one closing command.  With
    every INSERT done it is END TRANSACTION, the value returned being the
    number of entries of the stream, or -1 if the commit fails.  An INSERT
    that ends on a status other than DONE (an error, or BUSY or LOCKED
    still answered after the last retry) is the last thing in the body:
    ROLLBACK follows at once and -1 is returned. *)
Theorem readingStream_transaction
        (formatDate : string -> option string) (rs : list ReadingStream) (c : Conn) :
  let ret := (readingStream formatDate rs c).1 in
  let c' := (readingStream formatDate rs c).2 in
  (exists rc, rc <> SQLITE_OK /\ events c' = events c ++ [Prepare 1 rc] /\ ret = -1)
  \/ (exists rc,
         rc <> SQLITE_OK
         /\ events c' = events c ++ [Prepare 1 SQLITE_OK; Exec Begin rc] /\ ret = -1)
  \/ (exists body closing,
         events c' = events c ++ [Prepare 1 SQLITE_OK; Exec Begin SQLITE_OK]
                              ++ body ++ [closing]
         /\ Forall body_event body
         /\ ((exists rcs rc,
                 inserts body rcs /\ all_done rcs
                 /\ closing = Exec End_ rc
                 /\ ret = if rc =? SQLITE_OK then Z.of_nat (length rs) else -1)
             \/ (exists rc,
                    failed_insert body /\ closing = Exec Rollback rc /\ ret = -1))).
Proof.
  cbv zeta. unfold readingStream.
  assert (Hprep : exists rc, sqlite3_prepare_v2 1 c
                             = (rc, (sqlite3_prepare_v2 1 c).2)
                             /\ events (sqlite3_prepare_v2 1 c).2 = events c ++ [Prepare 1 rc]).
  { unfold sqlite3_prepare_v2, enter. destruct (next_fault (faults c)) as [f fs].
    exists f. split; reflexivity. }
  destruct Hprep as (rc & Hp & He1). rewrite Hp. set (c1 := (sqlite3_prepare_v2 1 c).2) in *.
  destruct (Z.eqb_spec rc SQLITE_OK) as [-> | Hne]; cbn [negb];
    [| left; exists rc; auto].
  right.
  destruct (sqlite3_exec_event Begin c1) as (rc1 & Hrc1 & He2 & _).
  destruct (sqlite3_exec Begin c1) as [r1 c2]. cbn [fst snd] in Hrc1, He2. subst r1.
  destruct (Z.eqb_spec rc1 SQLITE_OK) as [-> | Hne1]; cbn [negb].
  2:{ left. exists rc1. cbn [fst snd]. rewrite He2, He1, <- app_assoc. auto. }
  right.
  destruct (stream_loop_trace formatDate rs 0 (-1) c2) as (evs & _ & He3 & Hres).
  destruct (stream_loop_shape formatDate rs 0 (-1) c2) as (evs' & He3' & Hshape).
  assert (evs' = evs) by (rewrite He3 in He3'; apply app_inv_head in He3'; congruence).
  subst evs'.
  destruct (stream_loop formatDate rs 0 (-1) c2) as [[[i n] |] c3];
    cbn [fst snd] in He3, Hres, Hshape.
  - destruct Hres as (Hgood & -> & _). destruct Hshape as (rcs & Hi & Hd).
    destruct (sqlite3_exec_event End_ c3) as (rc2 & Hrc2 & He4 & _).
    destruct (sqlite3_exec End_ c3) as [r2 c4]. cbn [fst snd] in Hrc2, He4 |- *. subst r2.
    exists evs, (Exec End_ rc2).
    split; [rewrite He4, He3, He2, He1, <- !app_assoc; reflexivity |].
    split; [eapply Forall_impl; [exact Hgood | apply good_body] |].
    left. exists rcs, rc2. split; [exact Hi |]. split; [exact Hd |]. split; [reflexivity |].
    destruct (rc2 =? SQLITE_OK); cbn [negb]; [lia | reflexivity].
  - destruct Hres as (body & rcr & -> & Hbody).
    destruct Hshape as (body' & rcr' & Heq & Hf).
    apply app_inj_tail in Heq as [<- [= <-]]. cbn [fst snd].
    exists body, (Exec Rollback rcr).
    split; [rewrite He3, He2, He1, <- !app_assoc; reflexivity |].
    split; [exact Hbody |]. right. eauto.
Qed.

(** A stream whose second INSERT is still answered BUSY after twenty
    steps: one row done, twenty steps and sleeps, ROLLBACK and -1. *)
Example readingStream_gives_up :
  let run :=
    readingStream (fun s => Some s)
      [mkStream "2024-01-01 10:00:00.000000" "pump" "{}";
       mkStream "2024-01-01 10:00:01.000000" "pump" "{}"]
      (mkConn ([0; 0; 0] ++ replicate 20 SQLITE_BUSY) [] [] example_catalogue
              "2024-01-01 00:00:00.000000") in
  run.1 = -1 /\ inserted (events run.2) = 1 /\ steps (events run.2) = 21
  /\ sleeps (events run.2) = 20
  /\ exists rc, last (events run.2) = Some (Exec Rollback rc).
Proof. vm_compute. repeat split; eauto. Qed.

End CatalogueTablesProperties.


(** ** More on the ingest worker *)

Section IngestMore.
Import Int Ingest IngestCount.

(** *** The resend loop ends *)

Lemma waiting_cons q rest : waiting (q :: rest) = Z.of_nat (length q) + waiting rest.
Proof. unfold waiting. cbn [concat]. rewrite length_app. lia. Qed.

(** One pass over a non-empty resend list lowers
    [6 * (readings + queues) - m_failCnt] and keeps the counter within
    0..5. *)
Lemma resend_once_measure s q rest :
  m_resendQueues s = q :: rest ->
  0 <= m_failCnt s <= 5 ->
  let s' := resend_once s in
  0 <= m_failCnt s' <= 5
  /\ 6 * (waiting (m_resendQueues s') + Z.of_nat (length (m_resendQueues s')))
     - m_failCnt s'
     < 6 * (waiting (m_resendQueues s) + Z.of_nat (length (m_resendQueues s)))
       - m_failCnt s.
Proof.
  intros Hq Hcnt. cbv zeta. unfold resend_once. rewrite Hq.
  assert (Hsame : m_failCnt (readingAppend s).2 = m_failCnt s
                  /\ m_resendQueues (readingAppend s).2 = m_resendQueues s).
  { unfold readingAppend. destruct (storage s); split; reflexivity. }
  destruct (readingAppend s) as [ok s1]. cbn [snd] in Hsame. destruct Hsame as [Hf Hr].
  rewrite waiting_cons. cbn [length].
  destruct ok; cbn [negb].
  - unfold stored. destruct (count_assets q "" None ∅ (assetTrackingCache s1)) as [stats tr].
    cbn [m_failCnt m_resendQueues]. lia.
  - rewrite Hf.
    assert (Hi : i32 (m_failCnt s + 1) = m_failCnt s + 1)
      by (unfold i32; rewrite Z.mod_small; lia).
    rewrite Hi. destruct (Z.ltb_spec 5 (m_failCnt s + 1)) as [H5 | H5].
    + rewrite remove_front_drop. cbn [m_failCnt m_resendQueues].
      destruct (bool_decide_reflect (drop 5 q = [])) as [Hnil | Hne].
      * lia.
      * rewrite waiting_cons. cbn [length]. rewrite length_drop.
        assert (5 < length q)%nat.
        { destruct (Nat.ltb_spec 5 (length q)) as [Hlt | Hge]; [exact Hlt |].
          exfalso. apply Hne. apply drop_ge. lia. }
        lia.
    + cbn [m_failCnt m_resendQueues]. rewrite waiting_cons. cbn [length]. lia.
Qed.

Lemma resend_ends_within (fuel : nat) : forall s,
  0 <= m_failCnt s <= 5 ->
  6 * (waiting (m_resendQueues s) + Z.of_nat (length (m_resendQueues s))) - m_failCnt s
    <= Z.of_nat fuel ->
  exists s', resend fuel s = Some s' /\ m_resendQueues s' = [].
Proof.
  induction fuel as [| fuel IH]; intros s Hcnt Hfuel.
  - destruct (m_resendQueues s) as [| q rest] eqn:Hq.
    + exists s. cbn [resend]. rewrite Hq. auto.
    + rewrite waiting_cons in Hfuel. cbn [length] in Hfuel. unfold waiting in Hfuel. lia.
  - cbn [resend]. destruct (m_resendQueues s) as [| q rest] eqn:Hq;
      [exists s; auto |].
    destruct (resend_once_measure s q rest Hq Hcnt) as [Hcnt' Hless].
    rewrite Hq in Hless. apply IH; [exact Hcnt' | lia].
Qed.

(** X14.  The resend loop ends.  With the failure counter within 0..5,
    whatever the storage layer answers, the loop over the resend list
    makes at most [6 * (readings + queues)] attempts and leaves the list
    empty: a queue that keeps failing loses five readings every sixth
    failure until nothing is left of it. *)
Theorem resend_ends (fuel : nat) (s : Ingest) :
  0 <= m_failCnt s <= 5 ->
  6 * (waiting (m_resendQueues s) + Z.of_nat (length (m_resendQueues s)))
    <= Z.of_nat fuel ->
  exists s', resend fuel s = Some s' /\ m_resendQueues s' = [].
Proof.
  intros Hcnt Hfuel. apply resend_ends_within; [exact Hcnt | lia].
Qed.

Lemma resend_ends_witness :
  exists s', resend 60 example_ingest = Some s' /\ m_resendQueues s' = [].
Proof.
  apply resend_ends.
  - simpl. lia.
  - vm_compute. discriminate.
Defined.

(** *** Every stored reading is counted *)

Lemma readings_of_cons a r q :
  readings_of a (r :: q)
  = (if String.eqb (assetName r) a then 1 else 0) + readings_of a q.
Proof.
  unfold readings_of. cbn [List.filter].
  destruct (String.eqb (assetName r) a); cbn [length]; lia.
Qed.

Lemma readings_of_bounds a q : 0 <= readings_of a q <= Z.of_nat (length q).
Proof.
  unfold readings_of. pose proof (List.filter_length_le
    (fun r => String.eqb (assetName r) a) q). lia.
Qed.

Lemma count_of_insert a b v stats :
  count_of a (<[b := v]> stats) = if String.eqb b a then v else count_of a stats.
Proof.
  unfold count_of. destruct (String.eqb_spec b a) as [-> | Hne].
  - rewrite lookup_insert_eq. reflexivity.
  - rewrite lookup_insert_ne by exact Hne. reflexivity.
Qed.

(** Once [lastStat] points at the entry of [lastAsset], every reading is
    counted under its own asset. *)
Lemma count_assets_named : forall q last stats tracked a,
  (forall b, 0 <= count_of b stats
             /\ count_of b stats + Z.of_nat (length q) < 2 ^ 31) ->
  count_of a (count_assets q last (Some last) stats tracked).1
  = count_of a stats + readings_of a q.
Proof.
  induction q as [| r q IH]; intros last stats tracked a Hb.
  - cbn [count_assets fst]. unfold readings_of. simpl. lia.
  - cbn [count_assets]. rewrite readings_of_cons.
    assert (Hstep : forall b,
               count_of b (<[assetName r := i32 (default 0 (stats !! assetName r) + 1)]> stats)
               = count_of b stats + (if String.eqb (assetName r) b then 1 else 0)).
    { intros b. rewrite count_of_insert. fold (count_of (assetName r) stats).
      destruct (String.eqb_spec (assetName r) b) as [<- | _]; [| lia].
      destruct (Hb (assetName r)) as [H0 H1]. cbn [length] in H1.
      unfold i32. rewrite Z.mod_small; lia. }
    assert (Hb' : forall b,
               0 <= count_of b (<[assetName r := i32 (default 0 (stats !! assetName r) + 1)]>
                                  stats)
               /\ count_of b (<[assetName r := i32 (default 0 (stats !! assetName r) + 1)]>
                                stats) + Z.of_nat (length q) < 2 ^ 31).
    { intros b. rewrite Hstep. destruct (Hb b) as [H0 H1]. cbn [length] in H1.
      destruct (String.eqb (assetName r) b); lia. }
    destruct (String.eqb_spec last (assetName r)) as [-> | Hne]; cbn [negb].
    + rewrite IH by exact Hb'. rewrite Hstep. lia.
    + rewrite IH by exact Hb'. rewrite Hstep. lia.
Qed.

(** From the start of the loop: the readings that open the queue with an
    empty asset name are passed over. *)
Lemma count_assets_counted : forall q tracked a,
  Z.of_nat (length q) < 2 ^ 31 ->
  count_of a (count_assets q "" None ∅ tracked).1 = readings_of a (counted q).
Proof.
  induction q as [| r q IH]; intros tracked a Hlen.
  - reflexivity.
  - cbn [count_assets counted]. cbn [length] in Hlen.
    rewrite (String.eqb_sym "" (assetName r)).
    destruct (String.eqb (assetName r) "") eqn:He; cbn [negb].
    + apply IH. lia.
    + rewrite count_assets_named.
      * rewrite readings_of_cons, count_of_insert.
        unfold count_of. rewrite !lookup_empty.
        destruct (String.eqb (assetName r) a); reflexivity.
      * intros b. rewrite count_of_insert. unfold count_of. rewrite !lookup_empty.
        cbn [default]. change (i32 (0 + 1)) with 1.
        destruct (String.eqb (assetName r) b); lia.
Qed.

Lemma counted_length q : (length (counted q) <= length q)%nat.
Proof.
  induction q as [| r q IH]; [reflexivity |]. cbn [counted].
  destruct (String.eqb (assetName r) ""); cbn [length]; lia.
Qed.

(** What [statsPendingEntries[it.first] += it.second] over a map does to
    one key. *)
Lemma add_pending_lookup stats pending a :
  add_pending stats pending !! a
  = match stats !! a with
    | Some n => Some (i32 (count_of a pending + n))
    | None => pending !! a
    end.
Proof.
  unfold add_pending.
  pose proof (NoDup_fst_map_to_list stats) as Hnd.
  assert (Hin : forall n, (a, n) ∈ map_to_list stats <-> stats !! a = Some n)
    by (intros n; apply elem_of_map_to_list).
  revert Hnd Hin. generalize (map_to_list stats) as l. intros l.
  revert stats. induction l as [| [k n] l IH]; intros stats Hnd Hin.
  - cbn [foldr]. destruct (stats !! a) as [n |]; [| reflexivity].
    pose proof (proj2 (Hin n) eq_refl) as Hs. apply elem_of_nil in Hs. destruct Hs.
  - cbn [foldr fst snd]. cbn [fmap list_fmap fst] in Hnd.
    apply NoDup_cons in Hnd as [Hk Hnd].
    destruct (String.eqb_spec k a) as [-> | Hne].
    + rewrite lookup_insert_eq.
      rewrite (proj1 (Hin n) (list_elem_of_here _ _)).
      assert (Hacc : (foldr (fun it acc => <[it.1 := i32 (default 0 (acc !! it.1) + it.2)]> acc)
                            pending l) !! a = pending !! a).
      { clear -Hk. induction l as [| [k' n'] l IH]; [reflexivity |].
        cbn [foldr fst snd]. cbn [fmap list_fmap fst] in Hk.
        apply not_elem_of_cons in Hk as [Hne Hk].
        rewrite lookup_insert_ne by congruence. apply IH, Hk. }
      unfold count_of. rewrite Hacc. reflexivity.
    + rewrite lookup_insert_ne by exact Hne.
      rewrite (IH (delete k stats) Hnd).
      * rewrite lookup_delete_ne by exact Hne. reflexivity.
      * intros m. rewrite lookup_delete_ne by exact Hne. rewrite <- Hin.
        split; [apply list_elem_of_further |].
        intros H. apply elem_of_cons in H as [[= -> ->] | H]; [contradiction | exact H].
Qed.

(** X15.  Every stored reading is counted once.  When a queue of fewer
    than 2^31 readings has been stored, the pending count of each asset
    has grown by the number of readings of the queue that carry its name,
    as long as the count stays within an [int].  The readings with an
    empty asset name that open a queue are the exception: they are not
    counted at all. *)
Theorem stored_counts_every_reading
        (q : list Reading) (queues : list (list Reading)) (s : Ingest) (a : string) :
  0 <= count_of a (statsPendingEntries s) ->
  count_of a (statsPendingEntries s) + Z.of_nat (length q) < 2 ^ 31 ->
  count_of a (statsPendingEntries (stored q queues s))
  = count_of a (statsPendingEntries s) + readings_of a (counted q).
Proof.
  intros H0 H1. unfold stored.
  pose proof (count_assets_counted q (assetTrackingCache s) a ltac:(lia)) as Hc.
  destruct (count_assets q "" None ∅ (assetTrackingCache s)) as [stats tracked].
  cbn [fst statsPendingEntries] in *.
  unfold count_of at 1. rewrite add_pending_lookup.
  pose proof (readings_of_bounds a (counted q)) as Hb.
  pose proof (counted_length q) as Hl.
  unfold count_of at 1 in Hc.
  destruct (stats !! a) as [n |]; cbn [default] in *.
  - unfold id in *. subst n. unfold i32. rewrite Z.mod_small; lia.
  - fold (count_of a (statsPendingEntries s)). lia.
Qed.

Lemma stored_counts_every_reading_witness :
  count_of "a" (statsPendingEntries
                  (stored (example_reading <$> ["a"; "a"; "b"; "a"]%string) []
                          example_ingest)) = 3.
Proof.
  rewrite (stored_counts_every_reading _ [] example_ingest "a").
  - reflexivity.
  - vm_compute. discriminate.
  - vm_compute. reflexivity.
Defined.

(** A reading without an asset name at the head of a queue is not
    counted; behind a named reading it is. *)
Example unnamed_reading_at_the_head :
  let s := mkIngest [] 0 false 0 0 ∅ ∅ ∅ [] in
  map_to_list (statsPendingEntries
                 (stored (example_reading <$> [""; "a"; ""]%string) [] s))
  = [("a"%string, 1); (""%string, 1)].
Proof. vm_compute. reflexivity. Qed.

(** *** A failed update of the statistics is tried again *)

Lemma updateStats_batch rv s :
  statsPendingEntries s <> ∅ ->
  (updateStats rv s).1
  = Some (asset_rows (map_to_list (statsPendingEntries s))
          ++ (if total 0 (map_to_list (statsPendingEntries s)) =? 0 then []
              else [("READINGS"%string, total 0 (map_to_list (statsPendingEntries s)))])
          ++ (if m_discardedReadings s =? 0 then []
              else [("DISCARDED"%string, m_discardedReadings s)])).
Proof.
  intros Hne. unfold updateStats.
  destruct (bool_decide_reflect (statsPendingEntries s = ∅)) as [H | _]; [contradiction |].
  pose proof (asset_updates_rows (map_to_list (statsPendingEntries s))
                (statsDbEntriesCache s) [] 0) as Hrows.
  destruct (asset_updates _ _ _ _) as [[upd rd] cache]. simpl in Hrows.
  injection Hrows as -> ->. cbn [fst].
  destruct (total 0 _ =? 0); destruct (m_discardedReadings s =? 0); cbn [negb app];
    rewrite ?app_nil_r, <- ?app_assoc; reflexivity.
Qed.

Lemma updateStats_idle rv s :
  statsPendingEntries s = ∅ -> updateStats rv s = (None, s).
Proof.
  intros He. unfold updateStats. rewrite He.
  destruct (bool_decide_reflect ((∅ : gmap string Z) = ∅)); [reflexivity | contradiction].
Qed.

(** X16.  A failed update loses nothing, a successful one is not
    repeated.  When [updateTable] fails (a negative value or an
    exception), the pending counts and the count of discarded readings
    are kept and the next tick submits the same batch again.  When it
    succeeds both are cleared, and the next tick returns before it builds
    a batch.  With no pending count nothing is submitted, even when
    readings have been discarded. *)
Theorem updateStats_retries_until_stored (rv rv' : option Z) (s : Ingest) :
  let failed := match rv with Some v => v <? 0 | None => true end in
  let s1 := (updateStats rv s).2 in
  (statsPendingEntries s = ∅ -> updateStats rv s = (None, s))
  /\ (statsPendingEntries s <> ∅ -> failed = true ->
        statsPendingEntries s1 = statsPendingEntries s
        /\ m_discardedReadings s1 = m_discardedReadings s
        /\ (updateStats rv' s1).1 = (updateStats rv s).1)
  /\ (statsPendingEntries s <> ∅ -> failed = false ->
        statsPendingEntries s1 = ∅
        /\ m_discardedReadings s1 = 0
        /\ (updateStats rv' s1).1 = None).
Proof.
  cbv zeta. split; [| split].
  - apply updateStats_idle.
  - intros Hne Hfail.
    assert (Hs1 : statsPendingEntries (updateStats rv s).2 = statsPendingEntries s
                  /\ m_discardedReadings (updateStats rv s).2 = m_discardedReadings s).
    { unfold updateStats.
      destruct (bool_decide_reflect (statsPendingEntries s = ∅)); [contradiction |].
      destruct (asset_updates _ _ _ _) as [[upd rd] cache]. cbn [snd statsPendingEntries
        m_discardedReadings].
      destruct rv as [v |]; [rewrite Hfail |]; split; reflexivity. }
    destruct Hs1 as [Hp Hd]. split; [exact Hp |]. split; [exact Hd |].
    rewrite !updateStats_batch by (try rewrite Hp; exact Hne).
    rewrite Hp, Hd. reflexivity.
  - intros Hne Hok.
    assert (Hs1 : statsPendingEntries (updateStats rv s).2 = ∅
                  /\ m_discardedReadings (updateStats rv s).2 = 0).
    { unfold updateStats.
      destruct (bool_decide_reflect (statsPendingEntries s = ∅)); [contradiction |].
      destruct (asset_updates _ _ _ _) as [[upd rd] cache]. cbn [snd statsPendingEntries
        m_discardedReadings].
      destruct rv as [v |]; [rewrite Hok | discriminate]; split; reflexivity. }
    destruct Hs1 as [Hp Hd]. split; [exact Hp |]. split; [exact Hd |].
    rewrite updateStats_idle by exact Hp. reflexivity.
Qed.

Lemma updateStats_retries_until_stored_witness :
  let s := mkIngest [] 0 false 0 2 {[ "pump"%string := 3 ]} ∅ ∅ [] in
  (updateStats (Some 0) (updateStats (Some (-1)) s).2).1
  = Some [("PUMP"%string, 3); ("READINGS"%string, 3); ("DISCARDED"%string, 2)].
Proof.
  cbv zeta.
  destruct (updateStats_retries_until_stored
              (Some (-1)) (Some 0)
              (mkIngest [] 0 false 0 2 {[ "pump"%string := 3 ]} ∅ ∅ []))
    as (_ & Hfail & _).
  destruct Hfail as (_ & _ & ->).
  - intros H. apply (f_equal (fun m => m !! "pump"%string)) in H. vm_compute in H.
    discriminate.
  - reflexivity.
  - vm_compute. reflexivity.
Defined.

End IngestMore.


(** ** The ingest queues *)

Section IngestQueueProperties.
Import Int IngestQueue.

(** One [ingest] while running, on a queue shorter than the threshold. *)
Lemma ingest_step r s :
  m_running s = true ->
  1 <= m_queueSizeThreshold s ->
  Z.of_nat (length (m_queue s)) < m_queueSizeThreshold s ->
  let s' := ingest r s in
  held s' = held s ++ [r]
  /\ Z.of_nat (length (m_queue s')) < m_queueSizeThreshold s'
  /\ m_running s' = true
  /\ m_queueSizeThreshold s' = m_queueSizeThreshold s
  /\ m_resendQueues s' = m_resendQueues s
  /\ exists new, m_fullQueues s' = m_fullQueues s ++ new
                 /\ Forall (fun q => Z.of_nat (length q) = m_queueSizeThreshold s) new
                 /\ Z.of_nat (length (m_queue s')) + Z.of_nat (length (concat new))
                    = Z.of_nat (length (m_queue s)) + 1.
Proof.
  intros Hrun Hth Hlen. cbv zeta. unfold ingest, move_if_full, held. rewrite Hrun.
  cbn [negb]. rewrite orb_false_r, length_app. cbn [length].
  destruct (Z.leb_spec (m_queueSizeThreshold s) (Z.of_nat (length (m_queue s) + 1)));
    cbn [m_queue m_fullQueues m_running m_queueSizeThreshold m_resendQueues].
  - rewrite concat_app. cbn [concat]. rewrite !app_nil_r, <- app_assoc.
    split; [reflexivity |]. split; [simpl; lia |]. repeat (split; [reflexivity |]).
    exists [m_queue s ++ [r]]. split; [reflexivity |]. split.
    + constructor; [| constructor]. rewrite length_app. cbn [length]. lia.
    + cbn [concat length]. rewrite app_nil_r, length_app. cbn [length]. lia.
  - rewrite app_assoc. split; [reflexivity |]. split; [rewrite length_app; cbn [length]; lia |].
    repeat (split; [reflexivity |]).
    exists []. rewrite app_nil_r. split; [reflexivity |]. split; [constructor |].
    rewrite length_app. cbn [length concat]. lia.
Qed.

Lemma i64_id z : - 2 ^ 63 <= z < 2 ^ 63 -> i64 z = z.
Proof. intros Hz. unfold i64. rewrite Z.mod_small by lia. lia. Qed.

Lemma concat_batches (th : Z) (qs : list (list Ingest.Reading)) :
  Forall (fun q => Z.of_nat (length q) = th) qs ->
  Z.of_nat (length (concat qs)) = Z.of_nat (length qs) * th.
Proof.
  induction 1 as [| q qs Hq _ IH]; [reflexivity |].
  cbn [concat]. rewrite length_app. cbn [length]. lia.
Qed.

(** What a run of single [ingest] calls does to the queues. *)
Lemma ingest_each_spec (rs : list Ingest.Reading) (s : Queues) :
  m_running s = true ->
  1 <= m_queueSizeThreshold s ->
  Z.of_nat (length (m_queue s)) < m_queueSizeThreshold s ->
  let s' := ingest_each rs s in
  held s' = held s ++ rs
  /\ Z.of_nat (length (m_queue s')) < m_queueSizeThreshold s
  /\ m_queueSizeThreshold s' = m_queueSizeThreshold s
  /\ m_resendQueues s' = m_resendQueues s
  /\ exists new, m_fullQueues s' = m_fullQueues s ++ new
                 /\ Forall (fun q => Z.of_nat (length q) = m_queueSizeThreshold s) new
                 /\ Z.of_nat (length (m_queue s')) + Z.of_nat (length (concat new))
                    = Z.of_nat (length (m_queue s)) + Z.of_nat (length rs).
Proof.
  revert s. induction rs as [| r rs IH]; intros s Hrun Hth Hlen; cbv zeta.
  - cbn [ingest_each foldl]. rewrite app_nil_r. split; [reflexivity |].
    split; [exact Hlen |]. repeat (split; [reflexivity |]).
    exists []. rewrite app_nil_r. split; [reflexivity |]. split; [constructor |].
    cbn [concat length]. lia.
  - unfold ingest_each. cbn [foldl]. fold (ingest_each rs (ingest r s)).
    destruct (ingest_step r s Hrun Hth Hlen)
      as (Hheld & Hlen1 & Hrun1 & Hth1 & Hre1 & new1 & Hfull1 & Hall1 & Hcnt1).
    destruct (IH (ingest r s) Hrun1 ltac:(lia) Hlen1)
      as (Hheld2 & Hlen2 & Hth2 & Hre2 & new2 & Hfull2 & Hall2 & Hcnt2).
    rewrite Hth1 in *.
    split; [rewrite Hheld2, Hheld, <- app_assoc; reflexivity |].
    split; [exact Hlen2 |]. split; [exact Hth2 |]. split; [congruence |].
    exists (new1 ++ new2). rewrite Hfull2, Hfull1, <- app_assoc.
    split; [reflexivity |]. split; [apply Forall_app; split; assumption |].
    rewrite concat_app, length_app. cbn [length]. lia.
Qed.

(** X17.  Readings are queued in order and in batches of the threshold.
    While the service runs, starting from a queue shorter than the
    threshold (at least 1), ingesting readings one by one keeps them all,
    in the order of arrival, in the full queues followed by the queue
    being filled; every queue added to the full queues holds exactly
    [m_queueSizeThreshold] readings, and the queue being filled stays
    shorter than that. *)
Theorem ingest_each_batches (rs : list Ingest.Reading) (s : Queues) :
  m_running s = true ->
  1 <= m_queueSizeThreshold s ->
  Z.of_nat (length (m_queue s)) < m_queueSizeThreshold s ->
  let s' := ingest_each rs s in
  held s' = held s ++ rs
  /\ Z.of_nat (length (m_queue s')) < m_queueSizeThreshold s
  /\ exists new, m_fullQueues s' = m_fullQueues s ++ new
                 /\ Forall (fun q => Z.of_nat (length q) = m_queueSizeThreshold s) new.
Proof.
  intros Hrun Hth Hlen. cbv zeta.
  destruct (ingest_each_spec rs s Hrun Hth Hlen)
    as (Hheld & Hlen' & _ & _ & new & Hfull & Hall & _).
  split; [exact Hheld |]. split; [exact Hlen' |]. exists new. split; assumption.
Qed.

Lemma ingest_each_batches_witness :
  let rs := Ingest.example_reading <$> ["a"; "b"; "c"; "d"; "e"; "f"; "g"]%string in
  held (ingest_each rs example_queues) = rs
  /\ length <$> m_fullQueues (ingest_each rs example_queues) = [3; 3]%nat
  /\ length (m_queue (ingest_each rs example_queues)) = 1%nat.
Proof.
  cbv zeta.
  destruct (ingest_each_batches
              (Ingest.example_reading <$> ["a"; "b"; "c"; "d"; "e"; "f"; "g"]%string)
              example_queues)
    as (Hheld & _); [reflexivity | simpl; lia | simpl; lia |].
  split; [exact Hheld |]. split; vm_compute; reflexivity.
Defined.

(** X18.  [queueLength] follows single ingests exactly.  While the
    service runs, starting from a queue shorter than the threshold (at
    least 1), each reading handed to [ingest] raises [queueLength] by
    one, as long as the count fits a [size_t]. *)
Theorem queueLength_counts_ingested (rs : list Ingest.Reading) (s : Queues) :
  m_running s = true ->
  1 <= m_queueSizeThreshold s ->
  Z.of_nat (length (m_queue s)) < m_queueSizeThreshold s ->
  Z.of_nat (length (m_queue s))
  + (Z.of_nat (length (m_fullQueues s)) + Z.of_nat (length (m_resendQueues s)))
    * m_queueSizeThreshold s
  + Z.of_nat (length rs) < 2 ^ 64 ->
  queueLength (ingest_each rs s) = queueLength s + Z.of_nat (length rs).
Proof.
  intros Hrun Hth Hlen Hfit.
  destruct (ingest_each_spec rs s Hrun Hth Hlen)
    as (_ & Hlen' & Hth' & Hre & new & Hfull & Hall & Hcnt).
  cbv zeta in *. rewrite (concat_batches _ _ Hall) in Hcnt.
  unfold queueLength. rewrite Hth', Hre, Hfull, length_app, Nat2Z.inj_add.
  set (q := Z.of_nat (length (m_queue s))) in *.
  set (q' := Z.of_nat (length (m_queue (ingest_each rs s)))) in *.
  set (f := Z.of_nat (length (m_fullQueues s))) in *.
  set (e := Z.of_nat (length (m_resendQueues s))) in *.
  set (n := Z.of_nat (length new)) in *.
  set (th := m_queueSizeThreshold s) in *.
  assert (0 <= q) by (subst q; lia). assert (0 <= q') by (subst q'; lia).
  assert (0 <= f) by (subst f; lia). assert (0 <= e) by (subst e; lia).
  assert (0 <= n) by (subst n; lia).
  assert (0 <= f * th) by nia. assert (0 <= e * th) by nia. assert (0 <= n * th) by nia.
  assert (Hmul : (f + n) * th = f * th + n * th) by ring.
  assert (Hsum : (f + e) * th = f * th + e * th) by ring.
  unfold u64.
  rewrite (Z.mod_small ((f + n) * th)) by lia.
  rewrite (Z.mod_small (e * th)) by lia.
  rewrite (Z.mod_small (f * th)) by lia.
  rewrite (Z.mod_small (q' + _)) by lia.
  rewrite (Z.mod_small (q + _)) by lia.
  rewrite !Z.mod_small by lia. lia.
Qed.

Lemma queueLength_counts_ingested_witness :
  queueLength
    (ingest_each (Ingest.example_reading <$> ["a"; "b"; "c"; "d"; "e"; "f"; "g"]%string)
                 example_queues)
  = queueLength example_queues + 7.
Proof.
  change 7 with
    (Z.of_nat (length (Ingest.example_reading <$> ["a"; "b"; "c"; "d"; "e"; "f"; "g"]%string))).
  apply (queueLength_counts_ingested
           (Ingest.example_reading <$> ["a"; "b"; "c"; "d"; "e"; "f"; "g"]%string)
           example_queues); [reflexivity | simpl; lia | simpl; lia | vm_compute; reflexivity].
Defined.

(** A vector handed over in one call is queued as one batch whatever its
    size, and [queueLength] then counts it as one threshold. *)
Example queueLength_after_a_large_vector :
  queueLength
    (ingest_set (Ingest.example_reading <$> ["a"; "b"; "c"; "d"; "e"; "f"; "g"]%string)
                example_queues) = 3.
Proof. vm_compute. reflexivity. Qed.

Section WaitForQueue.
Variable getUserTimestamp : Ingest.Reading -> Timeval.

Lemma quot_1000_lower (d : Z) : -1000000 < d -> -1000 < Z.quot d 1000.
Proof.
  intros Hd. destruct (Z.le_gt_cases 0 d) as [Hpos | Hneg].
  - pose proof (Z.quot_pos d 1000 Hpos ltac:(lia)). lia.
  - rewrite <- (Z.opp_involutive d), Z.quot_opp_l by lia.
    assert (Z.quot (- d) 1000 < 1000); [| lia].
    apply Z.quot_lt_upper_bound; lia.
Qed.

(** X19.  The worker waits only when nothing is ready, and never longer
    than three quarters of the timeout.  When [waitForQueue] waits, no
    full queue and no resend queue is pending, the service runs and the
    queue being filled is below the threshold; if moreover the oldest
    queued reading is not stamped later than the current time, the wait
    lies between 0 and 3/4 of [m_timeout] milliseconds. *)
Theorem waitForQueue_bounded (now : Timeval) (s : Queues) (t : Z) :
  0 <= m_timeout s < 2 ^ 32 ->
  0 <= tv_sec now < 2 ^ 40 ->
  0 <= tv_usec now < 1000000 ->
  (forall reading, head (m_queue s) = Some reading ->
     let tm := getUserTimestamp reading in
     0 <= tv_sec tm < 2 ^ 40 /\ 0 <= tv_usec tm < 1000000
     /\ (tv_sec tm < tv_sec now
         \/ (tv_sec tm = tv_sec now /\ tv_usec tm <= tv_usec now))) ->
  waitForQueue getUserTimestamp now s = Some t ->
  m_fullQueues s = [] /\ m_resendQueues s = [] /\ m_running s = true
  /\ Z.of_nat (length (m_queue s)) < m_queueSizeThreshold s
  /\ 0 <= t <= 3 * m_timeout s / 4.
Proof.
  intros Hto Hsec Husec Hold. unfold waitForQueue.
  destruct (m_fullQueues s) as [| q1 fs]; [| discriminate].
  destruct (m_resendQueues s) as [| q2 es]; [| discriminate].
  cbn [length Z.of_nat Z.eqb negb orb].
  destruct (m_running s); [| discriminate]. cbn [andb].
  destruct (Z.ltb_spec (Z.of_nat (length (m_queue s))) (m_queueSizeThreshold s))
    as [Hlen |]; [| discriminate].
  destruct (Z.ltb_spec 0 (calculateWaitTime getUserTimestamp now s)) as [Hpos |];
    [| discriminate].
  intros [= <-]. repeat (split; [reflexivity || assumption |]).
  assert (Hle : calculateWaitTime getUserTimestamp now s <= m_timeout s).
  { unfold calculateWaitTime in *. destruct (m_queue s) as [| reading rest]; [lia |].
    destruct (Hold reading eq_refl) as (Hs & Hu & Hbefore). cbv zeta in *.
    set (tm := getUserTimestamp reading) in *.
    pose proof (quot_1000_lower (tv_usec now - tv_usec tm) ltac:(lia)) as Hq.
    assert (Hq' : Z.quot (tv_usec now - tv_usec tm) 1000 < 1000).
    { destruct (Z.le_gt_cases 0 (tv_usec now - tv_usec tm)).
      - apply Z.quot_lt_upper_bound; lia.
      - rewrite <- (Z.opp_involutive (tv_usec now - tv_usec tm)), Z.quot_opp_l by lia.
        pose proof (Z.quot_pos (- (tv_usec now - tv_usec tm)) 1000 ltac:(lia) ltac:(lia)).
        lia. }
    assert (Hq0 : tv_sec tm = tv_sec now -> 0 <= Z.quot (tv_usec now - tv_usec tm) 1000)
      by (intros; apply Z.quot_pos; lia).
    rewrite (i64_id (tv_sec now - tv_sec tm)) by lia.
    rewrite (i64_id (tv_usec now - tv_usec tm)) by lia.
    rewrite (i64_id ((tv_sec now - tv_sec tm) * 1000)) by lia.
    rewrite (i64_id (_ + _)) by lia.
    rewrite i64_id by lia. lia. }
  set (w := calculateWaitTime getUserTimestamp now s) in *.
  rewrite i64_id by lia.
  split; [apply Z.quot_pos; lia |].
  rewrite Z.quot_div_nonneg by lia. apply Z.div_le_mono; lia.
Qed.

End WaitForQueue.

Lemma waitForQueue_bounded_witness :
  let s := ingest (Ingest.example_reading "a") example_queues in
  let stamp := fun _ : Ingest.Reading => mkTimeval 1700000000 250000 in
  waitForQueue stamp (mkTimeval 1700000002 0) s = Some 2437
  /\ 0 <= 2437 <= 3 * m_timeout s / 4.
Proof.
  cbv zeta. split; [vm_compute; reflexivity |].
  apply (waitForQueue_bounded (fun _ => mkTimeval 1700000000 250000)
           (mkTimeval 1700000002 0) (ingest (Ingest.example_reading "a") example_queues) 2437).
  - vm_compute. split; [discriminate | reflexivity].
  - vm_compute. split; [discriminate | reflexivity].
  - vm_compute. split; [discriminate | reflexivity].
  - intros reading _. vm_compute. repeat split; try discriminate. left. reflexivity.
  - vm_compute. reflexivity.
Defined.

End IngestQueueProperties.


(** ** Tables and databases of the catalogue *)

Section TableNamesProperties.
Import Int Insert CatalogueTables TableNames.

Lemma visit_elem (k : Catalogue) (a : string) (item : Z * Z) :
  (a, item) ∈ visit k <-> m_AssetReadingCatalogue k !! a = Some item.
Proof.
  unfold visit. rewrite merge_sort_Permutation. apply elem_of_map_to_list.
Qed.

Lemma visit_length (k : Catalogue) :
  length (visit k) = size (m_AssetReadingCatalogue k).
Proof.
  unfold visit. rewrite merge_sort_Permutation. apply length_map_to_list.
Qed.

(** The loop of [getUsedTablesDbId] over a part of the catalogue. *)
Lemma used_tables_loop (dbId : Z) (items : list (string * (Z * Z)))
      (count : Z) (m : gmap string (Z * Z)) :
  NoDup items.*1 ->
  0 <= count -> count + Z.of_nat (length items) < 2 ^ 31 ->
  let '(count', m') :=
    foldl (fun '(count, m) item =>
             (if negb (dbId =? 0) then i32 (count + 1) else count,
              <[item.1 := (item.2.1, dbId)]> m))
          (count, m) items in
  count' = (if dbId =? 0 then count else count + Z.of_nat (length items))
  /\ forall a,
       m' !! a = match list_find (fun item => item.1 = a) items with
                 | Some (_, item) => Some (item.2.1, dbId)
                 | None => m !! a
                 end.
Proof.
  revert count m. induction items as [| [b [t d]] items IH]; intros count m Hnd H0 Hlt.
  - cbn. split; [destruct (dbId =? 0); lia | reflexivity].
  - cbn [foldl fst snd]. cbn [fmap list_fmap fst] in Hnd. apply NoDup_cons in Hnd as [Hb Hnd].
    cbn [length] in Hlt.
    specialize (IH (if negb (dbId =? 0) then i32 (count + 1) else count)
                   (<[b := (t, dbId)]> m) Hnd).
    destruct (foldl _ _ items) as [count' m'].
    destruct IH as [Hc Hm].
    + destruct (dbId =? 0); cbn [negb]; [lia | rewrite i32_id; lia].
    + destruct (dbId =? 0); cbn [negb]; [lia | rewrite i32_id; lia].
    + split.
      * rewrite Hc. destruct (dbId =? 0); cbn [negb]; [reflexivity |].
        cbn [length]. rewrite i32_id by lia. lia.
      * intros a. rewrite Hm. cbn [list_find fst snd].
        destruct (decide (b = a)) as [-> | Hne].
        -- destruct (list_find _ items) as [[i [a' item]] |] eqn:Hfind.
           ++ apply list_find_Some in Hfind as (Hi & Ha & _). cbn in Ha. subst a'.
              exfalso. apply Hb. apply list_elem_of_fmap. exists (a, item).
              split; [reflexivity | eapply list_elem_of_lookup_2; exact Hi].
           ++ cbn. apply lookup_insert_eq.
        -- destruct (list_find _ items) as [[i [a' item]] |]; cbn; [reflexivity |].
           apply lookup_insert_ne. exact Hne.
Qed.

Lemma visit_NoDup (k : Catalogue) : NoDup (visit k).*1.
Proof.
  unfold visit. rewrite merge_sort_Permutation. apply NoDup_fst_map_to_list.
Qed.

Lemma getUsedTablesDbId_spec (dbId : Z) (k : Catalogue) :
  Z.of_nat (size (m_AssetReadingCatalogue k)) < 2 ^ 31 ->
  let '(count, k') := getUsedTablesDbId dbId k in
  count = (if dbId =? 0 then 0 else Z.of_nat (size (m_AssetReadingCatalogue k)))
  /\ forall a,
       m_AssetReadingCatalogue k' !! a
       = (fun item => (item.1, dbId)) <$> (m_AssetReadingCatalogue k !! a).
Proof.
  intros Hsize. unfold getUsedTablesDbId.
  pose proof (used_tables_loop dbId (visit k) 0 (m_AssetReadingCatalogue k)
                (visit_NoDup k) ltac:(lia)) as Hloop.
  rewrite visit_length in Hloop. specialize (Hloop ltac:(lia)).
  destruct (foldl _ _ (visit k)) as [count m]. destruct Hloop as [Hc Hm].
  split; [rewrite Hc; destruct (dbId =? 0); lia |].
  intros a. cbn [set_catalogue m_AssetReadingCatalogue]. rewrite Hm.
  destruct (list_find _ (visit k)) as [[i [a' item]] |] eqn:Hfind.
  - apply list_find_Some in Hfind as (Hi & Ha & _). cbn in Ha. subst a'.
    apply list_elem_of_lookup_2, visit_elem in Hi. rewrite Hi. reflexivity.
  - destruct (m_AssetReadingCatalogue k !! a) as [item |] eqn:Hlook; [| reflexivity].
    exfalso. apply visit_elem in Hlook.
    apply list_find_None in Hfind. rewrite Forall_forall in Hfind.
    apply (Hfind _ Hlook). reflexivity.
Qed.

(** X20.  [getUsedTablesDbId] does not count by database.  For a database
    id other than 0 it returns the number of assets of the whole
    catalogue (0 for database 0), and it leaves every asset recorded in
    the database it was asked about, the table ids unchanged. *)
Theorem getUsedTablesDbId_overwrites (dbId : Z) (k : Catalogue) :
  Z.of_nat (size (m_AssetReadingCatalogue k)) < 2 ^ 31 ->
  let '(count, k') := getUsedTablesDbId dbId k in
  count = (if dbId =? 0 then 0 else Z.of_nat (size (m_AssetReadingCatalogue k)))
  /\ forall a,
       m_AssetReadingCatalogue k' !! a
       = (fun item => (item.1, dbId)) <$> (m_AssetReadingCatalogue k !! a).
Proof. exact (getUsedTablesDbId_spec dbId k). Qed.

Lemma getUsedTablesDbId_overwrites_witness :
  (getUsedTablesDbId 2 example_two_databases).1 = 2
  /\ m_AssetReadingCatalogue (getUsedTablesDbId 2 example_two_databases).2 !! "pump"%string
     = Some (1, 2).
Proof.
  pose proof (getUsedTablesDbId_overwrites 2 example_two_databases) as H.
  destruct (getUsedTablesDbId 2 example_two_databases) as [count k'].
  destruct H as [Hc Hm]; [vm_compute; reflexivity |].
  split; [exact Hc | rewrite Hm; vm_compute; reflexivity].
Defined.

Section WithBase.
Variable READINGS_DB_NAME_BASE : string.

Lemma db_name_not_empty (d : Z) :
  String.eqb (READINGS_DB_NAME_BASE +:+ "_" +:+ to_string d) "" = false.
Proof.
  apply String.eqb_neq. destruct READINGS_DB_NAME_BASE; discriminate.
Qed.

Lemma find_table_none (t : Z) (items : list (string * (Z * Z))) :
  (forall item, item ∈ items -> item.2.1 <> t) ->
  find_table READINGS_DB_NAME_BASE t items = ""%string.
Proof.
  induction items as [| item items IH]; intros Hno; [reflexivity |].
  cbn [find_table]. destruct (Z.eqb_spec item.2.1 t) as [Heq | _].
  - exfalso. exact (Hno item (list_elem_of_here _ _) Heq).
  - apply IH. intros item' Hin. apply Hno. apply list_elem_of_further. exact Hin.
Qed.

Lemma find_table_some (t d0 : Z) (items : list (string * (Z * Z))) :
  (exists item, item ∈ items /\ item.2.1 = t) ->
  (forall item, item ∈ items -> item.2.1 = t -> item.2.2 = d0) ->
  find_table READINGS_DB_NAME_BASE t items
  = READINGS_DB_NAME_BASE +:+ "_" +:+ to_string d0.
Proof.
  induction items as [| item items IH]; intros (item0 & Hin & Ht) Hall.
  - inversion Hin.
  - cbn [find_table]. destruct (Z.eqb_spec item.2.1 t) as [Heq | Hne].
    + rewrite (Hall item (list_elem_of_here _ _) Heq). reflexivity.
    + apply IH.
      * exists item0. split; [| exact Ht].
        apply elem_of_cons in Hin as [-> | Hin]; [contradiction | exact Hin].
      * intros item' Hin'. apply Hall. apply list_elem_of_further. exact Hin'.
Qed.

(** X21.  [getDbNameFromTableId] names the database of the table's
    asset.  When no two assets share a table, the table of an asset of
    the catalogue is found in the database recorded with it; a table of
    no asset is looked for in database 1. *)
Theorem getDbNameFromTableId_finds_database (k : Catalogue) (t : Z) :
  tables_distinct k ->
  (forall a d, m_AssetReadingCatalogue k !! a = Some (t, d) ->
     getDbNameFromTableId READINGS_DB_NAME_BASE t k = getDbName READINGS_DB_NAME_BASE d)
  /\ ((forall a item, m_AssetReadingCatalogue k !! a = Some item -> item.1 <> t) ->
      getDbNameFromTableId READINGS_DB_NAME_BASE t k = READINGS_DB_NAME_BASE +:+ "_1").
Proof.
  intros Hdist. split.
  - intros a d Hlook. unfold getDbNameFromTableId, getDbName.
    rewrite (find_table_some t d).
    + rewrite db_name_not_empty. reflexivity.
    + exists (a, (t, d)). split; [apply visit_elem; exact Hlook | reflexivity].
    + intros [b [t' d']] Hin Ht. cbn in Ht. subst t'. apply visit_elem in Hin.
      pose proof (Hdist a b (t, d) (t, d') Hlook Hin eq_refl) as ->.
      cbn. congruence.
  - intros Hno. unfold getDbNameFromTableId. rewrite find_table_none; [reflexivity |].
    intros [b item] Hin. apply visit_elem in Hin. exact (Hno b item Hin).
Qed.

(** X22.  After [getUsedTablesDbId], every table is attributed to the
    database that was asked about: [getDbNameFromTableId] then answers
    with that database for the table of every asset of the catalogue,
    whichever database was recorded for it before. *)
Theorem getUsedTablesDbId_moves_tables (dbId : Z) (k : Catalogue) (a : string) (t d : Z) :
  Z.of_nat (size (m_AssetReadingCatalogue k)) < 2 ^ 31 ->
  m_AssetReadingCatalogue k !! a = Some (t, d) ->
  getDbNameFromTableId READINGS_DB_NAME_BASE t (getUsedTablesDbId dbId k).2
  = getDbName READINGS_DB_NAME_BASE dbId.
Proof.
  intros Hsize Hlook. pose proof (getUsedTablesDbId_spec dbId k Hsize) as H.
  destruct (getUsedTablesDbId dbId k) as [count k']. destruct H as [_ Hm]. cbn [snd].
  unfold getDbNameFromTableId, getDbName. rewrite (find_table_some t dbId).
  - rewrite db_name_not_empty. reflexivity.
  - exists (a, (t, dbId)). split; [| reflexivity].
    apply visit_elem. rewrite Hm, Hlook. reflexivity.
  - intros [b [t' d']] Hin _. apply visit_elem in Hin. rewrite Hm in Hin.
    destruct (m_AssetReadingCatalogue k !! b) as [item |]; cbn in Hin |- *; [| discriminate].
    injection Hin as _ <-. reflexivity.
Qed.

End WithBase.

Lemma example_two_databases_lookup b t :
  m_AssetReadingCatalogue example_two_databases !! b = Some t ->
  (b = "pump"%string /\ t = (1, 1)) \/ (b = "fan"%string /\ t = (2, 2)).
Proof.
  unfold example_two_databases. cbn [m_AssetReadingCatalogue]. intros H.
  apply lookup_insert_Some in H as [[<- <-] | [_ H]]; [left; auto |].
  apply lookup_singleton_Some in H as [<- <-]. right; auto.
Qed.

Lemma getDbNameFromTableId_finds_database_witness :
  getDbNameFromTableId "readings" 2 example_two_databases = "readings_2"%string.
Proof.
  refine (proj1 (getDbNameFromTableId_finds_database "readings" example_two_databases 2 _)
                "fan"%string 2 _); [| vm_compute; reflexivity].
  intros a b ta tb Ha Hb Heq.
  apply example_two_databases_lookup in Ha as [[-> ->] | [-> ->]];
    apply example_two_databases_lookup in Hb as [[-> ->] | [-> ->]];
    try reflexivity; discriminate.
Defined.

Lemma getUsedTablesDbId_moves_tables_witness :
  getDbNameFromTableId "readings" 2 (getUsedTablesDbId 1 example_two_databases).2
  = "readings_1"%string.
Proof.
  apply (getUsedTablesDbId_moves_tables "readings" 1 example_two_databases "fan" 2 2);
    vm_compute; reflexivity.
Defined.

End TableNamesProperties.


(** ** Time spent asleep by the executor *)

Section RetrySleep.
Import Sqlite Int Retry Catalogue.

Lemma backoff_schedule_sum (retries : Z) (k : nat) :
  2 * foldr Z.add 0 (backoff_schedule retries k)
  = RETRY_BACKOFF * Z.of_nat k * (2 * retries + Z.of_nat k + 1).
Proof.
  revert retries. induction k as [| k IH]; intros retries.
  - unfold backoff_schedule. cbn. lia.
  - rewrite backoff_schedule_S. cbn [foldr].
    rewrite Z.mul_add_distr_l, IH. unfold RETRY_BACKOFF. lia.
Qed.

Lemma backoff_schedule_range (retries : Z) (k : nat) :
  Forall (fun us => (retries + 1) * RETRY_BACKOFF <= us
                    <= (retries + Z.of_nat k) * RETRY_BACKOFF)
         (backoff_schedule retries k).
Proof.
  unfold backoff_schedule. apply Forall_fmap, Forall_forall. intros i Hin.
  apply elem_of_seq in Hin. cbn. unfold RETRY_BACKOFF. lia.
Qed.

Lemma retry_contract_sleep (run : Conn -> Z * Conn) (c : Conn) :
  retry_contract run ->
  exists added,
    slept (run c).2 = slept c ++ added
    /\ Forall (fun us => 100 <= us <= 4000) added
    /\ foldr Z.add 0 added <= 82000.
Proof.
  intros Hrun. destruct (Hrun c) as (Hn & _ & Hslept & _). cbv zeta in *.
  set (n := calls (run c).2 - calls c) in *.
  set (k := Z.to_nat (if locked_or_busy (run c).1 then n else n - 1)) in *.
  assert (Hk : (k <= 40)%nat).
  { subst k. unfold MAX_RETRIES in Hn. destruct (locked_or_busy (run c).1); lia. }
  exists (backoff_schedule 0 k). split; [exact Hslept |]. split.
  - eapply Forall_impl; [apply backoff_schedule_range |].
    intros us. cbn beta. unfold RETRY_BACKOFF. lia.
  - pose proof (backoff_schedule_sum 0 k) as Hsum. unfold RETRY_BACKOFF in Hsum. nia.
Qed.

(** X23.  A call through [SQLexec] or [SQLStep] sleeps at most 82
    milliseconds in all.  The sleeps it adds are between 100 and 4000
    microseconds each, and they sum to at most 82000 microseconds,
    whatever the engine answers. *)
Theorem executor_sleep_bounded (c : Conn) :
  (forall cmd, exists added,
      slept (SQLexec cmd c).2 = slept c ++ added
      /\ Forall (fun us => 100 <= us <= 4000) added
      /\ foldr Z.add 0 added <= 82000)
  /\ (forall q, exists added,
      slept (SQLStep q c).2 = slept c ++ added
      /\ Forall (fun us => 100 <= us <= 4000) added
      /\ foldr Z.add 0 added <= 82000).
Proof.
  split.
  - intros cmd. apply retry_contract_sleep, retry_meets_contract, sqlite3_exec_call.
  - intros q. apply retry_contract_sleep, retry_meets_contract, sqlite3_step_call.
Qed.

(** Forty BUSY answers in a row reach the bound. *)
Example executor_sleeps_82_ms :
  foldr Z.add 0
        (slept (SQLexec (UpdateGlobalId "-1")
                        (mkConn (mkDb [] ∅) (replicate 40 SQLITE_BUSY) 0 [] None)).2)
  = 82000.
Proof. vm_compute. reflexivity. Qed.

End RetrySleep.
